(** * Weighted quantiles: a shallow embedding of [impactlab_tools.utils.weighting]

    The module under study computes quantiles of a weighted empirical
    distribution with three layered functions:

    - [weighted_quantile_1d]: the 1-D estimator (sort, cumulative weights,
      midpoint positions, normalisation, linear interpolation);
    - [weighted_quantile]: the same along one axis of an N-D array;
    - [weighted_quantile_xr]: the labelled-array wrapper that aligns a
      label-indexed weight vector with the coordinates of a named dimension.

    Numbers.  The program computes with IEEE doubles.  Here a double is an
    exact rational number or one of the three special values +inf, -inf and
    NaN ([fnum]); arithmetic on finite values is exact and unbounded
    (rounding, overflow and signed zeros are not modelled), arithmetic and
    comparisons on special values follow IEEE 754, so that a division by a
    zero total weight produces NaN or an infinity exactly as numpy does,
    instead of an exception.  A statement about numeric results therefore
    describes the program up to the rounding of the numbers it returns,
    and only on input that binary64 does not overflow on; a statement whose
    content would not survive rounding (which of two knots a quantile falls
    on, whether two sums are equal) is made for weights that are whole
    numbers of bounded total ([counts]) and for values of bounded magnitude
    ([moderate]), on which the sums and differences the program forms are
    exact and distinct knots stay distinct.

    Order of equal values.  [np.argsort] with its default [kind] does not
    fix the order in which equal values are listed (it depends on the
    length of the array and on the build of numpy).  The embedding lists
    them in input order.  What a statement says about the order of the
    observations is meant up to the order of tied values: where the
    estimates depend on that order, the statement takes observations of
    equal value to carry equal weight ([ties_identical]), which makes the
    sorted sequence of observations the same under every ascending sort.

    Effects.  Python exceptions are modelled by an error monad that also
    records the trace of array primitives that were invoked, so that "fails
    before sorting" and "fails before the estimator is invoked" are
    statements about the recorded trace.

    Array primitives.  [numpy], [pandas] and [xarray] are external to the
    module; the primitives it calls ([argsort], fancy indexing, [cumsum],
    [sum], [interp], [apply_along_axis], [.loc]) are embedded in [Module Np]
    and [Module Xr] after the library implementations. *)

From Stdlib Require Import String.
From Stdlib Require Import QArith Qround ZArith List Bool Lia Lqa.
From Stdlib Require Import Permutation Sorted Arith.
Import ListNotations.

Set Implicit Arguments.
Close Scope Q_scope.

(* ================================================================= *)
(** ** Doubles: exact rationals extended with IEEE special values *)

Module Float.
Local Open Scope Q_scope.

Inductive fnum : Type :=
| Fin (q : Q)
| PInf
| NInf
| NaN.

Definition F0 : fnum := Fin 0.
Definition F1 : fnum := Fin 1.
Definition Fhalf : fnum := Fin (1 # 2).

Definition fisnan (a : fnum) : bool :=
  match a with NaN => true | _ => false end.

Definition fisfinite (a : fnum) : bool :=
  match a with Fin _ => true | _ => false end.

Definition fneg (a : fnum) : fnum :=
  match a with
  | Fin q => Fin (- q)
  | PInf => NInf
  | NInf => PInf
  | NaN => NaN
  end.

Definition fadd (a b : fnum) : fnum :=
  match a, b with
  | NaN, _ | _, NaN => NaN
  | PInf, NInf | NInf, PInf => NaN
  | PInf, _ | _, PInf => PInf
  | NInf, _ | _, NInf => NInf
  | Fin x, Fin y => Fin (x + y)
  end.

Definition fsub (a b : fnum) : fnum := fadd a (fneg b).

(** Sign of a finite value, used by the rules for products and quotients
    that involve an infinity or a zero. *)
Definition by_sign (x : Q) (neg zero pos : fnum) : fnum :=
  match x ?= 0 with
  | Lt => neg
  | Eq => zero
  | Gt => pos
  end.

Definition fmul (a b : fnum) : fnum :=
  match a, b with
  | NaN, _ | _, NaN => NaN
  | Fin x, Fin y => Fin (x * y)
  | Fin x, PInf | PInf, Fin x => by_sign x NInf NaN PInf
  | Fin x, NInf | NInf, Fin x => by_sign x PInf NaN NInf
  | PInf, PInf | NInf, NInf => PInf
  | PInf, NInf | NInf, PInf => NInf
  end.

(** [x / 0] is NaN for [x = 0] and an infinity of the sign of [x] otherwise
    (the zero is the positive zero).  numpy reports such a division with a
    warning, not with an exception, in its default error state. *)
Definition fdiv (a b : fnum) : fnum :=
  match a, b with
  | NaN, _ | _, NaN => NaN
  | Fin x, Fin y =>
      if Qeq_bool y 0 then by_sign x NInf NaN PInf else Fin (x / y)
  | Fin _, PInf | Fin _, NInf => Fin 0
  | PInf, Fin y => by_sign y NInf PInf PInf
  | NInf, Fin y => by_sign y PInf NInf NInf
  | PInf, PInf | PInf, NInf | NInf, PInf | NInf, NInf => NaN
  end.

(** Comparisons: every comparison with NaN is false. *)
Definition flt (a b : fnum) : bool :=
  match a, b with
  | NaN, _ | _, NaN => false
  | Fin x, Fin y => match x ?= y with Lt => true | _ => false end
  | NInf, NInf | PInf, _ => false
  | NInf, _ => true
  | Fin _, PInf => true
  | Fin _, NInf => false
  end.

Definition feqb (a b : fnum) : bool :=
  match a, b with
  | Fin x, Fin y => Qeq_bool x y
  | PInf, PInf | NInf, NInf => true
  | _, _ => false
  end.

Definition fle (a b : fnum) : bool := flt a b || feqb a b.
Definition fgt (a b : fnum) : bool := flt b a.
Definition fge (a b : fnum) : bool := fle b a.

(** Two doubles denote the same number: equal rationals, or the same special
    value. *)
Definition feq (a b : fnum) : Prop :=
  match a, b with
  | Fin x, Fin y => x == y
  | PInf, PInf | NInf, NInf | NaN, NaN => True
  | _, _ => False
  end.

End Float.
Export Float.

(* ================================================================= *)
(** ** Exceptions and the trace of primitive calls *)

Inductive error : Type :=
| AssertionError   (* a failed [assert] *)
| IndexError       (* an index out of bounds *)
| ValueError       (* raised by [np.interp], [np.apply_along_axis], xarray *)
| KeyError         (* a label that is not in an index *)
| AxisError        (* np.apply_along_axis: axis out of bounds *)
| RankError.       (* the 1-D code applied to an array that is not 1-D: numpy
                      raises IndexError, ValueError or TypeError depending on
                      the shapes; the class is not modelled *)

Inductive event : Type :=
| EvArgsort          (* np.argsort *)
| EvTake             (* fancy indexing  a[sorter] *)
| EvCumsum           (* np.cumsum *)
| EvSum              (* np.sum *)
| EvInterp           (* np.interp *)
| EvApplyAlongAxis   (* np.apply_along_axis *)
| EvEstimator1D      (* entry of weighted_quantile_1d *)
| EvEstimatorND      (* entry of weighted_quantile *)
| EvGetAxisNum       (* DataArray.get_axis_num *)
| EvLoc.             (* label lookup  sample_weight.loc[...] *)

Inductive result (A : Type) : Type :=
| Ok (a : A)
| Raise (e : error).
Arguments Raise {A} e.

(** A computation yields the trace of the primitives it called, in call
    order, and either a value or the exception that stopped it. *)
Definition M (A : Type) : Type := (list event * result A)%type.

Definition ret {A} (a : A) : M A := ([], Ok a).
Definition raise {A} (e : error) : M A := ([], Raise e).
Definition emit (ev : event) : M unit := ([ev], Ok tt).

Definition bind {A B} (m : M A) (f : A -> M B) : M B :=
  match m with
  | (t, Raise e) => (t, Raise e)
  | (t, Ok a) => let (t', r) := f a in (t ++ t', r)
  end.

Notation "x <- m ;; k" := (bind m (fun x => k))
  (at level 61, m at next level, right associativity).
Notation "m ;;; k" := (bind m (fun _ => k))
  (at level 61, right associativity).

Definition trace_of {A} (m : M A) : list event := fst m.
Definition outcome {A} (m : M A) : result A := snd m.

Fixpoint mapM {A B} (f : A -> M B) (l : list A) : M (list B) :=
  match l with
  | [] => ret []
  | a :: l' => b <- f a ;; bs <- mapM f l' ;; ret (b :: bs)
  end.

Definition event_eqb (a b : event) : bool :=
  match a, b with
  | EvArgsort, EvArgsort | EvTake, EvTake | EvCumsum, EvCumsum
  | EvSum, EvSum | EvInterp, EvInterp | EvApplyAlongAxis, EvApplyAlongAxis
  | EvEstimator1D, EvEstimator1D | EvEstimatorND, EvEstimatorND
  | EvGetAxisNum, EvGetAxisNum | EvLoc, EvLoc => true
  | _, _ => false
  end.

Definition occurs (ev : event) (t : list event) : bool :=
  existsb (event_eqb ev) t.

(* ================================================================= *)
(** ** numpy primitives *)

Module Np.

(** [np.ones(n)] *)
Definition ones (n : nat) : list fnum := repeat F1 n.

(** [np.all(a >= lo) and np.all(a <= hi)] *)
Definition all_ge (lo : fnum) (a : list fnum) : bool :=
  forallb (fun x => fge x lo) a.
Definition all_le (hi : fnum) (a : list fnum) : bool :=
  forallb (fun x => fle x hi) a.

(** *** [np.argsort]

    The ordering of doubles used by numpy's sorts puts NaN last:
    [a < b || (b != b && a == a)].  The sort itself is the insertion sort
    of numpy's portable [kind='quicksort'] for arrays (and partitions) of
    at most 16 elements: the index [vi] of each element in turn is moved
    left past the indices of strictly greater elements.  It is a stable
    ascending sort: equal values keep their input order.  numpy promises
    no order among equal values: on longer arrays, and on builds that
    dispatch to a vectorised sort, equal values may be listed in another
    order; the order of distinct values is the same.  The prefix already
    sorted is kept reversed, so that the scan from its right end is a scan
    from the head. *)
Definition npy_lt (a b : fnum) : bool :=
  flt a b || (fisnan b && negb (fisnan a)).

Fixpoint shift_insert (v : list fnum) (vi : nat) (rev_prefix : list nat)
  : list nat :=
  match rev_prefix with
  | [] => [vi]
  | k :: rest =>
      if npy_lt (nth vi v NaN) (nth k v NaN)
      then k :: shift_insert v vi rest
      else vi :: k :: rest
  end.

Definition argsort_indices (v : list fnum) : list nat :=
  rev (fold_left (fun acc vi => shift_insert v vi acc)
                 (seq 0 (length v)) []).

Definition argsort (v : list fnum) : M (list nat) :=
  emit EvArgsort ;;; ret (argsort_indices v).

(** *** Fancy indexing [a[idx]] with an array of non-negative indices:
    an index beyond the end raises [IndexError]. *)
Definition getitem (a : list fnum) (i : nat) : M fnum :=
  match nth_error a i with
  | Some x => ret x
  | None => raise IndexError
  end.

Definition take (a : list fnum) (idx : list nat) : M (list fnum) :=
  emit EvTake ;;; mapM (getitem a) idx.

(** [a[0]] and [a[-1]] *)
Definition first (a : list fnum) : M fnum := getitem a 0.
Definition last (a : list fnum) : M fnum := getitem a (length a - 1).

(** *** [np.cumsum] and [np.sum] *)
Fixpoint cumsum_from (acc : fnum) (a : list fnum) : list fnum :=
  match a with
  | [] => []
  | x :: a' => let acc' := fadd acc x in acc' :: cumsum_from acc' a'
  end.

Definition cumsum_list (a : list fnum) : list fnum :=
  match a with
  | [] => []
  | x :: a' => x :: cumsum_from x a'
  end.

Definition cumsum (a : list fnum) : M (list fnum) :=
  emit EvCumsum ;;; ret (cumsum_list a).

Definition sum_list (a : list fnum) : fnum := fold_left fadd a F0.

Definition sum (a : list fnum) : M fnum :=
  emit EvSum ;;; ret (sum_list a).

(** Elementwise arithmetic between arrays of one length, and between an
    array and a scalar. *)
Fixpoint zip_with (f : fnum -> fnum -> fnum) (a b : list fnum) : list fnum :=
  match a, b with
  | x :: a', y :: b' => f x y :: zip_with f a' b'
  | _, _ => []
  end.

Definition scale (c : fnum) (a : list fnum) : list fnum := map (fmul c) a.
Definition sub_scalar (a : list fnum) (c : fnum) : list fnum :=
  map (fun x => fsub x c) a.
Definition div_scalar (a : list fnum) (c : fnum) : list fnum :=
  map (fun x => fdiv x c) a.

(** *** [np.interp]

    After numpy's [arr_interp] and [binary_search_with_guess]
    (compiled_base.c), in the version that returns [fp[j]] at a query equal
    to [xp[j]] and retries from the right knot when the left one gives NaN;
    versions without these two steps compute the same values on finite
    knots.  [arr[i]] with [i : Z]. *)
Definition at_ (arr : list fnum) (i : Z) : fnum := nth (Z.to_nat i) arr NaN.

Definition LIKELY_IN_CACHE_SIZE : Z := 8.

(** [for (i = 1; i < len && key >= arr[i]; ++i);]  The argument [rest] is
    [arr[i:]]; the result is the final [i]. *)
Fixpoint linear_scan (key : fnum) (rest : list fnum) (i : Z) : Z :=
  match rest with
  | [] => i
  | a :: rest' => if fge key a then linear_scan key rest' (i + 1) else i
  end.

(** [while (imin < imax) { imid = imin + ((imax - imin) >> 1); ... }]
    Each turn shrinks [imax - imin], so [imax - imin] turns are enough
    ([bisect_fuel] below); the loop is run with that much fuel. *)
Fixpoint bisect (fuel : nat) (key : fnum) (arr : list fnum) (imin imax : Z)
  : Z :=
  match fuel with
  | O => imin
  | S fuel' =>
      if (imin <? imax)%Z then
        let imid := (imin + Z.shiftr (imax - imin) 1)%Z in
        if fge key (at_ arr imid)
        then bisect fuel' key arr (imid + 1) imax
        else bisect fuel' key arr imin imid
      else imin
  end.

Definition binary_search_with_guess (key : fnum) (arr : list fnum)
  (guess : Z) : Z :=
  let len := Z.of_nat (length arr) in
  if fgt key (at_ arr (len - 1)) then len
  else if flt key (at_ arr 0) then (-1)%Z
  else if (len <=? 4)%Z then (linear_scan key (tl arr) 1 - 1)%Z
  else
    let guess := if (guess >? len - 3)%Z then (len - 3)%Z else guess in
    let guess := if (guess <? 1)%Z then 1%Z else guess in
    let run imin imax :=
      (bisect (Z.to_nat (imax - imin)) key arr imin imax - 1)%Z in
    if flt key (at_ arr guess) then
      if flt key (at_ arr (guess - 1)) then
        let imax := (guess - 1)%Z in
        let imin :=
          if (guess >? LIKELY_IN_CACHE_SIZE)%Z
             && fge key (at_ arr (guess - LIKELY_IN_CACHE_SIZE))
          then (guess - LIKELY_IN_CACHE_SIZE)%Z else 0%Z in
        run imin imax
      else (guess - 1)%Z
    else if flt key (at_ arr (guess + 1)) then guess
    else if flt key (at_ arr (guess + 2)) then (guess + 1)%Z
    else
      let imin := (guess + 2)%Z in
      let imax :=
        if (guess <? len - LIKELY_IN_CACHE_SIZE - 1)%Z
           && flt key (at_ arr (guess + LIKELY_IN_CACHE_SIZE))
        then (guess + LIKELY_IN_CACHE_SIZE)%Z else len in
      run imin imax.

(** The body of the loop over the query points for [lenxp > 1]; [j0] is the
    index found for the previous point, the guess for this one. *)
Definition interp_point (dx dy : list fnum) (lval rval : fnum)
  (x_val : fnum) (j0 : Z) : fnum * Z :=
  if fisnan x_val then (x_val, j0)
  else
    let lenxp := Z.of_nat (length dx) in
    let j := binary_search_with_guess x_val dx j0 in
    let res :=
      if (j =? -1)%Z then lval
      else if (j =? lenxp)%Z then rval
      else if (j =? lenxp - 1)%Z then at_ dy j
      else if feqb (at_ dx j) x_val then at_ dy j
      else
        let slope := fdiv (fsub (at_ dy (j + 1)) (at_ dy j))
                          (fsub (at_ dx (j + 1)) (at_ dx j)) in
        let r := fadd (fmul slope (fsub x_val (at_ dx j))) (at_ dy j) in
        if fisnan r then
          let r' := fadd (fmul slope (fsub x_val (at_ dx (j + 1))))
                         (at_ dy (j + 1)) in
          if fisnan r' && feqb (at_ dy j) (at_ dy (j + 1))
          then at_ dy j else r'
        else r in
    (res, j).

Fixpoint interp_loop (dx dy : list fnum) (lval rval : fnum)
  (xs : list fnum) (j : Z) : list fnum :=
  match xs with
  | [] => []
  | x :: xs' =>
      let (r, j') := interp_point dx dy lval rval x j in
      r :: interp_loop dx dy lval rval xs' j'
  end.

(** The single-knot case of [arr_interp]. *)
Definition interp_single (xp_val fp_val lval rval x_val : fnum) : fnum :=
  if flt x_val xp_val then lval
  else if fgt x_val xp_val then rval
  else fp_val.

Definition interp_values (x xp fp : list fnum) : list fnum :=
  let lval := at_ fp 0 in
  let rval := at_ fp (Z.of_nat (length xp) - 1) in
  match xp with
  | [xp_val] => map (interp_single xp_val (at_ fp 0) lval rval) x
  | _ => interp_loop xp fp lval rval x 0
  end.

Definition interp (x xp fp : list fnum) : M (list fnum) :=
  emit EvInterp ;;;
  if (length xp =? 0)%nat then raise ValueError
       (* array of sample points is empty *)
  else if negb (length fp =? length xp)%nat then raise ValueError
       (* fp and xp are not of the same length *)
  else ret (interp_values x xp fp).

End Np.

(* ================================================================= *)
(** ** The 1-D estimator *)

(** [msg = 'quantiles should be in [0, 1]';
     assert np.all(quantiles >= 0) and np.all(quantiles <= 1), msg] *)
Definition assert_quantiles (quantiles : list fnum) : M unit :=
  if Np.all_ge F0 quantiles && Np.all_le F1 quantiles
  then ret tt else raise AssertionError.

(** [if not values_sorted: sorter = np.argsort(values);
     values = values[sorter]; sample_weight = sample_weight[sorter]] *)
Definition sort_jointly (values sample_weight : list fnum)
  (values_sorted : bool) : M (list fnum * list fnum) :=
  if negb values_sorted then
    sorter <- Np.argsort values ;;
    values' <- Np.take values sorter ;;
    sample_weight' <- Np.take sample_weight sorter ;;
    ret (values', sample_weight')
  else ret (values, sample_weight).

(** [weighted_quantiles = np.cumsum(sample_weight) - 0.5 * sample_weight]
    followed by the normalisation selected by [old_style]. *)
Definition weighted_positions (sample_weight : list fnum) (old_style : bool)
  : M (list fnum) :=
  c <- Np.cumsum sample_weight ;;
  let weighted_quantiles :=
    Np.zip_with fsub c (Np.scale Fhalf sample_weight) in
  if old_style then
    w0 <- Np.first weighted_quantiles ;;
    let weighted_quantiles := Np.sub_scalar weighted_quantiles w0 in
    wlast <- Np.last weighted_quantiles ;;
    ret (Np.div_scalar weighted_quantiles wlast)
  else
    total <- Np.sum sample_weight ;;
    ret (Np.div_scalar weighted_quantiles total).

Definition weighted_quantile_1d (values quantiles : list fnum)
  (sample_weight : option (list fnum)) (values_sorted old_style : bool)
  : M (list fnum) :=
  emit EvEstimator1D ;;;
  let sample_weight :=
    match sample_weight with
    | None => Np.ones (length values)
    | Some w => w
    end in
  assert_quantiles quantiles ;;;
  sorted <- sort_jointly values sample_weight values_sorted ;;
  let (values, sample_weight) := (sorted : list fnum * list fnum) in
  weighted_quantiles <- weighted_positions sample_weight old_style ;;
  Np.interp quantiles weighted_quantiles values.



(* ================================================================= *)
(** ** Dense N-D arrays and [np.apply_along_axis] *)

Module Nd.

(** A dense array in C (row-major) order. *)
Record ndarray : Type := mk_ndarray {
  shape : list nat;
  data : list fnum
}.

Definition size (s : list nat) : nat := fold_right Nat.mul 1 s.
Definition ndim (a : ndarray) : nat := length (shape a).
Definition wf (a : ndarray) : Prop := length (data a) = size (shape a).

(** Position of a multi-index in the flat data. *)
Fixpoint offset (s idx : list nat) : nat :=
  match s, idx with
  | _ :: s', i :: idx' => i * size s' + offset s' idx'
  | _, _ => 0
  end.

Definition get (a : ndarray) (idx : list nat) : fnum :=
  nth (offset (shape a) idx) (data a) NaN.

Definition in_range (s idx : list nat) : Prop := Forall2 lt idx s.

(** [np.ndindex(s)]: every multi-index of shape [s], last index fastest. *)
Fixpoint ndindex (s : list nat) : list (list nat) :=
  match s with
  | [] => [[]]
  | d :: s' => flat_map (fun i => map (cons i) (ndindex s')) (seq 0 d)
  end.

Definition of_list (l : list fnum) : ndarray :=
  {| shape := [length l]; data := l |}.

(** Multi-index without, and with, the entry of one axis. *)
Definition drop_axis (axis : nat) (idx : list nat) : list nat :=
  firstn axis idx ++ skipn (S axis) idx.
Definition put_axis (axis : nat) (ind : list nat) (k : nat) : list nat :=
  firstn axis ind ++ [k] ++ skipn axis ind.

(** The 1-D slice [inarr_view[ind]] of [arr] along [axis], where
    [inarr_view] is [arr] with [axis] moved to the end. *)
Definition slice (arr : ndarray) (axis : nat) (ind : list nat) : list fnum :=
  map (fun k => get arr (put_axis axis ind k))
      (seq 0 (nth axis (shape arr) 0)).

(** [normalize_axis_index(axis, nd)]: an axis in [-nd, nd), counted from the
    end when negative. *)
Definition normalize_axis_index (axis : Z) (nd : nat) : M nat :=
  if ((- Z.of_nat nd <=? axis) && (axis <? Z.of_nat nd))%Z
  then ret (Z.to_nat (if (axis <? 0)%Z then axis + Z.of_nat nd else axis))
  else raise AxisError.

(** [np.apply_along_axis(func1d, axis, arr, ...)] after
    numpy/lib/shape_base.py: [func1d] runs on the slice of each index of
    the iteration axes in [ndindex] order, the first result fixes the shape
    of the buffer [buff] (iteration axes first, result axis last), and the
    output is [buff] with the result axis moved back to [axis].  A later
    result of another length cannot be stored in the buffer as it is (numpy
    would broadcast it or raise); the estimator returns [len(quantiles)]
    entries for every slice, so this does not arise. *)
Definition apply_along_axis (func1d : list fnum -> M (list fnum))
  (axis : Z) (arr : ndarray) : M ndarray :=
  emit EvApplyAlongAxis ;;;
  axis <- normalize_axis_index axis (ndim arr) ;;
  let iter_shape := drop_axis axis (shape arr) in
  match ndindex iter_shape with
  | [] => raise ValueError
      (* Cannot apply_along_axis when any iteration dimensions are 0 *)
  | ind0 :: inds =>
      res <- func1d (slice arr axis ind0) ;;
      let m := length res in
      rest <- mapM (fun ind =>
                      r <- func1d (slice arr axis ind) ;;
                      if (length r =? m)%nat then ret r
                      else raise ValueError) inds ;;
      let buff := {| shape := iter_shape ++ [m];
                     data := concat (res :: rest) |} in
      let out_shape := put_axis axis iter_shape m in
      ret {| shape := out_shape;
             data := map (fun idx =>
                            get buff (drop_axis axis idx
                                      ++ [nth axis idx 0%nat]))
                         (ndindex out_shape) |}
  end.

End Nd.
Export Nd.

(* ================================================================= *)
(** ** The N-D estimator *)

(** [if len(values.shape) > 1 and axis is not None: apply_along_axis(...)
     else: weighted_quantile_1d(values, ...)].  In the second branch an
    array that is not 1-D makes numpy raise inside the 1-D code
    ([RankError]). *)
Definition weighted_quantile (values : ndarray) (quantiles : list fnum)
  (sample_weight : option (list fnum)) (values_sorted old_style : bool)
  (axis : option Z) : M ndarray :=
  emit EvEstimatorND ;;;
  match (1 <? ndim values)%nat, axis with
  | true, Some axis =>
      Nd.apply_along_axis
        (fun slice => weighted_quantile_1d slice quantiles sample_weight
                                           values_sorted old_style)
        axis values
  | _, _ =>
      match shape values with
      | [_] =>
          r <- weighted_quantile_1d (data values) quantiles sample_weight
                                    values_sorted old_style ;;
          ret (Nd.of_list r)
      | _ => emit EvEstimator1D ;;; raise RankError
      end
  end.

(* ================================================================= *)
(** ** Labelled arrays *)

Module Xr.

(** A coordinate label: a name or a number. *)
Inductive label : Type :=
| LStr (s : string)
| LNum (x : fnum).

(** Labels are looked up by value.  Numbers are compared as numbers, except
    that the label NaN finds the entry labelled NaN ([pandas] matches
    missing values in an index with each other). *)
Definition label_eqb (a b : label) : bool :=
  match a, b with
  | LStr s, LStr t => String.eqb s t
  | LNum x, LNum y => feqb x y || (fisnan x && fisnan y)
  | _, _ => false
  end.

(** [xarray.DataArray]: named dimensions, coordinate labels per dimension
    name (insertion-ordered dictionary) and the values. *)
Record DataArray : Type := mk_DataArray {
  dims : list string;
  coords : list (string * list label);
  values : ndarray
}.

(** A label-indexed weight vector (a [pandas.Series]; a 1-D [DataArray]
    whose labels are unique is looked up alike): index labels paired with
    weights, in index order. *)
Definition Series : Type := list (label * fnum).

Fixpoint index_of (name : string) (l : list string) : option nat :=
  match l with
  | [] => None
  | x :: l' => if String.eqb x name then Some 0%nat
               else option_map S (index_of name l')
  end.

(** [data.get_axis_num(dim)]: [ValueError] when [dim] is not a dimension. *)
Definition get_axis_num (da : DataArray) (dim : string) : M nat :=
  emit EvGetAxisNum ;;;
  match index_of dim (dims da) with
  | Some axis => ret axis
  | None => raise ValueError
  end.

Fixpoint dict_get {V} (d : list (string * V)) (key : string) : option V :=
  match d with
  | [] => None
  | (k, v) :: d' => if String.eqb k key then Some v else dict_get d' key
  end.

(** [d.update({key: v})] *)
Fixpoint dict_update {V} (d : list (string * V)) (key : string) (v : V)
  : list (string * V) :=
  match d with
  | [] => [(key, v)]
  | (k, v') :: d' => if String.eqb k key then (k, v) :: d'
                     else (k, v') :: dict_update d' key v
  end.

(** [data.coords[name]]: the stored coordinate; for a dimension without
    coordinate, the default index [0 .. n-1] of that dimension; [KeyError]
    for any other name. *)
Definition coordinate_labels (da : DataArray) (name : string)
  : option (list label) :=
  match dict_get (coords da) name with
  | Some c => Some c
  | None =>
      match index_of name (dims da) with
      | Some ax =>
          Some (map (fun i => LNum (Fin (inject_Z (Z.of_nat i))))
                    (seq 0 (nth ax (shape (values da)) 0)))
      | None => None
      end
  end.

Definition coords_getitem (da : DataArray) (name : string)
  : M (list label) :=
  match coordinate_labels da name with
  | Some c => ret c
  | None => raise KeyError
  end.

Fixpoint series_get (s : Series) (l : label) : option fnum :=
  match s with
  | [] => None
  | (k, w) :: s' => if label_eqb k l then Some w else series_get s' l
  end.

(** The rows of the mapping under a label, in index order; [series_get]
    above is the first of them. *)
Definition series_rows (s : Series) (l : label) : list fnum :=
  map snd (filter (fun e : label * fnum => label_eqb (fst e) l) s).

(** [sample_weight.loc[labels].values]: for each label in turn, the weights
    of every row of the mapping under that label (one row when the index
    labels are unique, several when a label is repeated in the index); a
    label without row raises [KeyError]. *)
Definition loc (s : Series) (labels : list label) : M (list fnum) :=
  emit EvLoc ;;;
  rows <- mapM (fun l => match series_rows s l with
                         | [] => raise KeyError
                         | r => ret r
                         end) labels ;;
  ret (concat rows).

(** [xr.DataArray(values, dims=dims, coords=coords)]: one name per axis, and
    every coordinate of a dimension as long as that dimension. *)
Definition coords_fit (dims : list string) (shp : list nat)
  (coords : list (string * list label)) : bool :=
  forallb (fun c : string * list label =>
             match index_of (fst c) dims with
             | Some ax => (length (snd c) =? nth ax shp 0)%nat
             | None => false
             end) coords.

Definition new_DataArray (v : ndarray) (dims : list string)
  (coords : list (string * list label)) : M DataArray :=
  if (length dims =? ndim v)%nat && coords_fit dims (shape v) coords
  then ret {| dims := dims; coords := coords; values := v |}
  else raise ValueError.

End Xr.
Export Xr.

Definition weighted_quantile_xr (data : DataArray) (quantiles : list fnum)
  (sample_weight : Series) (dim : string) (values_sorted : bool)
  : M DataArray :=
  axis <- Xr.get_axis_num data dim ;;
  let dims := firstn axis (Xr.dims data) ++ ["quantile"%string]
              ++ skipn (S axis) (Xr.dims data) in
  coords <- mapM (fun coord =>
                    c <- Xr.coords_getitem data coord ;; ret (coord, c))
                 (filter (fun coord => existsb (String.eqb coord) dims)
                         (Xr.dims data)) ;;
  let coords := Xr.dict_update coords "quantile" (map LNum quantiles) in
  labels <- Xr.coords_getitem data dim ;;
  weights <- Xr.loc sample_weight labels ;;
  data_dist <- weighted_quantile (Xr.values data) quantiles (Some weights)
                                 values_sorted false (Some (Z.of_nat axis)) ;;
  Xr.new_DataArray data_dist dims coords.

(** Literals for examples. *)
Definition fz (z : Z) : fnum := Fin (inject_Z z).
Definition fq (n : Z) (d : positive) : fnum := Fin (n # d)%Q.


(* ================================================================= *)
(** * Vocabulary of the statements *)

(** ** The stages of the 1-D estimator as pure functions *)

(** What [values[sorter]] and [sample_weight[sorter]] hold when the
    indexing succeeds. *)
Definition sorted_values (v : list fnum) : list fnum :=
  map (fun i => nth i v NaN) (Np.argsort_indices v).
Definition sorted_weights (v w : list fnum) : list fnum :=
  map (fun i => nth i w NaN) (Np.argsort_indices v).

(** [np.cumsum(w) - 0.5 * w] and its two normalisations. *)
Definition raw_positions (w : list fnum) : list fnum :=
  Np.zip_with fsub (Np.cumsum_list w) (Np.scale Fhalf w).

Definition positions (w : list fnum) (old_style : bool) : list fnum :=
  let raw := raw_positions w in
  if old_style then
    let shifted := Np.sub_scalar raw (nth 0 raw NaN) in
    Np.div_scalar shifted (nth (length shifted - 1) shifted NaN)
  else Np.div_scalar raw (Np.sum_list w).

Definition in_unit_interval (q : list fnum) : Prop :=
  Forall (fun x => fge x F0 = true /\ fle x F1 = true) q.

(** The weights in force: the given ones, or [np.ones(len(values))]. *)
Definition weights_or_ones (v : list fnum) (sw : option (list fnum))
  : list fnum :=
  match sw with
  | None => Np.ones (length v)
  | Some w => w
  end.

(** Two result arrays hold the same numbers. *)
Definition same_numbers (a b : list fnum) : Prop := Forall2 feq a b.

(** ** Finite numbers

    The statements about numeric results take finite input, given as lists
    of rationals and injected with [map Fin]. *)

Section Vocabulary.
Local Open Scope Q_scope.


(** Sum of a list of rationals. *)
Definition Qsum (l : list Q) : Q := fold_right Qplus 0 l.

(** The sorted values and weights of finite input, as rationals. *)
Definition sorted_qvalues (v : list Q) : list Q :=
  map (fun i => nth i v 0%Q) (Np.argsort_indices (map Fin v)).
Definition sorted_qweights (v w : list Q) : list Q :=
  map (fun i => nth i w 0%Q) (Np.argsort_indices (map Fin v)).

Definition unit_quantiles (q : list Q) : Prop :=
  Forall (fun x => 0 <= x <= 1) q.

(** [xp[i]] for a list of rationals and an index of type [Z]. *)
Definition qat (xp : list Q) (i : Z) : Q := nth (Z.to_nat i) xp 0.

Definition nondecreasing (xp : list Q) : Prop :=
  forall i j : nat, (i <= j < length xp)%nat -> nth i xp 0 <= nth j xp 0.

(** Where a query point lies among the knots: left of all of them
    ([-1]), right of all of them ([len]), or in the half-open segment that
    starts at knot [j] (the last knot closes its own segment). *)
Definition located (xp : list Q) (x : Q) (j : Z) : Prop :=
  let n := Z.of_nat (length xp) in
  (j = (-1)%Z /\ x < qat xp 0) \/
  (j = n /\ qat xp (n - 1) < x) \/
  ((0 <= j < n)%Z /\ qat xp j <= x /\ (j = (n - 1)%Z \/ x < qat xp (j + 1))).

(** The piecewise-linear curve through the knots [(xp[j], fp[j])], clamped
    to the first and to the last value outside the knots.  On tied knots
    the segment that starts at the last of them is the one in force. *)
Definition interp_spec (xp fp : list Q) (x y : Q) : Prop :=
  let n := length xp in
  (x < nth 0 xp 0 /\ y == nth 0 fp 0) \/
  (nth (n - 1) xp 0 <= x /\ y == nth (n - 1) fp 0) \/
  (exists j : nat,
      (S j < n)%nat /\ nth j xp 0 <= x /\ x < nth (S j) xp 0 /\
      y == nth j fp 0
           + (nth (S j) fp 0 - nth j fp 0) / (nth (S j) xp 0 - nth j xp 0)
             * (x - nth j xp 0)).

(** The value at position [i]. *)
Definition key (v : list Q) (i : nat) : Q := nth i v 0.

(** Order of the positions by value, ties by position: the order in which a
    stable ascending sort lists them. *)
Definition lex_lt (v : list Q) (a b : nat) : Prop :=
  key v a < key v b \/ (key v a == key v b /\ (a < b)%nat).

Definition descending (v : list Q) (acc : list nat) : Prop :=
  StronglySorted (fun a b => lex_lt v b a) acc.

(** [np.cumsum(w) - 0.5 * w] on rationals, with the running sum [acc]. *)
Fixpoint qraw_from (acc : Q) (w : list Q) : list Q :=
  match w with
  | [] => []
  | x :: w' => (acc + x + - ((1 # 2) * x)) :: qraw_from (acc + x) w'
  end.

Definition qraw (w : list Q) : list Q :=
  match w with
  | [] => []
  | x :: w' => (x + - ((1 # 2) * x)) :: qraw_from x w'
  end.

Definition qtotal (w : list Q) : Q := fold_left Qplus w 0.

Definition qpositions (w : list Q) : list Q :=
  map (fun p => p / qtotal w) (qraw w).

(** [weighted_quantiles -= weighted_quantiles[0];
     weighted_quantiles /= weighted_quantiles[-1]] on rationals. *)
Definition qshifted (w : list Q) : list Q :=
  map (fun p => p + - nth 0 (qraw w) 0) (qraw w).

Definition qpositions_old (w : list Q) : list Q :=
  map (fun p => p / nth (length w - 1) (qshifted w) 0) (qshifted w).

(** [y] is the largest (smallest) of the values [v]. *)
Definition is_maximum (v : list Q) (y : Q) : Prop :=
  (exists m, In m v /\ y == m) /\ Forall (fun x => x <= y) v.
Definition is_minimum (v : list Q) (y : Q) : Prop :=
  (exists m, In m v /\ y == m) /\ Forall (fun x => y <= x) v.

(** Number of zero weights before the first non-zero weight. *)
Fixpoint leading_zeros (w : list Q) : nat :=
  match w with
  | [] => 0
  | x :: w' => if Qeq_bool x 0 then S (leading_zeros w') else 0
  end.

(** The classic unweighted percentile with linear interpolation, as the
    specification words it: the fractional index [h = q * (n - 1)] into the
    ascending values, interpolated between the entries at [floor h] and
    [floor h + 1] (clipped to the last entry). *)
Definition percentile_linear (ascending : list Q) (q : Q) : Q :=
  let n := length ascending in
  let h := q * inject_Z (Z.of_nat (n - 1)) in
  let lo := Z.to_nat (Qfloor h) in
  let hi := Nat.min (S lo) (n - 1) in
  let frac := h - inject_Z (Qfloor h) in
  nth lo ascending 0 + frac * (nth hi ascending 0 - nth lo ascending 0).

Definition le_fst (p p' : Q * Q) : Prop := fst p <= fst p'.

(** The observations (value, weight) in the order the estimator puts them. *)
Definition sorted_pairs (v w : list Q) : list (Q * Q) :=
  map (fun i => (nth i v 0, nth i w 0)) (Np.argsort_indices (map Fin v)).

Definition ties_identical (v w : list Q) : Prop :=
  forall p p', In p (combine v w) -> In p' (combine v w) ->
               fst p == fst p' -> p = p'.

(** Knots [(xp, fp)] and the knots [(xp', fp')] obtained by replacing knot
    [k] with two knots of the same value at distance [d] on either side of
    it, every other knot staying at a distance of at least [2 d]. *)
Record split_knots (xp fp xp' fp' : list Q) (k : nat) (d : Q) : Prop := {
  len_xp' : length xp' = S (length xp);
  k_bound : (k < length xp)%nat;
  d_nonneg : 0 <= d;
  xp_sorted : nondecreasing xp;
  before : forall j, (j < k)%nat ->
      nth j xp' 0 == nth j xp 0 /\ nth j fp' 0 == nth j fp 0;
  left_half : nth k xp' 0 == nth k xp 0 - d /\ nth k fp' 0 == nth k fp 0;
  right_half :
    nth (S k) xp' 0 == nth k xp 0 + d /\ nth (S k) fp' 0 == nth k fp 0;
  after : forall j, (k < j < length xp)%nat ->
      nth (S j) xp' 0 == nth j xp 0 /\ nth (S j) fp' 0 == nth j fp 0;
  gap_before : forall j, (j < k)%nat -> nth j xp 0 + 2 * d <= nth k xp 0;
  gap_after : forall j, (k < j < length xp)%nat ->
      nth k xp 0 + 2 * d <= nth j xp 0
}.

(** The query point is not strictly between the neighbours of knot [k]. *)
Definition clear_of_split (xp : list Q) (k : nat) (x : Q) : Prop :=
  (exists j, (j < k)%nat /\ x <= nth j xp 0) \/
  (exists j, (k < j < length xp)%nat /\ nth j xp 0 <= x).

(** Position, after the observation at position [length v1] has been split
    in two, of the observation that was at position [i]; the second half
    of the split observation is at [S (length v1)]. *)
Definition shift_index (v1 : list Q) (i : nat) : nat :=
  if (i <=? length v1)%nat then i else S i.

End Vocabulary.

(** ** Slices of N-D arrays *)

(** The 1-D estimator on the slice of [arr] along [axis] at the index [ind]
    of the other axes. *)
Definition estimate_slice (q : list fnum) (sw : option (list fnum))
  (values_sorted old_style : bool) (arr : ndarray) (axis : nat)
  (ind : list nat) : result (list fnum) :=
  outcome (weighted_quantile_1d (Nd.slice arr axis ind) q sw
                                values_sorted old_style).

Definition normal_axis (axis : Z) (nd : nat) : nat :=
  Z.to_nat (if (axis <? 0)%Z then axis + Z.of_nat nd else axis).

(** What "the N-D estimator batches the 1-D estimator" says of one call:
    - if the 1-D estimator succeeds on every slice along the axis, the N-D
      estimator returns the array whose shape is the input shape with the
      axis replaced by [len(quantiles)] and whose entry at each index is
      the estimate, at the axis position of the index, of the slice through
      the other positions of the index, weights and quantiles being the
      same for all slices;
    - if the 1-D estimator raises on a slice, the N-D estimator raises the
      error of the first such slice in iteration order;
    - a 1-D array is handed to the 1-D estimator as it is. *)
Definition batches_slices (arr : ndarray) (q : list fnum)
  (sw : option (list fnum)) (values_sorted old_style : bool) (axis : Z)
  : Prop :=
  let ax := normal_axis axis (Nd.ndim arr) in
  let inds := Nd.ndindex (Nd.drop_axis ax (Nd.shape arr)) in
  let est := estimate_slice q sw values_sorted old_style arr ax in
  let call :=
    outcome (weighted_quantile arr q sw values_sorted old_style (Some axis)) in
  ((forall ind, In ind inds -> exists r, est ind = Ok r) ->
   exists out,
     call = Ok out /\
     Nd.shape out
     = firstn ax (Nd.shape arr) ++ length q :: skipn (S ax) (Nd.shape arr) /\
     forall idx r,
       Nd.in_range (Nd.shape out) idx ->
       est (Nd.drop_axis ax idx) = Ok r ->
       Nd.get out idx = nth (nth ax idx 0) r NaN) /\
  (forall pre ind post e,
     inds = pre ++ ind :: post ->
     (forall i, In i pre -> exists r, est i = Ok r) ->
     est ind = Raise e ->
     call = Raise e) /\
  (forall (l : list fnum) (axis' : option Z),
     outcome (weighted_quantile (Nd.of_list l) q sw values_sorted old_style
                                axis')
     = match outcome (weighted_quantile_1d l q sw values_sorted old_style)
       with
       | Ok r => Ok (Nd.of_list r)
       | Raise e => Raise e
       end).

(** ** The two normalisations side by side *)

Section Normalisations.
Local Open Scope Q_scope.

(** What the positions are divided by: [np.sum(sample_weight)], or, with
    [old_style], [weighted_quantiles[-1]] after the shift by
    [weighted_quantiles[0]]. *)
Definition normaliser (old_style : bool) (w : list Q) : Q :=
  if old_style then nth (length w - 1) (qshifted w) 0 else Qsum w.

(** The normalised positions of the (sorted) weights [w]. *)
Definition knots (old_style : bool) (w : list Q) : list Q :=
  if old_style then qpositions_old w else qpositions w.

(** Strictly ascending numbers. *)
Definition increasing (xp : list Q) : Prop :=
  forall i j : nat, (i < j < length xp)%nat -> nth i xp 0 < nth j xp 0.

End Normalisations.

(** ** Input on which sums are exact and the tie order is immaterial *)

Section ExactInput.
Local Open Scope Q_scope.

(** [x] is a whole number. *)
Definition whole (x : Q) : Prop := x == inject_Z (Qfloor x).

(** Weights that are counts: non-negative whole numbers of total at most
    [2^40].  Sums and differences of such weights and of their halves are
    exact in binary64, and two different quotients of such sums are
    different doubles. *)
Definition counts (w : list Q) : Prop :=
  Forall (fun x => 0 <= x /\ whole x) w /\ Qsum w <= inject_Z (2 ^ 40).

(** Values of magnitude at most [10^100]: no difference or slope that the
    interpolation forms from them and from the knots of [counts] comes near
    the largest double. *)
Definition moderate (v : list Q) : Prop :=
  Forall (fun x => - inject_Z (10 ^ 100) <= x <= inject_Z (10 ^ 100)) v.

End ExactInput.

(** ** Weight mappings *)

(** No two entries of the weight mapping have the same label (labels are
    compared as the lookup compares them). *)
Definition unique_labels (s : Series) : Prop :=
  forall p p', In p s -> In p' s ->
               Xr.label_eqb (fst p) (fst p') = true -> p = p'.

(** [sample_weight.index.is_unique]: no label occurs twice in the index. *)
Fixpoint unique_index (s : Series) : bool :=
  match s with
  | [] => true
  | e :: s' =>
      negb (existsb (fun e' => Xr.label_eqb (fst e') (fst e)) s')
      && unique_index s'
  end.

(** ** Slices of finite arrays *)

(** The numbers of the slice of the flat data [d] of an array of shape [s]
    along [axis], at the index [ind] of the other axes. *)
Definition qslice (s : list nat) (d : list Q) (axis : nat) (ind : list nat)
  : list Q :=
  map (fun k => nth (Nd.offset s (Nd.put_axis axis ind k)) d 0%Q)
      (seq 0 (nth axis s 0)).

(* ================================================================= *)
(** * Properties *)

(** ** The embedding on small inputs *)

Example argsort_is_stable :
  Np.argsort_indices [fz 3; fz 1; fz 2; fz 1; NaN; fz 0] = [5; 1; 3; 2; 0; 4].
Proof. reflexivity. Qed.

Example interp_between_knots :
  exists r,
    Np.interp [fq 1 2; fz (-1); fz 9] [fz 0; fz 1; fz 2] [fz 10; fz 20; fz 40]
    = ([EvInterp], Ok r) /\ same_numbers r [fz 15; fz 10; fz 40].
Proof.
  eexists. split; [vm_compute; reflexivity | repeat constructor].
Qed.

Example out_of_range_quantile_is_refused :
  weighted_quantile_1d [fz 1; fz 2] [fq (-1) 10] None false false
  = ([EvEstimator1D], Raise AssertionError).
Proof. reflexivity. Qed.

Example uniform_weights_median :
  exists r,
    outcome (weighted_quantile_1d [fz 1; fz 2; fz 3; fz 4; fz 5]
               [fz 0; fq 1 2; fz 1] (Some (Np.ones 5)) false false) = Ok r /\
    same_numbers r [fz 1; fz 3; fz 5].
Proof.
  eexists. split; [vm_compute; reflexivity | repeat constructor].
Qed.

Example percentile_of_four_values :
  (percentile_linear [1; 2; 3; 5] (1 # 2) == 5 # 2)%Q.
Proof. reflexivity. Qed.

(** ** The monad *)

Lemma bind_ret_l {A B} (a : A) (f : A -> M B) : bind (ret a) f = f a.
Proof. unfold bind, ret. destruct (f a); reflexivity. Qed.

Lemma bind_raise {A B} (e : error) (f : A -> M B) : bind (raise e) f = raise e.
Proof. reflexivity. Qed.

Lemma outcome_bind {A B} (m : M A) (f : A -> M B) :
  outcome (bind m f) =
  match outcome m with
  | Ok a => outcome (f a)
  | Raise e => Raise e
  end.
Proof.
  destruct m as [t [a | e]]; simpl; [destruct (f a) | ]; reflexivity.
Qed.

Lemma trace_bind {A B} (m : M A) (f : A -> M B) :
  trace_of (bind m f) =
  match outcome m with
  | Ok a => trace_of m ++ trace_of (f a)
  | Raise e => trace_of m
  end.
Proof.
  destruct m as [t [a | e]]; simpl; [destruct (f a) | ]; reflexivity.
Qed.

Lemma bind_emit {B} (ev : event) (k : M B) :
  bind (emit ev) (fun _ => k) = (ev :: trace_of k, outcome k).
Proof. destruct k; reflexivity. Qed.

Lemma bind_pure {A B} (a : A) (t : list event) (f : A -> M B) :
  bind (t, Ok a) f = (t ++ trace_of (f a), outcome (f a)).
Proof. simpl. destruct (f a); reflexivity. Qed.

Lemma occurs_app (ev : event) (t u : list event) :
  occurs ev (t ++ u) = occurs ev t || occurs ev u.
Proof. apply existsb_app. Qed.

(** ** Fancy indexing *)

Lemma mapM_getitem_ok (a : list fnum) (idx : list nat) :
  Forall (fun i => i < length a) idx ->
  mapM (Np.getitem a) idx = ret (map (fun i => nth i a NaN) idx).
Proof.
  induction 1 as [| i idx Hi _ IH]; simpl; [reflexivity | ].
  unfold Np.getitem at 1.
  destruct (nth_error a i) as [x | ] eqn:E.
  - rewrite bind_ret_l, IH, bind_ret_l.
    now rewrite (nth_error_nth _ _ NaN E).
  - apply nth_error_None in E. lia.
Qed.

Lemma mapM_getitem_fail (a : list fnum) (idx : list nat) :
  Exists (fun i => length a <= i) idx ->
  mapM (Np.getitem a) idx = raise IndexError.
Proof.
  induction idx as [| i idx IH]; intros H; [inversion H | ]; simpl.
  unfold Np.getitem at 1.
  destruct (nth_error a i) as [x | ] eqn:E; [ | reflexivity].
  rewrite bind_ret_l.
  inversion H as [? ? Hi | ? ? Hex]; subst.
  - apply nth_error_None in Hi. congruence.
  - now rewrite (IH Hex).
Qed.

Lemma take_ok (a : list fnum) (idx : list nat) :
  Forall (fun i => i < length a) idx ->
  Np.take a idx = ([EvTake], Ok (map (fun i => nth i a NaN) idx)).
Proof. intros H. unfold Np.take. now rewrite bind_emit, mapM_getitem_ok. Qed.

Lemma take_fail (a : list fnum) (idx : list nat) :
  Exists (fun i => length a <= i) idx ->
  Np.take a idx = ([EvTake], Raise IndexError).
Proof. intros H. unfold Np.take. now rewrite bind_emit, mapM_getitem_fail. Qed.

(** ** [argsort] returns a permutation of the positions *)

Lemma shift_insert_perm (v : list fnum) (vi : nat) (acc : list nat) :
  Permutation (Np.shift_insert v vi acc) (vi :: acc).
Proof.
  induction acc as [| k acc IH]; simpl; [reflexivity | ].
  destruct (Np.npy_lt _ _); [ | reflexivity].
  rewrite IH. apply perm_swap.
Qed.

Lemma insert_all_perm (v : list fnum) (l acc : list nat) :
  Permutation (fold_left (fun acc vi => Np.shift_insert v vi acc) l acc)
              (l ++ acc).
Proof.
  revert acc. induction l as [| i l IH]; intros acc; simpl; [reflexivity | ].
  rewrite IH, shift_insert_perm. symmetry. apply Permutation_middle.
Qed.

Lemma argsort_perm (v : list fnum) :
  Permutation (Np.argsort_indices v) (seq 0 (length v)).
Proof.
  unfold Np.argsort_indices.
  rewrite <- Permutation_rev, insert_all_perm. now rewrite app_nil_r.
Qed.

Lemma argsort_length (v : list fnum) :
  length (Np.argsort_indices v) = length v.
Proof. now rewrite (Permutation_length (argsort_perm v)), length_seq. Qed.

Lemma argsort_bound (v : list fnum) :
  Forall (fun i => i < length v) (Np.argsort_indices v).
Proof.
  apply Forall_forall. intros i Hi.
  apply (Permutation_in _ (argsort_perm v)), in_seq in Hi. lia.
Qed.

Lemma argsort_hits_last (v : list fnum) :
  v <> [] -> In (length v - 1) (Np.argsort_indices v).
Proof.
  intros Hv. apply (Permutation_in _ (Permutation_sym (argsort_perm v))).
  apply in_seq. destruct v; [congruence | simpl; lia].
Qed.

(** ** The stages of the 1-D estimator as pure functions *)


Lemma cumsum_from_length (acc : fnum) (a : list fnum) :
  length (Np.cumsum_from acc a) = length a.
Proof. revert acc; induction a; simpl; intros; [ | rewrite IHa]; reflexivity. Qed.

Lemma cumsum_length (a : list fnum) : length (Np.cumsum_list a) = length a.
Proof. destruct a; simpl; [ | rewrite cumsum_from_length]; reflexivity. Qed.

Lemma zip_with_length (f : fnum -> fnum -> fnum) (a b : list fnum) :
  length (Np.zip_with f a b) = Nat.min (length a) (length b).
Proof.
  revert b; induction a; destruct b; simpl; try reflexivity.
  now rewrite IHa.
Qed.

Lemma raw_positions_length (w : list fnum) :
  length (raw_positions w) = length w.
Proof.
  unfold raw_positions, Np.scale.
  rewrite zip_with_length, cumsum_length, length_map. lia.
Qed.

Lemma positions_length (w : list fnum) (old_style : bool) :
  length (positions w old_style) = length w.
Proof.
  unfold positions, Np.div_scalar, Np.sub_scalar.
  destruct old_style; rewrite ?length_map; apply raw_positions_length.
Qed.

Lemma sorted_values_length (v : list fnum) :
  length (sorted_values v) = length v.
Proof. unfold sorted_values. now rewrite length_map, argsort_length. Qed.

Lemma sorted_weights_length (v w : list fnum) :
  length (sorted_weights v w) = length v.
Proof. unfold sorted_weights. now rewrite length_map, argsort_length. Qed.

Lemma getitem_ok (a : list fnum) (i : nat) :
  i < length a -> Np.getitem a i = ret (nth i a NaN).
Proof.
  intros H. unfold Np.getitem.
  destruct (nth_error a i) eqn:E.
  - now rewrite (nth_error_nth _ _ NaN E).
  - apply nth_error_None in E. lia.
Qed.

Lemma getitem_fail (a : list fnum) (i : nat) :
  length a <= i -> Np.getitem a i = raise IndexError.
Proof.
  intros H. unfold Np.getitem.
  now rewrite (proj2 (nth_error_None a i) H).
Qed.

(** The positions are computed without error on a non-empty weight array,
    whatever the weights are: a zero divisor raises nothing. *)
Lemma weighted_positions_ok (w : list fnum) (old_style : bool) :
  w <> [] ->
  weighted_positions w old_style =
  ((if old_style then [EvCumsum] else [EvCumsum; EvSum]),
   Ok (positions w old_style)).
Proof.
  intros Hw.
  assert (Hlen : 0 < length (raw_positions w)).
  { rewrite raw_positions_length. destruct w; [congruence | simpl; lia]. }
  unfold weighted_positions, Np.cumsum, positions.
  rewrite bind_emit. cbn [trace_of outcome ret fst snd].
  rewrite bind_pure. cbn [app].
  fold (raw_positions w).
  destruct old_style.
  - unfold Np.first, Np.last.
    rewrite (getitem_ok _ Hlen), bind_ret_l.
    rewrite getitem_ok, bind_ret_l; [reflexivity | ].
    unfold Np.sub_scalar. rewrite length_map. lia.
  - unfold Np.sum. rewrite bind_emit. cbn [trace_of outcome ret fst snd].
    rewrite bind_pure. reflexivity.
Qed.

Lemma weighted_positions_empty (old_style : bool) :
  weighted_positions [] old_style =
  if old_style then ([EvCumsum], Raise IndexError)
  else ([EvCumsum; EvSum], Ok []).
Proof. destruct old_style; reflexivity. Qed.

Lemma assert_quantiles_ok (q : list fnum) :
  in_unit_interval q -> assert_quantiles q = ret tt.
Proof.
  intros H. unfold assert_quantiles, Np.all_ge, Np.all_le.
  replace (forallb (fun x => fge x F0) q) with true.
  replace (forallb (fun x => fle x F1) q) with true. reflexivity.
  - symmetry. apply forallb_forall. intros x Hx.
    apply (proj1 (Forall_forall _ _) H x Hx).
  - symmetry. apply forallb_forall. intros x Hx.
    apply (proj1 (Forall_forall _ _) H x Hx).
Qed.

Lemma sort_jointly_ok (v w : list fnum) :
  length v <= length w ->
  sort_jointly v w false =
  ([EvArgsort; EvTake; EvTake], Ok (sorted_values v, sorted_weights v w)).
Proof.
  intros H. unfold sort_jointly, Np.argsort. cbn [negb].
  rewrite bind_emit. cbn [trace_of outcome ret fst snd].
  rewrite bind_pure.
  rewrite (take_ok _ (argsort_bound v)), bind_pure.
  rewrite take_ok, bind_pure; [reflexivity | ].
  eapply Forall_impl; [ | apply argsort_bound]. simpl. lia.
Qed.

Lemma sort_jointly_short (v w : list fnum) :
  length w < length v ->
  sort_jointly v w false = ([EvArgsort; EvTake; EvTake], Raise IndexError).
Proof.
  intros H. unfold sort_jointly, Np.argsort. cbn [negb].
  rewrite bind_emit. cbn [trace_of outcome ret fst snd].
  rewrite bind_pure.
  rewrite (take_ok _ (argsort_bound v)), bind_pure.
  rewrite take_fail; [reflexivity | ].
  apply Exists_exists. exists (length v - 1). split; [ | lia].
  apply argsort_hits_last. destruct v; [simpl in H; lia | congruence].
Qed.

Lemma interp_ok (x xp fp : list fnum) :
  xp <> [] -> length fp = length xp ->
  Np.interp x xp fp = ([EvInterp], Ok (Np.interp_values x xp fp)).
Proof.
  intros Hxp Hlen. unfold Np.interp. rewrite bind_emit.
  destruct xp; [congruence | ]. rewrite Hlen, Nat.eqb_refl. reflexivity.
Qed.

Lemma interp_mismatch (x xp fp : list fnum) :
  length fp <> length xp ->
  Np.interp x xp fp = ([EvInterp], Raise ValueError).
Proof.
  intros Hlen. unfold Np.interp. rewrite bind_emit.
  destruct (length xp =? 0) eqn:E0; [reflexivity | ].
  apply Nat.eqb_neq in Hlen. rewrite Hlen. reflexivity.
Qed.

(** The estimator on well-formed input: non-empty values, as many weights,
    quantiles in range.  No step raises, and the result is the
    interpolation of the quantiles against the normalised positions. *)

Lemma estimator_unsorted (v q : list fnum) (sw : option (list fnum))
  (old_style : bool) :
  v <> [] -> length (weights_or_ones v sw) = length v ->
  in_unit_interval q ->
  weighted_quantile_1d v q sw false old_style =
  (EvEstimator1D :: [EvArgsort; EvTake; EvTake] ++
     (if old_style then [EvCumsum] else [EvCumsum; EvSum]) ++ [EvInterp],
   Ok (Np.interp_values q
         (positions (sorted_weights v (weights_or_ones v sw)) old_style)
         (sorted_values v))).
Proof.
  intros Hv Hlen Hq. unfold weighted_quantile_1d.
  fold (weights_or_ones v sw).
  rewrite bind_emit, (assert_quantiles_ok Hq), bind_ret_l.
  rewrite sort_jointly_ok by lia. rewrite bind_pure.
  assert (Hsw : sorted_weights v (weights_or_ones v sw) <> []).
  { intros E. apply (f_equal (@length _)) in E.
    rewrite sorted_weights_length in E. destruct v; [congruence | discriminate]. }
  rewrite (weighted_positions_ok _ Hsw), bind_pure.
  rewrite interp_ok.
  - cbn [trace_of outcome fst snd]. reflexivity.
  - intros E. apply (f_equal (@length _)) in E.
    rewrite positions_length, sorted_weights_length in E.
    destruct v; [congruence | discriminate].
  - now rewrite positions_length, sorted_weights_length, sorted_values_length.
Qed.

Lemma estimator_presorted (v q : list fnum) (sw : option (list fnum))
  (old_style : bool) :
  v <> [] -> length (weights_or_ones v sw) = length v ->
  in_unit_interval q ->
  weighted_quantile_1d v q sw true old_style =
  (EvEstimator1D ::
     (if old_style then [EvCumsum] else [EvCumsum; EvSum]) ++ [EvInterp],
   Ok (Np.interp_values q (positions (weights_or_ones v sw) old_style) v)).
Proof.
  intros Hv Hlen Hq. unfold weighted_quantile_1d.
  fold (weights_or_ones v sw).
  rewrite bind_emit, (assert_quantiles_ok Hq), bind_ret_l.
  unfold sort_jointly. cbn [negb]. rewrite bind_ret_l.
  assert (Hsw : weights_or_ones v sw <> []).
  { intros E. rewrite E in Hlen. destruct v; [congruence | discriminate]. }
  rewrite (weighted_positions_ok _ Hsw), bind_pure.
  rewrite interp_ok.
  - cbn [trace_of outcome fst snd]. reflexivity.
  - intros E. apply (f_equal (@length _)) in E.
    rewrite positions_length in E. rewrite Hlen in E.
    destruct v; [congruence | discriminate].
  - now rewrite positions_length.
Qed.

(** ** Results of the interpolation *)

Lemma interp_loop_length (dx dy : list fnum) (lval rval : fnum)
  (xs : list fnum) (j : Z) :
  length (Np.interp_loop dx dy lval rval xs j) = length xs.
Proof.
  revert j. induction xs as [| x xs IH]; intros j; simpl; [reflexivity | ].
  destruct (Np.interp_point dx dy lval rval x j). simpl. now rewrite IH.
Qed.

Lemma interp_values_length (x xp fp : list fnum) :
  length (Np.interp_values x xp fp) = length x.
Proof.
  unfold Np.interp_values.
  destruct xp as [| a [| b xp]];
    rewrite ?length_map, ?interp_loop_length; reflexivity.
Qed.

Lemma interp_values_nil (xp fp : list fnum) : Np.interp_values [] xp fp = [].
Proof.
  apply length_zero_iff_nil. now rewrite interp_values_length.
Qed.


(* ================================================================= *)
(** ** C10, C5: an empty quantile sequence; the worked example *)

(** C10.  On a non-empty value sequence with valid weights (none, or as many
    weights as values), an empty quantile sequence is accepted and the
    estimator returns the empty sequence, for every setting of
    [values_sorted] and [old_style]. *)
Theorem empty_quantiles_give_empty_result (v : list fnum)
  (sw : option (list fnum)) (values_sorted old_style : bool) :
  v <> [] ->
  length (weights_or_ones v sw) = length v ->
  outcome (weighted_quantile_1d v [] sw values_sorted old_style) = Ok [].
Proof.
  intros Hv Hlen.
  assert (Hq : in_unit_interval []) by constructor.
  destruct values_sorted.
  - rewrite (estimator_presorted _ old_style Hv Hlen Hq).
    cbn [outcome snd]. now rewrite interp_values_nil.
  - rewrite (estimator_unsorted _ old_style Hv Hlen Hq).
    cbn [outcome snd]. now rewrite interp_values_nil.
Qed.

Lemma empty_quantiles_give_empty_result_witness :
  outcome (weighted_quantile_1d [fz 4; fz 1; fz 3] []
             (Some [fz 0; fz 2; fz 0]) false true) = Ok [].
Proof.
  apply (@empty_quantiles_give_empty_result
           [fz 4; fz 1; fz 3] (Some [fz 0; fz 2; fz 0]) false true).
  - discriminate.
  - reflexivity.
Defined.

(** C5.  values = [1, 2, 3], weights = [1, 1, 2], quantiles = [0.5], default
    normalisation: the normalised positions are 1/8, 3/8 and 3/4, the
    query 0.5 falls in the segment that starts at knot 1 (position 3/8,
    value 2) and ends at knot 2 (position 3/4, value 3), and the estimator
    returns 7/3. *)
Theorem worked_example_seven_thirds :
  let v := [fz 1; fz 2; fz 3] in
  let w := [fz 1; fz 1; fz 2] in
  same_numbers (positions (sorted_weights v w) false)
               [fq 1 8; fq 3 8; fq 3 4] /\
  sorted_values v = [fz 1; fz 2; fz 3] /\
  Np.binary_search_with_guess (fq 1 2) (positions (sorted_weights v w) false) 0
    = 1%Z /\
  exists r, outcome (weighted_quantile_1d v [fq 1 2] (Some w) false false)
            = Ok [r] /\ feq r (fq 7 3).
Proof.
  cbv zeta. repeat split.
  - vm_compute. repeat constructor.
  - eexists. split; [vm_compute; reflexivity | reflexivity].
Qed.

(* ================================================================= *)
(** ** Arrays of finite numbers *)

Section FiniteArrays.
Local Open Scope Q_scope.

Lemma fold_left_Qplus (l : list Q) (a : Q) :
  fold_left Qplus l a == a + Qsum l.
Proof.
  revert a. induction l as [| x l IH]; intros a; simpl.
  - ring.
  - rewrite IH. ring.
Qed.

Lemma fold_left_fadd_fins (l : list Q) (a : Q) :
  fold_left fadd (map Fin l) (Fin a) = Fin (fold_left Qplus l a).
Proof.
  revert a. induction l as [| x l IH]; intros a; simpl; [reflexivity | ].
  apply IH.
Qed.

Lemma sum_list_fins (l : list Q) :
  Np.sum_list (map Fin l) = Fin (fold_left Qplus l 0).
Proof. apply fold_left_fadd_fins. Qed.

Lemma Qsum_perm (l l' : list Q) : Permutation l l' -> Qsum l == Qsum l'.
Proof.
  induction 1; simpl.
  - reflexivity.
  - now rewrite IHPermutation.
  - ring.
  - now rewrite IHPermutation1.
Qed.

Lemma Qsum_app (l l' : list Q) : Qsum (l ++ l') == Qsum l + Qsum l'.
Proof.
  induction l as [| x l IH]; simpl; [ring | rewrite IH; ring].
Qed.

Lemma Qsum_nonneg (l : list Q) : Forall (fun x => 0 <= x) l -> 0 <= Qsum l.
Proof.
  induction 1 as [| x l Hx _ IH]; simpl; [apply Qle_refl | lra].
Qed.

End FiniteArrays.

Lemma map_nth_seq {A} (l : list A) (d : A) :
  map (fun i => nth i l d) (seq 0 (length l)) = l.
Proof.
  apply (nth_ext _ _ d d).
  - now rewrite length_map, length_seq.
  - intros n Hn. rewrite length_map, length_seq in Hn.
    rewrite (nth_indep _ d (nth 0 l d)) by (now rewrite length_map, length_seq).
    rewrite (map_nth (fun i => nth i l d)).
    now rewrite seq_nth.
Qed.

Lemma reorder_perm {A} (l : list A) (d : A) (idx : list nat) :
  Permutation idx (seq 0 (length l)) ->
  Permutation (map (fun i => nth i l d) idx) l.
Proof.
  intros H. rewrite (Permutation_map _ H). now rewrite map_nth_seq.
Qed.

Lemma map_nth_fins (l : list Q) (idx : list nat) :
  Forall (fun i => i < length l) idx ->
  map (fun i => nth i (map Fin l) NaN) idx =
  map Fin (map (fun i => nth i l 0%Q) idx).
Proof.
  induction 1 as [| i idx Hi _ IH]; simpl; [reflexivity | ].
  rewrite IH. f_equal.
  rewrite (nth_indep _ NaN (Fin 0%Q)) by (now rewrite length_map).
  apply (map_nth Fin).
Qed.


Lemma sorted_values_fins (v : list Q) :
  sorted_values (map Fin v) = map Fin (sorted_qvalues v).
Proof.
  unfold sorted_values, sorted_qvalues. apply map_nth_fins.
  generalize (argsort_bound (map Fin v)). now rewrite length_map.
Qed.

Lemma sorted_weights_fins (v w : list Q) :
  length w = length v ->
  sorted_weights (map Fin v) (map Fin w) = map Fin (sorted_qweights v w).
Proof.
  intros H. unfold sorted_weights, sorted_qweights. apply map_nth_fins.
  generalize (argsort_bound (map Fin v)). rewrite length_map, H. auto.
Qed.

Lemma sorted_qvalues_perm (v : list Q) : Permutation (sorted_qvalues v) v.
Proof.
  apply reorder_perm.
  generalize (argsort_perm (map Fin v)). now rewrite length_map.
Qed.

Lemma sorted_qweights_perm (v w : list Q) :
  length w = length v -> Permutation (sorted_qweights v w) w.
Proof.
  intros H. apply reorder_perm. rewrite H.
  generalize (argsort_perm (map Fin v)). now rewrite length_map.
Qed.

Lemma sorted_qvalues_length (v : list Q) :
  length (sorted_qvalues v) = length v.
Proof. apply Permutation_length, sorted_qvalues_perm. Qed.

Lemma sorted_qweights_length (v w : list Q) :
  length (sorted_qweights v w) = length v.
Proof.
  unfold sorted_qweights. now rewrite length_map, argsort_length, length_map.
Qed.

(* ================================================================= *)
(** ** C1: a zero total weight *)

Lemma fdiv_by_zero_nonfinite (x : fnum) (t : Q) :
  (t == 0)%Q -> fisfinite (fdiv x (Fin t)) = false.
Proof.
  intros Ht.
  assert (Hc : (t ?= 0)%Q = Eq) by now apply Qeq_alt.
  destruct x as [a | | | ]; simpl; unfold by_sign; rewrite ?Hc; try reflexivity.
  rewrite (proj2 (Qeq_bool_iff t 0) Ht).
  destruct (a ?= 0)%Q; reflexivity.
Qed.

Lemma positions_zero_total (w : list Q) :
  (Qsum w == 0)%Q ->
  Forall (fun p => fisfinite p = false) (positions (map Fin w) false).
Proof.
  intros H. unfold positions, Np.div_scalar. rewrite sum_list_fins.
  apply Forall_forall. intros p Hp. apply in_map_iff in Hp.
  destruct Hp as [x [<- _]]. apply fdiv_by_zero_nonfinite.
  rewrite fold_left_Qplus, H. reflexivity.
Qed.

(** C1 (as the code behaves).  With a zero total weight and default
    normalisation nothing is raised: the division turns every normalised
    position into NaN or an infinity, and the estimator returns one
    estimate per quantile, interpolated against those positions. *)
Theorem zero_total_weight_raises_nothing (v : list fnum) (w : list Q)
  (q : list fnum) (values_sorted : bool) :
  v <> [] -> length w = length v -> (Qsum w == 0)%Q ->
  in_unit_interval q ->
  let weights :=
    if values_sorted then map Fin w else sorted_weights v (map Fin w) in
  let values := if values_sorted then v else sorted_values v in
  let pos := positions weights false in
  Forall (fun p => fisfinite p = false) pos /\
  outcome (weighted_quantile_1d v q (Some (map Fin w)) values_sorted false)
  = Ok (Np.interp_values q pos values) /\
  length (Np.interp_values q pos values) = length q.
Proof.
  intros Hv Hlen Hsum Hq. cbv zeta.
  assert (Hlen' : length (weights_or_ones v (Some (map Fin w))) = length v)
    by (simpl; now rewrite length_map).
  destruct values_sorted.
  - split; [now apply positions_zero_total | ].
    split; [ | apply interp_values_length].
    now rewrite (estimator_presorted _ false Hv Hlen' Hq).
  - assert (Hidx : Forall (fun i => i < length w) (Np.argsort_indices v)).
    { rewrite Hlen. apply argsort_bound. }
    assert (Hperm : Permutation
              (map (fun i => nth i w 0%Q) (Np.argsort_indices v)) w).
    { apply reorder_perm. rewrite Hlen. apply argsort_perm. }
    split.
    { unfold sorted_weights. rewrite (map_nth_fins _ Hidx).
      apply positions_zero_total. now rewrite (Qsum_perm Hperm). }
    split; [ | apply interp_values_length].
    now rewrite (estimator_unsorted _ false Hv Hlen' Hq).
Qed.

Lemma zero_total_weight_raises_nothing_witness :
  let v := [fz 5; fz 3] in
  let q := [fq 1 2; fz 1] in
  let pos := positions (sorted_weights v (map Fin [1; -1]%Q)) false in
  Forall (fun p => fisfinite p = false) pos /\
  outcome (weighted_quantile_1d v q (Some (map Fin [1; -1]%Q)) false false)
  = Ok (Np.interp_values q pos (sorted_values v)) /\
  length (Np.interp_values q pos (sorted_values v)) = length q.
Proof.
  apply (@zero_total_weight_raises_nothing
           [fz 5; fz 3] [1; -1]%Q [fq 1 2; fz 1] false).
  - discriminate.
  - reflexivity.
  - reflexivity.
  - repeat constructor.
Defined.

(** C1, counterexample.  values = [1, 2], weights = [0, 0], quantiles =
    [0.5]: the weights sum to zero, no exception is raised, and the
    returned estimate is NaN. *)
Lemma zero_total_weight_returns_nan :
  Np.sum_list [fz 0; fz 0] = F0 /\
  in_unit_interval [fq 1 2] /\
  weighted_quantile_1d [fz 1; fz 2] [fq 1 2] (Some [fz 0; fz 0]) false false
  = ([EvEstimator1D; EvArgsort; EvTake; EvTake; EvCumsum; EvSum; EvInterp],
     Ok [NaN]).
Proof.
  split; [reflexivity | ]. split; [repeat constructor | reflexivity].
Qed.

(* ================================================================= *)
(** ** C2: value and weight sequences of different lengths *)

Lemma nth_firstn_lt {A} (l : list A) (n i : nat) (d : A) :
  i < n -> nth i (firstn n l) d = nth i l d.
Proof.
  revert n i. induction l as [| a l IH]; intros [| n] [| i] H; simpl;
    try reflexivity; try lia.
  apply IH. lia.
Qed.





(* ================================================================= *)
(** ** Comparisons of finite numbers *)

Section FiniteComparisons.
Local Open Scope Q_scope.

Lemma flt_fin (a b : Q) : flt (Fin a) (Fin b) = true <-> a < b.
Proof.
  simpl. rewrite Qlt_alt. destruct (a ?= b); intuition discriminate.
Qed.

Lemma flt_fin_false (a b : Q) : flt (Fin a) (Fin b) = false <-> b <= a.
Proof.
  rewrite <- not_true_iff_false, flt_fin. split.
  - apply Qnot_lt_le.
  - apply Qle_not_lt.
Qed.

Lemma feqb_fin (a b : Q) : feqb (Fin a) (Fin b) = true <-> a == b.
Proof. apply Qeq_bool_iff. Qed.

Lemma fle_fin (a b : Q) : fle (Fin a) (Fin b) = true <-> a <= b.
Proof.
  unfold fle. rewrite orb_true_iff, flt_fin, feqb_fin. split.
  - intros [H | H]; [now apply Qlt_le_weak | now rewrite H; apply Qle_refl].
  - intros H. destruct (Qlt_le_dec a b) as [Hlt | Hge]; [now left | right].
    now apply Qle_antisym.
Qed.

Lemma fle_fin_false (a b : Q) : fle (Fin a) (Fin b) = false <-> b < a.
Proof.
  rewrite <- not_true_iff_false, fle_fin. split.
  - apply Qnot_le_lt.
  - apply Qlt_not_le.
Qed.

Lemma fge_fin (a b : Q) : fge (Fin a) (Fin b) = true <-> b <= a.
Proof. apply fle_fin. Qed.

Lemma fge_fin_false (a b : Q) : fge (Fin a) (Fin b) = false <-> a < b.
Proof. apply fle_fin_false. Qed.

Lemma fgt_fin (a b : Q) : fgt (Fin a) (Fin b) = true <-> b < a.
Proof. apply flt_fin. Qed.

Lemma fgt_fin_false (a b : Q) : fgt (Fin a) (Fin b) = false <-> a <= b.
Proof. apply flt_fin_false. Qed.

Lemma npy_lt_fin (a b : Q) : Np.npy_lt (Fin a) (Fin b) = true <-> a < b.
Proof.
  unfold Np.npy_lt. cbn [fisnan andb]. rewrite orb_false_r. apply flt_fin.
Qed.

Lemma npy_lt_fin_false (a b : Q) : Np.npy_lt (Fin a) (Fin b) = false <-> b <= a.
Proof.
  unfold Np.npy_lt. cbn [fisnan andb]. rewrite orb_false_r.
  apply flt_fin_false.
Qed.

End FiniteComparisons.

(** Quantiles that are finite numbers of the unit interval. *)
Lemma in_unit_interval_fins (q : list Q) :
  Forall (fun x => (0 <= x <= 1)%Q) q -> in_unit_interval (map Fin q).
Proof.
  intros H. apply Forall_forall. intros x Hx.
  apply in_map_iff in Hx. destruct Hx as [y [<- Hy]].
  destruct (proj1 (Forall_forall _ _) H y Hy) as [H0 H1].
  split; [now apply fge_fin | now apply fle_fin].
Qed.

(* ================================================================= *)
(** ** [binary_search_with_guess] on finite knots *)

Section Search.
Local Open Scope Q_scope.


Lemma at_fins (xp : list Q) (i : Z) :
  (0 <= i < Z.of_nat (length xp))%Z ->
  Np.at_ (map Fin xp) i = Fin (qat xp i).
Proof.
  intros H. unfold Np.at_, qat.
  rewrite (nth_indep _ NaN (Fin 0)) by (rewrite length_map; lia).
  apply (map_nth Fin).
Qed.

Lemma nondecreasing_qat (xp : list Q) (i j : Z) :
  nondecreasing xp -> (0 <= i <= j)%Z -> (j < Z.of_nat (length xp))%Z ->
  qat xp i <= qat xp j.
Proof. intros H Hij Hj. apply H. lia. Qed.


(** The linear scan over [arr[i:]] stops at the first knot right of [key]. *)
Lemma linear_scan_spec (key : Q) (rest : list Q) (i : Z) :
  let r := Np.linear_scan (Fin key) (map Fin rest) i in
  (i <= r <= i + Z.of_nat (length rest))%Z /\
  (forall k, (i <= k < r)%Z -> qat rest (k - i) <= key) /\
  (r = (i + Z.of_nat (length rest))%Z \/ key < qat rest (r - i)).
Proof.
  revert i. induction rest as [| a rest IH]; intros i; cbn zeta.
  - simpl. split; [lia | ]. split; [intros; lia | left; lia].
  - cbn [map Np.linear_scan].
    destruct (fge (Fin key) (Fin a)) eqn:E.
    + apply fge_fin in E. specialize (IH (i + 1)%Z). cbn zeta in IH.
      destruct IH as [Hr [Hle Hstop]].
      set (r := Np.linear_scan (Fin key) (map Fin rest) (i + 1)) in *.
      split; [simpl length; lia | ]. split.
      * intros k Hk. destruct (Z.eq_dec k i) as [-> | Hne].
        -- now rewrite Z.sub_diag.
        -- unfold qat. replace (Z.to_nat (k - i)) with (S (Z.to_nat (k - (i + 1))))
             by lia. simpl. apply Hle. lia.
      * destruct Hstop as [-> | Hlt]; [left; simpl length; lia | right].
        unfold qat in *.
        replace (Z.to_nat (r - i)) with (S (Z.to_nat (r - (i + 1)))) by lia.
        exact Hlt.
    + apply fge_fin_false in E. split; [simpl length; lia | ].
      split; [intros; lia | right]. now rewrite Z.sub_diag.
Qed.

(** The bisection keeps [arr[imin-1] <= key < arr[imax]] and ends with
    [imin = imax]; [imax - imin] turns are enough. *)
Lemma bisect_spec (key : Q) (xp : list Q) (fuel : nat) (imin imax : Z) :
  let n := Z.of_nat (length xp) in
  (Z.of_nat fuel >= imax - imin)%Z ->
  (0 <= imin <= imax)%Z -> (imax <= n)%Z ->
  (imin = 0%Z \/ qat xp (imin - 1) <= key) ->
  (imax = n \/ key < qat xp imax) ->
  let r := Np.bisect fuel (Fin key) (map Fin xp) imin imax in
  (imin <= r <= imax)%Z /\
  (r = 0%Z \/ qat xp (r - 1) <= key) /\
  (r = n \/ key < qat xp r).
Proof.
  cbn zeta. revert imin imax.
  induction fuel as [| fuel IH]; intros imin imax Hfuel Hb Hn Hlo Hhi.
  - simpl. assert (imin = imax) by lia. subst. repeat split; auto; lia.
  - cbn [Np.bisect]. destruct (imin <? imax)%Z eqn:E.
    + apply Z.ltb_lt in E.
      rewrite Z.shiftr_div_pow2 by lia. change (2 ^ 1)%Z with 2%Z.
      set (imid := (imin + (imax - imin) / 2)%Z).
      assert (Hmid : (imin <= imid < imax)%Z).
      { unfold imid. pose proof (Z.div_lt_upper_bound (imax - imin) 2 (imax - imin)).
        pose proof (Z.div_pos (imax - imin) 2). lia. }
      rewrite at_fins by lia.
      destruct (fge (Fin key) (Fin (qat xp imid))) eqn:Ege.
      * apply fge_fin in Ege.
        destruct (IH (imid + 1)%Z imax) as [Hr Hrest]; try lia; auto.
        { right. now replace (imid + 1 - 1)%Z with imid by lia. }
        split; [lia | exact Hrest].
      * apply fge_fin_false in Ege.
        destruct (IH imin imid) as [Hr Hrest]; try lia; auto.
        split; [lia | exact Hrest].
    + apply Z.ltb_ge in E. assert (imin = imax) by lia. subst.
      repeat split; auto; lia.
Qed.

End Search.

Ltac fin_at xp :=
  repeat match goal with
         | |- context [Np.at_ (map Fin xp) ?i] =>
             rewrite (@at_fins xp i) by lia
         end.

Ltac to_prop :=
  repeat match goal with
         | H : flt (Fin _) (Fin _) = true |- _ => apply flt_fin in H
         | H : flt (Fin _) (Fin _) = false |- _ => apply flt_fin_false in H
         | H : fgt (Fin _) (Fin _) = true |- _ => apply fgt_fin in H
         | H : fgt (Fin _) (Fin _) = false |- _ => apply fgt_fin_false in H
         | H : fge (Fin _) (Fin _) = true |- _ => apply fge_fin in H
         | H : fge (Fin _) (Fin _) = false |- _ => apply fge_fin_false in H
         | H : fle (Fin _) (Fin _) = true |- _ => apply fle_fin in H
         | H : fle (Fin _) (Fin _) = false |- _ => apply fle_fin_false in H
         | H : feqb (Fin _) (Fin _) = true |- _ => apply feqb_fin in H
         end.

Section SearchCorrect.
Local Open Scope Q_scope.

Lemma qat_tl (xp : list Q) (j : Z) :
  (1 <= j)%Z -> qat (tl xp) (j - 1) = qat xp j.
Proof.
  intros H. unfold qat.
  replace (Z.to_nat j) with (S (Z.to_nat (j - 1))) by lia.
  destruct xp; [now destruct (Z.to_nat (j - 1)) | reflexivity].
Qed.

(** On non-decreasing finite knots the search returns the segment of the
    query point, whatever the guess. *)
Lemma search_located (xp : list Q) (key : Q) (guess : Z) :
  xp <> [] -> nondecreasing xp ->
  located xp key (Np.binary_search_with_guess (Fin key) (map Fin xp) guess).
Proof.
  intros Hne Hsorted.
  assert (Hn : (0 < Z.of_nat (length xp))%Z)
    by (destruct xp; [congruence | simpl length; lia]).
  unfold Np.binary_search_with_guess, located. rewrite length_map.
  set (n := Z.of_nat (length xp)) in *. cbv zeta.
  fin_at xp.
  destruct (fgt (Fin key) (Fin (qat xp (n - 1)))) eqn:Ehi; to_prop;
    [right; left; split; [reflexivity | assumption] | ].
  destruct (flt (Fin key) (Fin (qat xp 0))) eqn:Elo; to_prop;
    [left; split; [reflexivity | assumption] | ].
  right; right.
  destruct (n <=? 4)%Z eqn:Esmall.
  - (* linear search *)
    replace (tl (map Fin xp)) with (map Fin (tl xp)) by (now destruct xp).
    pose proof (linear_scan_spec key (tl xp) 1) as Hscan. cbn zeta in Hscan.
    set (r := Np.linear_scan (Fin key) (map Fin (tl xp)) 1) in *.
    assert (Hlen : (1 + Z.of_nat (length (tl xp)) = n)%Z).
    { unfold n. destruct xp; [congruence | simpl length; lia]. }
    destruct Hscan as [Hr [Hle Hstop]]. rewrite Hlen in *.
    split; [lia | ]. split.
    + destruct (Z.eq_dec r 1) as [-> | Hr1]; [exact Elo | ].
      rewrite <- qat_tl by lia.
      replace (r - 1 - 1)%Z with ((r - 1) - 1)%Z by lia. apply Hle. lia.
    + destruct Hstop as [-> | Hlt]; [left; reflexivity | right].
      replace (r - 1 + 1)%Z with r by lia. rewrite <- qat_tl by lia. exact Hlt.
  - (* guess, then bisection *)
    apply Z.leb_gt in Esmall.
    set (g0 := if (guess >? n - 3)%Z then (n - 3)%Z else guess).
    set (g := if (g0 <? 1)%Z then 1%Z else g0).
    assert (Hg : (1 <= g <= n - 3)%Z).
    { unfold g, g0. destruct (guess >? n - 3)%Z eqn:E1.
      - destruct (n - 3 <? 1)%Z eqn:E2; lia.
      - destruct (guess <? 1)%Z eqn:E2; lia. }
    clearbody g. clear g0.
    fin_at xp.
    destruct (flt (Fin key) (Fin (qat xp g))) eqn:E1; to_prop.
    + destruct (flt (Fin key) (Fin (qat xp (g - 1)))) eqn:E2; to_prop.
      * set (imin := if (g >? Np.LIKELY_IN_CACHE_SIZE)%Z &&
                        fge (Fin key)
                          (Np.at_ (map Fin xp) (g - Np.LIKELY_IN_CACHE_SIZE))
                     then (g - Np.LIKELY_IN_CACHE_SIZE)%Z else 0%Z).
        assert (Him : (0 <= imin <= g - 1)%Z /\
                      (imin = 0%Z \/ qat xp (imin - 1) <= key)).
        { unfold imin, Np.LIKELY_IN_CACHE_SIZE.
          destruct (g >? 8)%Z eqn:E8; cbn [andb]; [ | split; [lia | now left]].
          rewrite at_fins by lia.
          destruct (fge (Fin key) (Fin (qat xp (g - 8)))) eqn:E9;
            [ | split; [lia | now left]].
          to_prop. split; [lia | right].
          apply Qle_trans with (qat xp (g - 8)); [ | exact E9].
          apply nondecreasing_qat; [assumption | lia | fold n; lia]. }
        clearbody imin. destruct Him as [Hb Hlo].
        destruct (@bisect_spec key xp (Z.to_nat (g - 1 - imin)) imin (g - 1))
          as [Hr [Hleft Hright]]; try (fold n; lia); auto.
        fold n in Hright.
        set (r := Np.bisect _ _ _ _ _) in *.
        assert (r <> 0%Z).
        { intros ->. destruct Hright as [? | Hlt]; [lia | ].
          apply (Qlt_irrefl key).
          now apply Qlt_le_trans with (qat xp 0). }
        split; [lia | ]. split; [destruct Hleft; [lia | assumption] | ].
        right. replace (r - 1 + 1)%Z with r by lia.
        destruct Hright; [lia | assumption].
      * split; [lia | ]. split; [assumption | right].
        now replace (g - 1 + 1)%Z with g by lia.
    + destruct (flt (Fin key) (Fin (qat xp (g + 1)))) eqn:E2; to_prop;
        [split; [lia | split; [assumption | now right]] | ].
      destruct (flt (Fin key) (Fin (qat xp (g + 2)))) eqn:E3; to_prop.
      * split; [lia | ]. split; [assumption | right].
        now replace (g + 1 + 1)%Z with (g + 2)%Z by lia.
      * set (imax := if (g <? n - Np.LIKELY_IN_CACHE_SIZE - 1)%Z &&
                        flt (Fin key)
                          (Np.at_ (map Fin xp) (g + Np.LIKELY_IN_CACHE_SIZE))
                     then (g + Np.LIKELY_IN_CACHE_SIZE)%Z else n).
        assert (Him : (g + 2 <= imax <= n)%Z /\
                      (imax = n \/ key < qat xp imax)).
        { unfold imax, Np.LIKELY_IN_CACHE_SIZE.
          destruct (g <? n - 8 - 1)%Z eqn:E8; cbn [andb];
            [ | split; [lia | now left]].
          rewrite at_fins by (fold n; lia).
          destruct (flt (Fin key) (Fin (qat xp (g + 8)))) eqn:E9;
            [ | split; [lia | now left]].
          to_prop. split; [lia | now right]. }
        clearbody imax. destruct Him as [Hb Hhi].
        destruct (@bisect_spec key xp (Z.to_nat (imax - (g + 2))) (g + 2) imax)
          as [Hr [Hleft Hright]]; try (fold n; lia); auto.
        { right. now replace (g + 2 - 1)%Z with (g + 1)%Z by lia. }
        fold n in Hright.
        set (r := Np.bisect _ _ _ _ _) in *.
        split; [lia | ]. split; [destruct Hleft; [lia | assumption] | ].
        destruct Hright as [-> | Hlt]; [now left | right].
        now replace (r - 1 + 1)%Z with r by lia.
Qed.

End SearchCorrect.

(* ================================================================= *)
(** ** [np.interp] on finite, non-decreasing knots *)

Section InterpCorrect.
Local Open Scope Q_scope.


Lemma fdiv_fin (a b : Q) : ~ b == 0 -> fdiv (Fin a) (Fin b) = Fin (a / b).
Proof.
  intros H. simpl. destruct (Qeq_bool b 0) eqn:E; [ | reflexivity].
  apply Qeq_bool_iff in E. contradiction.
Qed.

Lemma interp_point_spec (xp fp : list Q) (x : Q) (j0 : Z) :
  xp <> [] -> nondecreasing xp -> length fp = length xp ->
  exists y j,
    Np.interp_point (map Fin xp) (map Fin fp)
      (Fin (nth 0 fp 0)) (Fin (nth (length xp - 1) fp 0)) (Fin x) j0
    = (Fin y, j) /\ interp_spec xp fp x y.
Proof.
  intros Hne Hsorted Hlen.
  assert (Hn : (0 < length xp)%nat)
    by (destruct xp; [congruence | simpl; lia]).
  unfold Np.interp_point. cbn [fisnan]. rewrite length_map.
  pose proof (@search_located xp x j0 Hne Hsorted) as Hloc.
  set (j := Np.binary_search_with_guess (Fin x) (map Fin xp) j0) in *.
  set (n := Z.of_nat (length xp)) in *.
  unfold located in Hloc. fold n in Hloc.
  destruct Hloc as [[-> Hx] | [[-> Hx] | [Hj [Hle Hnext]]]].
  - (* left of the first knot *)
    eexists; eexists; split; [reflexivity | ].
    left. split; [exact Hx | reflexivity].
  - (* right of the last knot *)
    replace (n =? -1)%Z with false by (symmetry; apply Z.eqb_neq; lia).
    rewrite Z.eqb_refl.
    eexists; eexists; split; [reflexivity | ].
    right; left. split; [ | reflexivity].
    apply Qlt_le_weak. unfold qat in Hx.
    now replace (Z.to_nat (n - 1)) with (length xp - 1)%nat in Hx by lia.
  - replace (j =? -1)%Z with false by (symmetry; apply Z.eqb_neq; lia).
    replace (j =? n)%Z with false by (symmetry; apply Z.eqb_neq; lia).
    destruct (j =? n - 1)%Z eqn:Elast.
    + (* the last knot *)
      apply Z.eqb_eq in Elast.
      rewrite at_fins by (rewrite Hlen; fold n; lia).
      eexists; eexists; split; [reflexivity | ].
      right; left. unfold qat in *.
      replace (Z.to_nat j) with (length xp - 1)%nat in * by lia.
      split; [exact Hle | reflexivity].
    + apply Z.eqb_neq in Elast.
      destruct Hnext as [? | Hlt]; [lia | ].
      assert (Hgap : ~ qat xp (j + 1) - qat xp j == 0) by lra.
      assert (Hspec : forall y,
                 y == qat fp j + (qat fp (j + 1) - qat fp j)
                                 / (qat xp (j + 1) - qat xp j)
                                 * (x - qat xp j) ->
                 interp_spec xp fp x y).
      { intros y Hy. right; right. exists (Z.to_nat j).
        unfold qat in *.
        replace (Z.to_nat (j + 1)) with (S (Z.to_nat j)) in * by lia.
        repeat split; try assumption. lia. }
      rewrite !(@at_fins xp) by (fold n; lia).
      rewrite !(@at_fins fp) by (rewrite Hlen; fold n; lia).
      destruct (feqb (Fin (qat xp j)) (Fin x)) eqn:Eeq.
      * to_prop. eexists; eexists; split; [reflexivity | ].
        apply Hspec. assert (Hz : x - qat xp j == 0) by lra.
        rewrite Hz. field. exact Hgap.
      * unfold fsub. cbn [fneg fadd]. rewrite (fdiv_fin _ Hgap).
        cbn [fmul fadd fisnan].
        eexists; eexists; split; [reflexivity | ].
        apply Hspec. field. lra.
Qed.

Lemma interp_loop_spec (xp fp xs : list Q) (j0 : Z) :
  xp <> [] -> nondecreasing xp -> length fp = length xp ->
  exists ys,
    Np.interp_loop (map Fin xp) (map Fin fp)
      (Fin (nth 0 fp 0)) (Fin (nth (length xp - 1) fp 0)) (map Fin xs) j0
    = map Fin ys /\ Forall2 (interp_spec xp fp) xs ys.
Proof.
  intros Hne Hsorted Hlen. revert j0.
  induction xs as [| x xs IH]; intros j0.
  - exists []. split; [reflexivity | constructor].
  - cbn [map Np.interp_loop].
    destruct (@interp_point_spec xp fp x j0 Hne Hsorted Hlen) as [y [j [-> Hy]]].
    destruct (IH j) as [ys [-> Hys]].
    exists (y :: ys). split; [reflexivity | now constructor].
Qed.

(** [np.interp] on finite queries, finite non-decreasing knots and finite
    values returns finite numbers, the values of the curve. *)
Lemma interp_values_spec (xp fp xs : list Q) :
  xp <> [] -> nondecreasing xp -> length fp = length xp ->
  exists ys,
    Np.interp_values (map Fin xs) (map Fin xp) (map Fin fp) = map Fin ys /\
    Forall2 (interp_spec xp fp) xs ys.
Proof.
  intros Hne Hsorted Hlen. unfold Np.interp_values. rewrite length_map.
  assert (H0 : Np.at_ (map Fin fp) 0 = Fin (nth 0 fp 0)).
  { rewrite at_fins; [reflexivity | ].
    rewrite Hlen. destruct xp; [congruence | simpl length; lia]. }
  assert (Hl : Np.at_ (map Fin fp) (Z.of_nat (length xp) - 1)
               = Fin (nth (length xp - 1) fp 0)).
  { rewrite at_fins.
    - unfold qat. now replace (Z.to_nat (Z.of_nat (length xp) - 1))
        with (length xp - 1)%nat by lia.
    - rewrite Hlen. destruct xp; [congruence | simpl length; lia]. }
  rewrite H0, Hl.
  destruct xp as [| a [| b xp]]; [congruence | | ].
  - (* a single knot *)
    exists (map (fun _ => nth 0 fp 0) xs). split.
    + cbn [map]. rewrite !map_map. apply map_ext. intros x.
      unfold Np.interp_single. simpl length. simpl Nat.sub.
      destruct (flt (Fin x) (Fin a)); [reflexivity | ].
      destruct (fgt (Fin x) (Fin a)); reflexivity.
    + induction xs as [| x xs IH]; [constructor | ].
      cbn [map]. constructor; [ | exact IH].
      unfold interp_spec. simpl length. simpl Nat.sub. simpl nth.
      destruct (Qlt_le_dec x a) as [Hlt | Hge].
      * left. split; [exact Hlt | reflexivity].
      * right; left. split; [exact Hge | reflexivity].
  - change (map Fin (a :: b :: xp)) with (map Fin (a :: b :: xp)).
    apply (@interp_loop_spec _ fp xs 0 Hne Hsorted Hlen).
Qed.

End InterpCorrect.

(* ================================================================= *)
(** ** [argsort] sorts, and is stable *)

Section ArgsortSorted.
Local Open Scope Q_scope.

Variable v : list Q.


Lemma lex_lt_trans (a b c : nat) : lex_lt v a b -> lex_lt v b c -> lex_lt v a c.
Proof.
  unfold lex_lt. intros [H1 | [H1 H1']] [H2 | [H2 H2']].
  - left. lra.
  - left. lra.
  - left. lra.
  - right. split; [lra | lia].
Qed.

Lemma lex_lt_irrefl (a : nat) : ~ lex_lt v a a.
Proof. unfold lex_lt. intros [H | [_ H]]; [lra | lia]. Qed.

Lemma key_fin (i : nat) :
  (i < length v)%nat -> nth i (map Fin v) NaN = Fin (key v i).
Proof.
  intros H. rewrite (nth_indep _ NaN (Fin 0)) by (now rewrite length_map).
  apply (map_nth Fin).
Qed.


Lemma shift_insert_descending (vi : nat) (acc : list nat) :
  (vi < length v)%nat ->
  Forall (fun k => (k < vi)%nat) acc ->
  descending v acc ->
  descending v (Np.shift_insert (map Fin v) vi acc).
Proof.
  intros Hvi Hacc Hsorted. induction acc as [| k acc IH]; simpl.
  - repeat constructor.
  - inversion Hacc as [| ? ? Hk Hacc']; subst.
    inversion Hsorted as [| ? ? Hs Hall]; subst.
    rewrite (key_fin Hvi), key_fin by lia.
    destruct (Np.npy_lt (Fin (key v vi)) (Fin (key v k))) eqn:E.
    + apply npy_lt_fin in E. constructor; [now apply IH | ].
      apply Forall_forall. intros x Hx.
      apply (Permutation_in _ (shift_insert_perm _ vi acc)) in Hx.
      destruct Hx as [<- | Hx]; [now left | ].
      apply (proj1 (Forall_forall _ _) Hall x Hx).
    + apply npy_lt_fin_false in E.
      assert (Hkvi : lex_lt v k vi).
      { destruct (Qlt_le_dec (key v k) (key v vi)); [now left | right].
        split; [now apply Qle_antisym | exact Hk]. }
      constructor; [exact Hsorted | ].
      constructor; [exact Hkvi | ].
      apply Forall_forall. intros x Hx.
      apply lex_lt_trans with k; [ | exact Hkvi].
      apply (proj1 (Forall_forall _ _) Hall x Hx).
Qed.

Lemma insert_all_descending (len a : nat) (acc : list nat) :
  (a + len <= length v)%nat ->
  Forall (fun k => (k < a)%nat) acc ->
  descending v acc ->
  descending v (fold_left (fun acc vi => Np.shift_insert (map Fin v) vi acc)
                        (seq a len) acc).
Proof.
  revert a acc. induction len as [| len IH]; intros a acc Hb Hacc Hs.
  - exact Hs.
  - cbn [seq fold_left]. apply IH; [lia | | ].
    + apply Forall_forall. intros x Hx.
      apply (Permutation_in _ (shift_insert_perm _ a acc)) in Hx.
      destruct Hx as [<- | Hx]; [lia | ].
      pose proof (proj1 (Forall_forall _ _) Hacc x Hx). simpl in *. lia.
    + apply shift_insert_descending; [lia | assumption | assumption].
Qed.

Lemma StronglySorted_snoc {A} (R : A -> A -> Prop) (l : list A) (x : A) :
  StronglySorted R l -> Forall (fun y => R y x) l ->
  StronglySorted R (l ++ [x]).
Proof.
  induction 1 as [| a l Hs IH Ha]; intros Hx; simpl.
  - repeat constructor.
  - inversion Hx; subst. constructor; [now apply IH | ].
    apply Forall_app. split; [assumption | now constructor].
Qed.

Lemma StronglySorted_rev_flip {A} (R : A -> A -> Prop) (l : list A) :
  StronglySorted (fun a b => R b a) l -> StronglySorted R (rev l).
Proof.
  induction 1 as [| a l Hs IH Ha]; simpl; [constructor | ].
  apply StronglySorted_snoc; [exact IH | ].
  apply Forall_forall. intros y Hy. apply in_rev in Hy.
  apply (proj1 (Forall_forall _ _) Ha y Hy).
Qed.

(** The indices returned by [argsort] are listed by value, ties in input
    order. *)
Lemma argsort_stable :
  StronglySorted (lex_lt v) (Np.argsort_indices (map Fin v)).
Proof.
  unfold Np.argsort_indices. apply StronglySorted_rev_flip.
  rewrite length_map.
  apply insert_all_descending; [lia | constructor | constructor].
Qed.

End ArgsortSorted.

Lemma StronglySorted_nth {A} (R : A -> A -> Prop) (l : list A) (d : A)
  (i j : nat) :
  StronglySorted R l -> i < j < length l -> R (nth i l d) (nth j l d).
Proof.
  intros H. revert i j. induction H as [| a l Hs IH Ha]; intros i j Hij.
  - simpl in Hij. lia.
  - destruct j as [| j]; [lia | ]. simpl in Hij. destruct i as [| i]; simpl.
    + apply (proj1 (Forall_forall _ _) Ha). apply nth_In. lia.
    + apply IH. lia.
Qed.

Lemma sorted_qvalues_nondecreasing (v : list Q) :
  nondecreasing (sorted_qvalues v).
Proof.
  intros i j Hij. rewrite sorted_qvalues_length in Hij.
  destruct (Nat.eq_dec i j) as [-> | Hne]; [apply Qle_refl | ].
  pose proof (argsort_stable v) as Hs.
  pose proof (argsort_length (map Fin v)) as Hl. rewrite length_map in Hl.
  assert (H := @StronglySorted_nth _ _ _ 0%nat i j Hs ltac:(lia)).
  unfold sorted_qvalues.
  set (idx := Np.argsort_indices (map Fin v)) in *.
  rewrite (nth_indep (map _ idx) 0%Q (nth 0%nat v 0%Q) (n:=i))
    by (rewrite length_map; lia).
  rewrite (nth_indep (map _ idx) 0%Q (nth 0%nat v 0%Q) (n:=j))
    by (rewrite length_map; lia).
  rewrite !(map_nth (fun i => nth i v 0%Q)).
  destruct H as [H | [H _]]; unfold key in H.
  - now apply Qlt_le_weak.
  - rewrite H. apply Qle_refl.
Qed.

(* ================================================================= *)
(** ** The normalised positions of finite weights *)

Section Positions.
Local Open Scope Q_scope.


Lemma raw_from_fins (acc : Q) (w : list Q) :
  Np.zip_with fsub (Np.cumsum_from (Fin acc) (map Fin w))
                   (Np.scale Fhalf (map Fin w))
  = map Fin (qraw_from acc w).
Proof.
  revert acc. induction w as [| x w IH]; intros acc; [reflexivity | ].
  cbn [map Np.cumsum_from Np.scale Np.zip_with qraw_from].
  cbn [fadd]. f_equal. apply IH.
Qed.

Lemma raw_positions_fins (w : list Q) :
  raw_positions (map Fin w) = map Fin (qraw w).
Proof.
  destruct w as [| x w]; [reflexivity | ].
  unfold raw_positions.
  cbn [map Np.cumsum_list Np.scale Np.zip_with qraw]. f_equal.
  apply raw_from_fins.
Qed.

Lemma qtotal_sum (w : list Q) : qtotal w == Qsum w.
Proof. unfold qtotal. rewrite fold_left_Qplus. ring. Qed.

Lemma positions_fins (w : list Q) :
  ~ Qsum w == 0 ->
  positions (map Fin w) false = map Fin (qpositions w).
Proof.
  intros H. unfold positions, qpositions, Np.div_scalar.
  rewrite raw_positions_fins, sum_list_fins, !map_map.
  apply map_ext. intros p. apply fdiv_fin.
  fold (qtotal w). now rewrite qtotal_sum.
Qed.

Lemma qraw_from_length (acc : Q) (w : list Q) :
  length (qraw_from acc w) = length w.
Proof. revert acc; induction w; intros; simpl; [ | rewrite IHw]; reflexivity. Qed.

Lemma qraw_length (w : list Q) : length (qraw w) = length w.
Proof. destruct w; simpl; [ | rewrite qraw_from_length]; reflexivity. Qed.

Lemma qpositions_length (w : list Q) : length (qpositions w) = length w.
Proof. unfold qpositions. now rewrite length_map, qraw_length. Qed.

(** Each raw position is the weight before the observation plus half of its
    own weight. *)
Lemma qraw_from_nth (acc : Q) (w : list Q) (j : nat) :
  (j < length w)%nat ->
  nth j (qraw_from acc w) 0 == acc + Qsum (firstn j w) + (1 # 2) * nth j w 0.
Proof.
  revert acc j. induction w as [| x w IH]; intros acc j Hj;
    [simpl in Hj; lia | ].
  destruct j as [| j]; simpl.
  - ring.
  - rewrite IH by (simpl in Hj; lia). ring.
Qed.

Lemma qraw_nth (w : list Q) (j : nat) :
  (j < length w)%nat ->
  nth j (qraw w) 0 == Qsum (firstn j w) + (1 # 2) * nth j w 0.
Proof.
  intros Hj. destruct w as [| x w]; [simpl in Hj; lia | ].
  destruct j as [| j]; simpl.
  - ring.
  - rewrite qraw_from_nth by (simpl in Hj; lia). ring.
Qed.

Lemma qpositions_nth (w : list Q) (j : nat) :
  (j < length w)%nat ->
  nth j (qpositions w) 0
  == (Qsum (firstn j w) + (1 # 2) * nth j w 0) / Qsum w.
Proof.
  intros Hj. unfold qpositions.
  rewrite (nth_indep _ 0 ((fun p => p / qtotal w) 0))
    by (now rewrite length_map, qraw_length).
  rewrite (map_nth (fun p => p / qtotal w)).
  now rewrite qraw_nth, qtotal_sum.
Qed.

Lemma Qsum_firstn_S (w : list Q) (j : nat) :
  (j < length w)%nat ->
  Qsum (firstn (S j) w) == Qsum (firstn j w) + nth j w 0.
Proof.
  revert j. induction w as [| x w IH]; intros j Hj; [simpl in Hj; lia | ].
  destruct j as [| j].
  - simpl. ring.
  - change (firstn (S (S j)) (x :: w)) with (x :: firstn (S j) w).
    change (firstn (S j) (x :: w)) with (x :: firstn j w).
    cbn [Qsum fold_right nth]. fold (Qsum (firstn (S j) w)).
    fold (Qsum (firstn j w)).
    rewrite IH by (simpl in Hj; lia). ring.
Qed.

Lemma nth_nonneg (w : list Q) (j : nat) :
  Forall (fun x => 0 <= x) w -> 0 <= nth j w 0.
Proof.
  intros H. destruct (Nat.lt_ge_cases j (length w)) as [Hj | Hj].
  - apply (proj1 (Forall_forall _ _) H). now apply nth_In.
  - rewrite nth_overflow by lia. apply Qle_refl.
Qed.

Lemma Qsum_firstn_nonneg (w : list Q) (j : nat) :
  Forall (fun x => 0 <= x) w -> 0 <= Qsum (firstn j w).
Proof.
  intros H. apply Qsum_nonneg. apply Forall_forall. intros x Hx.
  apply (proj1 (Forall_forall _ _) H).
  rewrite <- (firstn_skipn j w). apply in_or_app. now left.
Qed.

Lemma nondecreasing_of_steps (xp : list Q) :
  (forall i, (S i < length xp)%nat -> nth i xp 0 <= nth (S i) xp 0) ->
  nondecreasing xp.
Proof.
  intros Hstep i j [Hij Hj]. induction Hij as [| j Hij IH].
  - apply Qle_refl.
  - apply Qle_trans with (nth j xp 0); [apply IH; lia | apply Hstep; lia].
Qed.

Lemma Qdiv_le_compat (a b t : Q) : 0 < t -> a <= b -> a / t <= b / t.
Proof.
  intros Ht Hab. apply Qle_shift_div_l; [exact Ht | ].
  unfold Qdiv. rewrite <- Qmult_assoc, (Qmult_comm (/ t)), Qmult_inv_r by lra.
  lra.
Qed.

Lemma Qdiv_lt_compat (a b t : Q) : 0 < t -> a < b -> a / t < b / t.
Proof.
  intros Ht Hab. apply Qlt_shift_div_l; [exact Ht | ].
  unfold Qdiv. rewrite <- Qmult_assoc, (Qmult_comm (/ t)), Qmult_inv_r by lra.
  lra.
Qed.

Variable w : list Q.
Hypothesis w_nonneg : Forall (fun x => 0 <= x) w.
Hypothesis w_total : 0 < Qsum w.

Lemma qpositions_nondecreasing : nondecreasing (qpositions w).
Proof.
  apply nondecreasing_of_steps. intros i Hi.
  rewrite qpositions_length in Hi.
  rewrite !qpositions_nth by lia.
  apply Qdiv_le_compat; [exact w_total | ].
  rewrite Qsum_firstn_S by lia.
  pose proof (nth_nonneg i w_nonneg). pose proof (nth_nonneg (S i) w_nonneg).
  lra.
Qed.

Lemma qpositions_first_nonneg : 0 <= nth 0 (qpositions w) 0.
Proof.
  destruct (Nat.eq_dec (length w) 0) as [E | E].
  - rewrite nth_overflow; [apply Qle_refl | rewrite qpositions_length; lia].
  - rewrite qpositions_nth by lia. apply Qle_shift_div_l; [exact w_total | ].
    pose proof (nth_nonneg 0 w_nonneg). simpl Qsum. lra.
Qed.

Lemma qpositions_last_le_1 : nth (length w - 1) (qpositions w) 0 <= 1.
Proof.
  destruct (Nat.eq_dec (length w) 0) as [E | E].
  - rewrite nth_overflow; [lra | rewrite qpositions_length; lia].
  - rewrite qpositions_nth by lia. apply Qle_shift_div_r; [exact w_total | ].
    assert (Ht : Qsum w == Qsum (firstn (length w - 1) w)
                           + nth (length w - 1) w 0).
    { rewrite <- Qsum_firstn_S by lia.
      replace (S (length w - 1)) with (length w) by lia.
      now rewrite firstn_all. }
    pose proof (nth_nonneg (length w - 1) w_nonneg). lra.
Qed.

End Positions.

(* ================================================================= *)
(** ** The estimator on finite input, default normalisation *)

Section FiniteEstimator.
Local Open Scope Q_scope.


Lemma Forall_perm {A} (P : A -> Prop) (l l' : list A) :
  Permutation l l' -> Forall P l -> Forall P l'.
Proof.
  intros Hp H. apply Forall_forall. intros x Hx.
  apply (proj1 (Forall_forall _ _) H).
  apply (Permutation_in _ (Permutation_sym Hp) Hx).
Qed.

Lemma counts_nonneg (w : list Q) :
  counts w -> Forall (fun x => 0 <= x) w.
Proof.
  intros [H _]. eapply Forall_impl; [ | exact H]. now intros x [Hx _].
Qed.

(** Non-empty values, as many non-negative weights of positive total,
    quantiles in the unit interval: every stage succeeds and the estimates
    are the values of the curve through the knots (normalised position,
    sorted value). *)
Lemma estimator_finite (v w q : list Q) :
  v <> [] -> length w = length v ->
  Forall (fun x => 0 <= x) w -> 0 < Qsum w -> unit_quantiles q ->
  exists ys,
    weighted_quantile_1d (map Fin v) (map Fin q) (Some (map Fin w))
                         false false
    = ([EvEstimator1D; EvArgsort; EvTake; EvTake; EvCumsum; EvSum; EvInterp],
       Ok (map Fin ys)) /\
    Forall2 (interp_spec (qpositions (sorted_qweights v w))
                         (sorted_qvalues v)) q ys.
Proof.
  intros Hv Hlen Hnonneg Htotal Hq.
  assert (Hv' : map Fin v <> []) by (destruct v; [congruence | discriminate]).
  assert (Hlen' : length (weights_or_ones (map Fin v) (Some (map Fin w)))
                  = length (map Fin v))
    by (simpl; now rewrite !length_map).
  rewrite (estimator_unsorted _ false Hv' Hlen' (in_unit_interval_fins Hq)).
  cbn [weights_or_ones].
  rewrite sorted_values_fins, (sorted_weights_fins v w Hlen).
  pose proof (sorted_qweights_perm v w Hlen) as Hperm.
  assert (Hsum : Qsum (sorted_qweights v w) == Qsum w) by now apply Qsum_perm.
  assert (Hnn : Forall (fun x => 0 <= x) (sorted_qweights v w))
    by (apply (Forall_perm (Permutation_sym Hperm)); assumption).
  rewrite positions_fins by (rewrite Hsum; lra).
  destruct (@interp_values_spec (qpositions (sorted_qweights v w))
              (sorted_qvalues v) q) as [ys [Hys Hspec]].
  - intros E. apply (f_equal (@length _)) in E.
    rewrite qpositions_length, sorted_qweights_length in E.
    destruct v; [congruence | discriminate].
  - apply qpositions_nondecreasing; [assumption | now rewrite Hsum].
  - now rewrite qpositions_length, sorted_qweights_length,
      sorted_qvalues_length.
  - exists ys. rewrite Hys. split; [reflexivity | exact Hspec].
Qed.

End FiniteEstimator.

(* ================================================================= *)
(** ** C6: the boundary quantiles *)

Section Boundary.
Local Open Scope Q_scope.


Lemma leading_zeros_sum (w : list Q) (k : nat) :
  (k <= leading_zeros w)%nat -> Qsum (firstn k w) == 0.
Proof.
  revert k. induction w as [| x w IH]; intros k Hk.
  - now rewrite firstn_nil.
  - destruct k as [| k]; [reflexivity | ]. simpl in Hk.
    destruct (Qeq_bool x 0) eqn:E; [ | lia].
    apply Qeq_bool_iff in E. simpl. rewrite IH by lia. lra.
Qed.

Lemma sum_leading_zeros (w : list Q) (k : nat) :
  Forall (fun x => 0 <= x) w -> (k <= length w)%nat ->
  Qsum (firstn k w) == 0 -> (k <= leading_zeros w)%nat.
Proof.
  intros Hw. revert k. induction Hw as [| x w Hx Hw IH]; intros k Hk Hs.
  - simpl in Hk. lia.
  - destruct k as [| k]; [lia | ]. simpl in Hs, Hk.
    pose proof (Qsum_firstn_nonneg k Hw).
    assert (Ex : x == 0) by lra.
    simpl. rewrite (proj2 (Qeq_bool_iff x 0) Ex).
    apply le_n_S, IH; [lia | lra].
Qed.

Lemma nth_sorted_in (v : list Q) (i : nat) :
  (i < length v)%nat -> In (nth i (sorted_qvalues v) 0) v.
Proof.
  intros Hi. apply (Permutation_in _ (sorted_qvalues_perm v)).
  apply nth_In. now rewrite sorted_qvalues_length.
Qed.

Lemma sorted_last_is_maximum (v : list Q) (y : Q) :
  v <> [] -> y == nth (length v - 1) (sorted_qvalues v) 0 -> is_maximum v y.
Proof.
  intros Hv Hy.
  assert (Hn : (0 < length v)%nat) by (destruct v; [congruence | simpl; lia]).
  split.
  - eexists. split; [apply (@nth_sorted_in v (length v - 1)); lia | exact Hy].
  - apply Forall_forall. intros x Hx.
    apply (Permutation_in _ (Permutation_sym (sorted_qvalues_perm v))) in Hx.
    destruct (In_nth _ _ 0 Hx) as [i [Hi <-]].
    rewrite sorted_qvalues_length in Hi. rewrite Hy.
    apply sorted_qvalues_nondecreasing. rewrite sorted_qvalues_length. lia.
Qed.

Lemma sorted_first_is_minimum (v : list Q) (y : Q) :
  v <> [] -> y == nth 0 (sorted_qvalues v) 0 -> is_minimum v y.
Proof.
  intros Hv Hy.
  assert (Hn : (0 < length v)%nat) by (destruct v; [congruence | simpl; lia]).
  split.
  - eexists. split; [apply (@nth_sorted_in v 0); lia | exact Hy].
  - apply Forall_forall. intros x Hx.
    apply (Permutation_in _ (Permutation_sym (sorted_qvalues_perm v))) in Hx.
    destruct (In_nth _ _ 0 Hx) as [i [Hi <-]].
    rewrite sorted_qvalues_length in Hi. rewrite Hy.
    apply sorted_qvalues_nondecreasing. rewrite sorted_qvalues_length. lia.
Qed.

Variables (w fp : list Q).
Hypothesis w_nonneg : Forall (fun x => 0 <= x) w.
Hypothesis w_total : 0 < Qsum w.
Hypothesis w_nonempty : (0 < length w)%nat.

(** The curve at quantile 1 is the value of the last knot. *)
Lemma curve_at_one (y : Q) :
  interp_spec (qpositions w) fp 1 y -> y == nth (length w - 1) fp 0.
Proof.
  pose proof (qpositions_last_le_1 w_nonneg w_total) as Hlast.
  pose proof (qpositions_nondecreasing w_nonneg w_total) as Hs.
  unfold interp_spec. rewrite qpositions_length.
  intros [[Hlt _] | [[_ Hy] | [j [Hj [_ [Hlt _]]]]]].
  - exfalso. apply (Qlt_irrefl 1).
    apply Qlt_le_trans with (nth 0 (qpositions w) 0); [exact Hlt | ].
    apply Qle_trans with (nth (length w - 1) (qpositions w) 0);
      [ | exact Hlast].
    apply Hs. rewrite qpositions_length. lia.
  - exact Hy.
  - exfalso. apply (Qlt_irrefl 1).
    apply Qlt_le_trans with (nth (S j) (qpositions w) 0); [exact Hlt | ].
    apply Qle_trans with (nth (length w - 1) (qpositions w) 0);
      [ | exact Hlast].
    apply Hs. rewrite qpositions_length. lia.
Qed.

Lemma raw_zero_iff (j : nat) :
  (j < length w)%nat ->
  (nth j (qpositions w) 0 <= 0 <-> Qsum (firstn (S j) w) == 0).
Proof.
  intros Hj. rewrite (Qsum_firstn_S _ Hj).
  pose proof (Qsum_firstn_nonneg j w_nonneg) as H1.
  pose proof (nth_nonneg j w_nonneg) as H2.
  set (s := Qsum (firstn j w)) in *. set (x := nth j w 0) in *.
  assert (Hp : nth j (qpositions w) 0 == (s + (1 # 2) * x) / Qsum w)
    by (now apply qpositions_nth).
  split.
  - intros Hle. rewrite Hp in Hle.
    assert (Hnum : s + (1 # 2) * x <= 0).
    { destruct (Qlt_le_dec 0 (s + (1 # 2) * x)) as [Hpos | ]; [ | assumption].
      exfalso. apply (Qlt_irrefl 0).
      apply Qlt_le_trans with ((s + (1 # 2) * x) / Qsum w); [ | exact Hle].
      apply Qlt_shift_div_l; [exact w_total | lra]. }
    lra.
  - intros Hz. rewrite Hp. apply Qle_shift_div_r; [exact w_total | lra].
Qed.

(** The curve at quantile 0 is the value of the last knot of the leading
    run of zero-weight knots, and the value of the first knot when the
    first weight is positive. *)
Lemma curve_at_zero (y : Q) :
  length fp = length w ->
  interp_spec (qpositions w) fp 0 y ->
  y == nth (pred (leading_zeros w)) fp 0.
Proof.
  intros Hlen.
  pose proof (qpositions_nondecreasing w_nonneg w_total) as Hs.
  unfold interp_spec. rewrite qpositions_length.
  intros [[Hlt Hy] | [[Hle _] | [j [Hj [Hle [Hlt Hy]]]]]].
  - (* the first weight is positive *)
    assert (Hz : ~ (1 <= leading_zeros w)%nat).
    { intros H1. apply leading_zeros_sum in H1.
      apply (raw_zero_iff w_nonempty) in H1. lra. }
    replace (leading_zeros w) with 0%nat by lia. exact Hy.
  - (* every position would be <= 0 *)
    exfalso.
    assert (Hn : (length w - 1 < length w)%nat) by lia.
    apply (raw_zero_iff Hn) in Hle.
    replace (S (length w - 1)) with (length w) in Hle by lia.
    rewrite firstn_all in Hle. lra.
  - assert (Hj0 : (j < length w)%nat) by lia.
    assert (Hzero : Qsum (firstn (S j) w) == 0)
      by (now apply (raw_zero_iff Hj0)).
    assert (H1 : (S j <= leading_zeros w)%nat)
      by (apply sum_leading_zeros; [assumption | lia | assumption]).
    assert (H2 : ~ (S (S j) <= leading_zeros w)%nat).
    { intros H. apply leading_zeros_sum in H.
      apply (raw_zero_iff Hj) in H. lra. }
    replace (pred (leading_zeros w)) with j by lia.
    assert (Hpj : nth j (qpositions w) 0 == 0).
    { apply Qle_antisym; [exact Hle | ].
      apply Qle_trans with (nth 0 (qpositions w) 0).
      - apply (qpositions_first_nonneg w_nonneg w_total).
      - apply Hs. rewrite qpositions_length. lia. }
    rewrite Hy, Hpj.
    field. lra.
Qed.

End Boundary.

Section BoundaryClaim.
Local Open Scope Q_scope.

Lemma interp_spec_query (xp fp : list Q) (x x' y : Q) :
  x == x' -> interp_spec xp fp x y -> interp_spec xp fp x' y.
Proof.
  intros E. unfold interp_spec.
  intros [[H1 H2] | [[H1 H2] | [j [Hj [H1 [H2 H3]]]]]].
  - left. rewrite <- E. now split.
  - right; left. rewrite <- E. now split.
  - right; right. exists j. rewrite <- E. repeat split; assumption.
Qed.

(** C6 (as the code behaves).  Non-empty values of moderate magnitude, as
    many weights that are counts of positive total, observations of equal
    value carrying equal weight, default normalisation, any quantile
    sequence in the unit interval.  The estimate of every quantile equal to
    1 is the maximum of the values.  The estimate of every quantile equal
    to 0 is the value of the last observation of the leading run of
    zero-weight observations in sorted order (the first sorted value when
    that run is empty); it is the minimum of the values when at most one
    zero-weight observation is sorted before the first observation of
    positive weight. *)
Theorem boundary_quantiles (v w q : list Q) :
  v <> [] -> length w = length v ->
  ties_identical v w -> counts w -> 0 < Qsum w -> moderate v ->
  unit_quantiles q ->
  exists ys,
    outcome (weighted_quantile_1d (map Fin v) (map Fin q)
               (Some (map Fin w)) false false) = Ok (map Fin ys) /\
    Forall2
      (fun x y =>
         (x == 1 -> is_maximum v y) /\
         (x == 0 ->
          y == nth (pred (leading_zeros (sorted_qweights v w)))
                   (sorted_qvalues v) 0 /\
          ((leading_zeros (sorted_qweights v w) <= 1)%nat ->
           is_minimum v y)))
      q ys.
Proof.
  intros Hv Hlen _ Hcounts Htotal _ Hq.
  pose proof (counts_nonneg Hcounts) as Hnonneg.
  destruct (estimator_finite Hv Hlen Hnonneg Htotal Hq) as [ys [Hrun Hspec]].
  exists ys. rewrite Hrun. split; [reflexivity | ].
  pose proof (sorted_qweights_perm v w Hlen) as Hperm.
  assert (Hsum : 0 < Qsum (sorted_qweights v w))
    by (now rewrite (Qsum_perm Hperm)).
  assert (Hnn : Forall (fun x => 0 <= x) (sorted_qweights v w))
    by (apply (Forall_perm (Permutation_sym Hperm)); assumption).
  assert (Hn : (0 < length (sorted_qweights v w))%nat).
  { rewrite sorted_qweights_length. destruct v; [congruence | simpl; lia]. }
  eapply Forall2_impl; [ | exact Hspec].
  intros x y Hxy. split.
  - intros Hx. apply (interp_spec_query Hx) in Hxy.
    apply (curve_at_one Hnn Hsum Hn) in Hxy.
    rewrite sorted_qweights_length in Hxy.
    now apply sorted_last_is_maximum.
  - intros Hx. apply (interp_spec_query Hx) in Hxy.
    apply (curve_at_zero Hnn Hsum Hn) in Hxy;
      [ | now rewrite sorted_qvalues_length, sorted_qweights_length].
    split; [exact Hxy | ].
    intros Hrun1. apply sorted_first_is_minimum; [exact Hv | ].
    now replace (pred (leading_zeros (sorted_qweights v w))) with 0%nat
      in Hxy by lia.
Qed.

Lemma boundary_quantiles_witness :
  exists ys,
    outcome (weighted_quantile_1d (map Fin [3%Q; 1%Q; 2%Q]) (map Fin [0%Q; 1%Q; (1 # 2)%Q])
               (Some (map Fin [2%Q; 0%Q; 1%Q])) false false) = Ok (map Fin ys) /\
    Forall2
      (fun x y =>
         (x == 1 -> is_maximum [3%Q; 1%Q; 2%Q] y) /\
         (x == 0 ->
          y == nth (pred (leading_zeros (sorted_qweights [3%Q; 1%Q; 2%Q] [2%Q; 0%Q; 1%Q])))
                   (sorted_qvalues [3%Q; 1%Q; 2%Q]) 0 /\
          ((leading_zeros (sorted_qweights [3%Q; 1%Q; 2%Q] [2%Q; 0%Q; 1%Q]) <= 1)%nat ->
           is_minimum [3%Q; 1%Q; 2%Q] y)))
      [0%Q; 1%Q; (1 # 2)%Q] ys.
Proof.
  apply (@boundary_quantiles [3%Q; 1%Q; 2%Q] [2%Q; 0%Q; 1%Q] [0%Q; 1%Q; (1 # 2)%Q]).
  - discriminate.
  - reflexivity.
  - intros p p' Hp Hp' E. simpl in Hp, Hp'.
    repeat match goal with
           | H : _ \/ _ |- _ => destruct H as [H | H]
           | H : False |- _ => contradiction
           end; subst; try reflexivity; discriminate.
  - split; [repeat constructor; discriminate | discriminate].
  - reflexivity.
  - repeat constructor; discriminate.
  - repeat constructor; discriminate.
Defined.

(** C6, counterexample.  values = [1, 2, 3], weights = [0, 0, 1]: the
    weights are non-negative with total 1, and quantile 0 returns 2, which
    is not the minimum 1 of the values. *)
Lemma quantile_zero_not_minimum :
  Forall (fun x => 0 <= x) [0; 0; 1] /\ 0 < Qsum [0; 0; 1] /\
  weighted_quantile_1d (map Fin [1; 2; 3]) [Fin 0]
                       (Some (map Fin [0; 0; 1])) false false
  = ([EvEstimator1D; EvArgsort; EvTake; EvTake; EvCumsum; EvSum; EvInterp],
     Ok [Fin 2]) /\
  ~ is_minimum [1; 2; 3] 2.
Proof.
  split; [repeat constructor; discriminate | ].
  split; [reflexivity | ]. split; [reflexivity | ].
  intros [_ H]. inversion H as [| ? ? H1 _]; subst.
  apply (Qlt_not_le _ _ (eq_refl : 1 < 2)). exact H1.
Qed.

End BoundaryClaim.

(* ================================================================= *)
(** ** The legacy normalisation on finite weights *)

Section LegacyPositions.
Local Open Scope Q_scope.


Lemma qshifted_length (w : list Q) : length (qshifted w) = length w.
Proof. unfold qshifted. now rewrite length_map, qraw_length. Qed.

Lemma nth_fins (l : list Q) (i : nat) :
  (i < length l)%nat -> nth i (map Fin l) NaN = Fin (nth i l 0).
Proof.
  intros H. rewrite (nth_indep _ NaN (Fin 0)) by (now rewrite length_map).
  apply (map_nth Fin).
Qed.

Lemma positions_old_fins (w : list Q) :
  w <> [] -> ~ nth (length w - 1) (qshifted w) 0 == 0 ->
  positions (map Fin w) true = map Fin (qpositions_old w).
Proof.
  intros Hw Hlast.
  assert (Hn : (0 < length w)%nat) by (destruct w; [congruence | simpl; lia]).
  unfold positions, Np.div_scalar, Np.sub_scalar.
  rewrite raw_positions_fins.
  rewrite nth_fins by (rewrite qraw_length; lia).
  rewrite !length_map, qraw_length.
  assert (Hshift : map (fun x => fsub x (Fin (nth 0 (qraw w) 0)))
                       (map Fin (qraw w)) = map Fin (qshifted w)).
  { unfold qshifted. rewrite !map_map. reflexivity. }
  rewrite Hshift.
  rewrite nth_fins by (rewrite qshifted_length; lia).
  unfold qpositions_old. rewrite !map_map.
  apply map_ext. intros p. now apply fdiv_fin.
Qed.

Lemma Qsum_repeat_one (j n : nat) :
  (j <= n)%nat -> Qsum (firstn j (repeat 1 n)) == inject_Z (Z.of_nat j).
Proof.
  revert n. induction j as [| j IH]; intros n Hj.
  - reflexivity.
  - destruct n as [| n]; [lia | ].
    cbn [repeat firstn Qsum fold_right]. fold (Qsum (firstn j (repeat 1 n))).
    rewrite IH by lia. rewrite Nat2Z.inj_succ, <- Z.add_1_l, inject_Z_plus.
    reflexivity.
Qed.

Lemma nth_repeat_lt {A} (a d : A) (n i : nat) :
  (i < n)%nat -> nth i (repeat a n) d = a.
Proof.
  revert i. induction n as [| n IH]; intros [| i] H; simpl; try lia;
    [reflexivity | apply IH; lia].
Qed.

Lemma qraw_ones_nth (n j : nat) :
  (j < n)%nat ->
  nth j (qraw (repeat 1 n)) 0 == inject_Z (Z.of_nat j) + (1 # 2).
Proof.
  intros Hj. rewrite qraw_nth by (now rewrite repeat_length).
  rewrite Qsum_repeat_one by lia. rewrite nth_repeat_lt by lia. ring.
Qed.

Lemma qshifted_ones_nth (n j : nat) :
  (j < n)%nat ->
  nth j (qshifted (repeat 1 n)) 0 == inject_Z (Z.of_nat j).
Proof.
  intros Hj. unfold qshifted.
  set (r0 := nth 0 (qraw (repeat 1 n)) 0).
  rewrite (nth_indep _ 0 ((fun p => p + - r0) 0))
    by (now rewrite length_map, qraw_length, repeat_length).
  rewrite (map_nth (fun p => p + - r0)).
  unfold r0. rewrite !qraw_ones_nth by lia. simpl Z.of_nat. ring.
Qed.

(** With [n >= 2] unit weights the legacy positions are [j / (n - 1)]. *)
Lemma qpositions_old_ones_nth (n j : nat) :
  (2 <= n)%nat -> (j < n)%nat ->
  nth j (qpositions_old (repeat 1 n)) 0
  == inject_Z (Z.of_nat j) / inject_Z (Z.of_nat (n - 1)).
Proof.
  intros Hn Hj. unfold qpositions_old. rewrite repeat_length.
  set (d := nth (n - 1) (qshifted (repeat 1 n)) 0).
  rewrite (nth_indep _ 0 ((fun p => p / d) 0))
    by (now rewrite length_map, qshifted_length, repeat_length).
  rewrite (map_nth (fun p => p / d)).
  unfold d. rewrite !qshifted_ones_nth by lia. reflexivity.
Qed.

Lemma inject_nat_pos (n : nat) :
  (0 < n)%nat -> 0 < inject_Z (Z.of_nat n).
Proof.
  intros H. change 0 with (inject_Z 0). rewrite <- Zlt_Qlt. lia.
Qed.

Lemma positions_old_ones (n : nat) :
  (2 <= n)%nat ->
  positions (Np.ones n) true = map Fin (qpositions_old (repeat 1 n)).
Proof.
  intros Hn. unfold Np.ones, F1.
  replace (repeat (Fin 1) n) with (map Fin (repeat 1 n))
    by apply map_repeat.
  apply positions_old_fins.
  - destruct n; [lia | discriminate].
  - rewrite repeat_length, qshifted_ones_nth by lia.
    pose proof (@inject_nat_pos (n - 1) ltac:(lia)). lra.
Qed.

Lemma qpositions_old_length (w : list Q) :
  length (qpositions_old w) = length w.
Proof. unfold qpositions_old. now rewrite length_map, qshifted_length. Qed.

Lemma qpositions_old_ones_nondecreasing (n : nat) :
  (2 <= n)%nat -> nondecreasing (qpositions_old (repeat 1 n)).
Proof.
  intros Hn. apply nondecreasing_of_steps. intros i Hi.
  rewrite qpositions_old_length, repeat_length in Hi.
  rewrite !qpositions_old_ones_nth by lia.
  apply Qdiv_le_compat; [apply inject_nat_pos; lia | ].
  rewrite <- Zle_Qle. lia.
Qed.

Lemma sorted_unit_weights (v : list fnum) :
  sorted_weights v (Np.ones (length v)) = Np.ones (length v).
Proof.
  unfold sorted_weights, Np.ones.
  assert (H : forall idx n, Forall (fun i => (i < n)%nat) idx ->
              map (fun i => nth i (repeat F1 n) NaN) idx
              = repeat F1 (length idx)).
  { intros idx n. induction 1 as [| i l Hi _ IH]; simpl; [reflexivity | ].
    rewrite IH. f_equal. now apply nth_repeat_lt. }
  rewrite (H _ _ (argsort_bound v)). now rewrite argsort_length.
Qed.

End LegacyPositions.

(* ================================================================= *)
(** ** C7: unit weights and legacy normalisation *)

Section UniformLegacy.
Local Open Scope Q_scope.


Lemma Qfloor_unique (x : Q) (z : Z) :
  inject_Z z <= x -> x < inject_Z z + 1 -> Qfloor x = z.
Proof.
  intros Hle Hlt.
  pose proof (Qfloor_le x) as H1. pose proof (Qlt_floor x) as H2.
  rewrite inject_Z_plus in H2. change (inject_Z 1) with 1 in H2.
  assert (Ha : (z < Qfloor x + 1)%Z).
  { rewrite Zlt_Qlt, inject_Z_plus. change (inject_Z 1) with 1. lra. }
  assert (Hb : (Qfloor x < z + 1)%Z).
  { rewrite Zlt_Qlt, inject_Z_plus. change (inject_Z 1) with 1. lra. }
  lia.
Qed.

Lemma curve_is_percentile (fp : list Q) (x y : Q) :
  (2 <= length fp)%nat -> 0 <= x <= 1 ->
  interp_spec (qpositions_old (repeat 1 (length fp))) fp x y ->
  y == percentile_linear fp x.
Proof.
  intros Hn [Hx0 Hx1].
  set (n := length fp) in *.
  set (m := inject_Z (Z.of_nat (n - 1))).
  assert (Hm : 0 < m) by (apply inject_nat_pos; lia).
  assert (HP : forall j, (j < n)%nat ->
               nth j (qpositions_old (repeat 1 n)) 0
               == inject_Z (Z.of_nat j) / m)
    by (intros j Hj; now apply qpositions_old_ones_nth).
  unfold interp_spec. rewrite qpositions_old_length, repeat_length.
  intros [[Hlt _] | [[Hle Hy] | [j [Hj [Hle [Hlt Hy]]]]]].
  - exfalso. rewrite HP in Hlt by lia. simpl Z.of_nat in Hlt.
    assert (E : inject_Z 0 / m == 0) by (field; lra). lra.
  - rewrite HP in Hle by lia. fold m in Hle.
    assert (E : m / m == 1) by (field; lra).
    assert (Hx : x == 1) by lra.
    assert (Hh : x * m == inject_Z (Z.of_nat (n - 1))) by (rewrite Hx; unfold m; ring).
    assert (Hfl : Qfloor (x * m) = Z.of_nat (n - 1))
      by (rewrite Hh; apply Qfloor_Z).
    unfold percentile_linear. fold n. fold m. cbv zeta. rewrite Hfl.
    rewrite Nat2Z.id. rewrite Hy, Hh. ring.
  - rewrite HP in Hle by lia. rewrite HP in Hlt by lia.
    assert (HSj : inject_Z (Z.of_nat (S j)) == inject_Z (Z.of_nat j) + 1).
    { rewrite Nat2Z.inj_succ, <- Z.add_1_r, inject_Z_plus. reflexivity. }
    set (k := inject_Z (Z.of_nat j)) in *.
    assert (Hlo : k <= x * m).
    { assert (E : k / m * m == k) by (field; lra).
      rewrite <- E. apply Qmult_le_compat_r; [exact Hle | lra]. }
    assert (Hhi : x * m < k + 1).
    { assert (E : inject_Z (Z.of_nat (S j)) / m * m == k + 1)
        by (rewrite HSj; field; lra).
      rewrite <- E. apply Qmult_lt_compat_r; [exact Hm | exact Hlt]. }
    assert (Hfl : Qfloor (x * m) = Z.of_nat j)
      by (apply Qfloor_unique; assumption).
    unfold percentile_linear. fold n. fold m. cbv zeta. rewrite Hfl.
    rewrite Nat2Z.id. replace (Nat.min (S j) (n - 1)) with (S j) by lia.
    fold k. rewrite Hy, !HP by lia. fold k. rewrite HSj.
    field. split; lra.
Qed.

(** C7.  For at least two values of moderate magnitude, unit weights,
    legacy normalisation and quantiles in the unit interval, each returned
    estimate is the classic linear-interpolation percentile of the
    ascending values at the fractional index [q * (n - 1)]. *)
Theorem uniform_legacy_is_percentile (v q : list Q) :
  (2 <= length v)%nat -> moderate v -> unit_quantiles q ->
  exists ys,
    outcome (weighted_quantile_1d (map Fin v) (map Fin q)
               (Some (Np.ones (length v))) false true) = Ok (map Fin ys) /\
    Forall2 (fun x y => y == percentile_linear (sorted_qvalues v) x) q ys /\
    Permutation (sorted_qvalues v) v /\
    nondecreasing (sorted_qvalues v).
Proof.
  intros Hn _ Hq.
  assert (Hv' : map Fin v <> []) by (destruct v; [simpl in Hn; lia | discriminate]).
  assert (Hlen' : length (weights_or_ones (map Fin v)
                            (Some (Np.ones (length v))))
                  = length (map Fin v)).
  { simpl. unfold Np.ones. now rewrite repeat_length, length_map. }
  rewrite (estimator_unsorted _ true Hv' Hlen' (in_unit_interval_fins Hq)).
  cbn [weights_or_ones outcome snd].
  replace (Np.ones (length v)) with (Np.ones (length (map Fin v)))
    by (now rewrite length_map).
  rewrite sorted_unit_weights, length_map, sorted_values_fins.
  rewrite (positions_old_ones Hn).
  destruct (@interp_values_spec (qpositions_old (repeat 1 (length v)))
              (sorted_qvalues v) q) as [ys [Hys Hspec]].
  - intros E. apply (f_equal (@length _)) in E.
    rewrite qpositions_old_length, repeat_length in E. simpl in E. lia.
  - now apply qpositions_old_ones_nondecreasing.
  - now rewrite qpositions_old_length, repeat_length, sorted_qvalues_length.
  - exists ys. rewrite Hys. split; [reflexivity | ].
    split; [ | split; [apply sorted_qvalues_perm
                      | apply sorted_qvalues_nondecreasing]].
    assert (Hboth : Forall2 (fun x y => 0 <= x <= 1 /\
                       interp_spec (qpositions_old (repeat 1 (length v)))
                                   (sorted_qvalues v) x y) q ys).
    { clear Hys. induction Hspec as [| x y q' ys' Hxy _ IH];
        [constructor | ].
      inversion Hq; subst. constructor; [now split | now apply IH]. }
    eapply Forall2_impl; [ | exact Hboth].
    intros x y [Hx Hxy]. cbv beta.
    rewrite <- (sorted_qvalues_length v) in Hxy.
    apply curve_is_percentile; [ | exact Hx | exact Hxy].
    now rewrite sorted_qvalues_length.
Qed.

Lemma uniform_legacy_is_percentile_witness :
  exists ys,
    outcome (weighted_quantile_1d (map Fin [5%Q; 1%Q; 3%Q; 2%Q])
               (map Fin [(1 # 2)%Q; 0%Q; 1%Q; (1 # 4)%Q])
               (Some (Np.ones (length [5%Q; 1%Q; 3%Q; 2%Q]))) false true)
      = Ok (map Fin ys) /\
    Forall2 (fun x y =>
               y == percentile_linear
                      (sorted_qvalues [5%Q; 1%Q; 3%Q; 2%Q]) x)
            [(1 # 2)%Q; 0%Q; 1%Q; (1 # 4)%Q] ys /\
    Permutation (sorted_qvalues [5%Q; 1%Q; 3%Q; 2%Q])
                [5%Q; 1%Q; 3%Q; 2%Q] /\
    nondecreasing (sorted_qvalues [5%Q; 1%Q; 3%Q; 2%Q]).
Proof.
  apply (@uniform_legacy_is_percentile
           [5%Q; 1%Q; 3%Q; 2%Q] [(1 # 2)%Q; 0%Q; 1%Q; (1 # 4)%Q]).
  - simpl. lia.
  - repeat constructor; discriminate.
  - repeat constructor; discriminate.
Defined.

End UniformLegacy.

(* ================================================================= *)
(** ** C4: joint permutations of the observations *)

Section PermutationInvariance.
Local Open Scope Q_scope.


Lemma sorted_pairs_fst (v w : list Q) :
  map fst (sorted_pairs v w) = sorted_qvalues v.
Proof. unfold sorted_pairs, sorted_qvalues. now rewrite map_map. Qed.

Lemma sorted_pairs_snd (v w : list Q) :
  map snd (sorted_pairs v w) = sorted_qweights v w.
Proof. unfold sorted_pairs, sorted_qweights. now rewrite map_map. Qed.

Lemma sorted_pairs_perm (v w : list Q) :
  length w = length v -> Permutation (sorted_pairs v w) (combine v w).
Proof.
  intros Hlen. unfold sorted_pairs.
  assert (E : forall idx,
             map (fun i => (nth i v 0, nth i w 0)) idx
             = map (fun i => nth i (combine v w) (0, 0)) idx).
  { intros idx. apply map_ext. intros i. symmetry.
    apply combine_nth. now symmetry. }
  rewrite E. apply reorder_perm.
  rewrite length_combine, Hlen, Nat.min_id.
  generalize (argsort_perm (map Fin v)). now rewrite length_map.
Qed.

Lemma StronglySorted_map {A B} (R : B -> B -> Prop) (f : A -> B)
  (l : list A) :
  StronglySorted (fun a b => R (f a) (f b)) l -> StronglySorted R (map f l).
Proof.
  induction 1 as [| a l Hs IH Ha]; simpl; constructor; [exact IH | ].
  apply Forall_forall. intros y Hy. apply in_map_iff in Hy.
  destruct Hy as [x [<- Hx]]. apply (proj1 (Forall_forall _ _) Ha x Hx).
Qed.

Lemma StronglySorted_weaken {A} (R R' : A -> A -> Prop) (l : list A) :
  (forall a b, R a b -> R' a b) -> StronglySorted R l -> StronglySorted R' l.
Proof.
  intros HR. induction 1 as [| a l Hs IH Ha]; constructor; [exact IH | ].
  eapply Forall_impl; [ | exact Ha]. intros b. apply HR.
Qed.

Lemma sorted_pairs_sorted (v w : list Q) :
  StronglySorted le_fst (sorted_pairs v w).
Proof.
  unfold sorted_pairs. apply StronglySorted_map.
  apply (StronglySorted_weaken (R:=lex_lt v)); [ | apply argsort_stable].
  unfold lex_lt, le_fst, key. cbn [fst].
  intros a b [H | [H _]]; [now apply Qlt_le_weak | rewrite H; apply Qle_refl].
Qed.

(** Two ascending arrangements of the same observations are the same list
    when observations of equal value are identical. *)
Lemma sorted_perm_unique (l1 l2 : list (Q * Q)) :
  StronglySorted le_fst l1 -> StronglySorted le_fst l2 ->
  Permutation l1 l2 ->
  (forall p p', In p l1 -> In p' l1 -> fst p == fst p' -> p = p') ->
  l1 = l2.
Proof.
  intros H1. revert l2. induction H1 as [| a t1 Hs1 IH Ha]; intros l2 H2 Hp Htie.
  - now apply Permutation_nil in Hp.
  - destruct l2 as [| b t2];
      [apply Permutation_sym, Permutation_nil in Hp; discriminate | ].
    inversion H2 as [| ? ? Hs2 Hb]; subst.
    assert (Hab : a = b).
    { assert (Hbin : In b (a :: t1))
        by (apply (Permutation_in _ (Permutation_sym Hp)); now left).
      assert (Hain : In a (b :: t2))
        by (apply (Permutation_in _ Hp); now left).
      apply Htie; [now left | exact Hbin | ].
      apply Qle_antisym.
      - destruct Hbin as [<- | Hin]; [apply Qle_refl | ].
        apply (proj1 (Forall_forall _ _) Ha b Hin).
      - destruct Hain as [<- | Hin]; [apply Qle_refl | ].
        apply (proj1 (Forall_forall _ _) Hb a Hin). }
    subst b. f_equal. apply IH; [exact Hs2 | | ].
    + now apply Permutation_cons_inv in Hp.
    + intros p p' Hin Hin'. apply Htie; now right.
Qed.


Lemma sorted_pairs_invariant (v w v' w' : list Q) :
  length w = length v -> length w' = length v' ->
  Permutation (combine v w) (combine v' w') ->
  ties_identical v w ->
  sorted_pairs v' w' = sorted_pairs v w.
Proof.
  intros Hlen Hlen' Hperm Htie. symmetry. apply sorted_perm_unique.
  - apply sorted_pairs_sorted.
  - apply sorted_pairs_sorted.
  - rewrite (sorted_pairs_perm _ _ Hlen), (sorted_pairs_perm _ _ Hlen').
    exact Hperm.
  - intros p p' Hp Hp'. apply Htie.
    + apply (Permutation_in _ (sorted_pairs_perm _ _ Hlen) Hp).
    + apply (Permutation_in _ (sorted_pairs_perm _ _ Hlen) Hp').
Qed.

Lemma snd_combine (v w : list Q) :
  length w = length v -> map snd (combine v w) = w.
Proof.
  revert w. induction v as [| a v IH]; intros [| b w] H;
    simpl in *; try discriminate; [reflexivity | ].
  f_equal. apply IH. lia.
Qed.

(** C4 (as the code behaves).  With [values_sorted=False], a joint
    permutation of the observations leaves the whole outcome of the
    estimator unchanged, for every quantile sequence and either
    normalisation, provided observations of equal value are identical (in
    particular when the values are pairwise distinct). *)
Theorem permutation_invariance (v w v' w' : list Q) (q : list fnum)
  (old_style : bool) :
  length w = length v -> length w' = length v' ->
  Permutation (combine v w) (combine v' w') ->
  ties_identical v w ->
  weighted_quantile_1d (map Fin v') q (Some (map Fin w')) false old_style
  = weighted_quantile_1d (map Fin v) q (Some (map Fin w)) false old_style.
Proof.
  intros Hlen Hlen' Hperm Htie.
  pose proof (@sorted_pairs_invariant v w v' w' Hlen Hlen' Hperm Htie) as E.
  unfold weighted_quantile_1d.
  rewrite !sort_jointly_ok by (rewrite !length_map; lia).
  rewrite !sorted_values_fins.
  rewrite (sorted_weights_fins v w Hlen), (sorted_weights_fins v' w' Hlen').
  rewrite <- (sorted_pairs_fst v w), <- (sorted_pairs_fst v' w').
  rewrite <- (sorted_pairs_snd v w), <- (sorted_pairs_snd v' w').
  now rewrite E.
Qed.

Lemma permutation_invariance_witness :
  weighted_quantile_1d (map Fin [1%Q; 2%Q; 1%Q]) [fq 1 3; fq 9 10]
    (Some (map Fin [2%Q; 1%Q; 2%Q])) false false
  = weighted_quantile_1d (map Fin [1%Q; 1%Q; 2%Q]) [fq 1 3; fq 9 10]
      (Some (map Fin [2%Q; 2%Q; 1%Q])) false false.
Proof.
  apply (@permutation_invariance
           [1%Q; 1%Q; 2%Q] [2%Q; 2%Q; 1%Q]
           [1%Q; 2%Q; 1%Q] [2%Q; 1%Q; 2%Q]).
  - reflexivity.
  - reflexivity.
  - simpl. apply perm_skip, perm_swap.
  - intros p p' Hp Hp' E. simpl in Hp, Hp'.
    repeat match goal with
           | H : _ \/ _ |- _ => destruct H as [H | H]
           | H : False |- _ => contradiction
           end; subst; try reflexivity; discriminate.
Defined.

(** C4, counterexample.  values = [0, 1, 1] with weights [1, 1, 3] and with
    weights [1, 3, 1] are joint permutations of the same three
    observations (the last two are swapped), yet quantile 0.2 is estimated
    as 1/2 on the first and as 1/4 on the second: the two observations of
    value 1 stay in input order and their weights differ. *)
Lemma tied_values_depend_on_input_order :
  Permutation (combine [0; 1; 1] [1; 1; 3]) (combine [0; 1; 1] [1; 3; 1]) /\
  exists r r',
    outcome (weighted_quantile_1d (map Fin [0; 1; 1]) [fq 1 5]
               (Some (map Fin [1; 1; 3])) false false) = Ok [Fin r] /\
    outcome (weighted_quantile_1d (map Fin [0; 1; 1]) [fq 1 5]
               (Some (map Fin [1; 3; 1])) false false) = Ok [Fin r'] /\
    r == 1 # 2 /\ r' == 1 # 4 /\ ~ r == r'.
Proof.
  split; [simpl; apply perm_skip, perm_swap | ].
  eexists; eexists. split; [vm_compute; reflexivity | ].
  split; [vm_compute; reflexivity | ].
  split; [reflexivity | ]. split; [reflexivity | discriminate].
Qed.

End PermutationInvariance.

(* ================================================================= *)
(** ** C3: splitting one observation in two halves *)

Section CurveFacts.
Local Open Scope Q_scope.

(** On non-decreasing knots the curve has one value at each point. *)
Lemma interp_spec_deterministic (xp fp : list Q) (x y y' : Q) :
  xp <> [] -> nondecreasing xp ->
  interp_spec xp fp x y -> interp_spec xp fp x y' -> y == y'.
Proof.
  intros Hne Hs.
  assert (Hn : (0 < length xp)%nat)
    by (destruct xp; [congruence | simpl; lia]).
  assert (Hmono : forall i j, (i <= j < length xp)%nat ->
                              nth i xp 0 <= nth j xp 0) by exact Hs.
  unfold interp_spec.
  intros [[A1 A2] | [[A1 A2] | [j [Aj [A1 [A2 A3]]]]]]
         [[B1 B2] | [[B1 B2] | [j' [Bj [B1 [B2 B3]]]]]].
  - now rewrite A2, B2.
  - exfalso. pose proof (Hmono 0%nat (length xp - 1)%nat ltac:(lia)). lra.
  - exfalso. pose proof (Hmono 0%nat j' ltac:(lia)). lra.
  - exfalso. pose proof (Hmono 0%nat (length xp - 1)%nat ltac:(lia)). lra.
  - now rewrite A2, B2.
  - exfalso. pose proof (Hmono (S j') (length xp - 1)%nat ltac:(lia)). lra.
  - exfalso. pose proof (Hmono 0%nat j ltac:(lia)). lra.
  - exfalso. pose proof (Hmono (S j) (length xp - 1)%nat ltac:(lia)). lra.
  - assert (j = j').
    { destruct (Nat.lt_trichotomy j j') as [H | [H | H]]; [ | exact H | ].
      - exfalso. pose proof (Hmono (S j) j' ltac:(lia)). lra.
      - exfalso. pose proof (Hmono (S j') j ltac:(lia)). lra. }
    subst j'. now rewrite A3, B3.
Qed.

End CurveFacts.

Section SplitKnot.
Local Open Scope Q_scope.


Lemma segment_value (a b a' b' s t s' t' x : Q) :
  a' == a -> b' == b -> s' == s -> t' == t ->
  s' + (t' - s') / (b' - a') * (x - a')
  == s + (t - s) / (b - a) * (x - a).
Proof.
  intros -> -> -> ->. reflexivity.
Qed.

Lemma split_transfer (xp fp xp' fp' : list Q) (k : nat) (d x y : Q) :
  split_knots xp fp xp' fp' k d ->
  clear_of_split xp k x -> interp_spec xp' fp' x y -> interp_spec xp fp x y.
Proof.
  intros [len_xp' k_bound d_nonneg xp_sorted before left_half right_half
          after gap_before gap_after] Hclear.
  assert (Hmono : forall i j, (i <= j < length xp)%nat ->
                              nth i xp 0 <= nth j xp 0) by exact xp_sorted.
  destruct left_half as [Lx Lf]. destruct right_half as [Rx Rf].
  unfold interp_spec. rewrite len_xp'.
  replace (S (length xp) - 1)%nat with (length xp) by lia.
  intros [[A1 A2] | [[A1 A2] | [j [Aj [A1 [A2 A3]]]]]].
  - (* left of the first new knot *)
    destruct (Nat.eq_dec k 0) as [-> | Hk].
    + exfalso. destruct Hclear as [[j [Hj _]] | [j [Hj Hle]]]; [lia | ].
      pose proof (gap_after _ Hj). lra.
    + destruct (before 0%nat ltac:(lia)) as [Bx Bf].
      left. rewrite <- Bx, <- Bf. now split.
  - (* right of the last new knot *)
    right; left.
    destruct (Nat.eq_dec (S k) (length xp)) as [E | Hk].
    + rewrite <- E in A1, A2. rewrite Rx in A1. rewrite Rf in A2.
      replace (length xp - 1)%nat with k by lia.
      split; [lra | exact A2].
    + destruct (after (length xp - 1)%nat ltac:(lia)) as [Bx Bf].
      replace (S (length xp - 1)) with (length xp) in Bx, Bf by lia.
      rewrite <- Bx, <- Bf. now split.
  - destruct (Nat.lt_trichotomy (S j) k) as [Hjk | [Hjk | Hjk]].
    + (* a segment before the split knot *)
      destruct (before j ltac:(lia)) as [Bx Bf].
      destruct (before (S j) ltac:(lia)) as [Cx Cf].
      right; right. exists j. rewrite <- Bx, <- Cx.
      repeat split; try assumption; [lia | ].
      rewrite A3. now apply segment_value.
    + (* the segment that ends at the left half *)
      subst k. destruct (before j ltac:(lia)) as [Bx Bf].
      destruct Hclear as [[i [Hi Hle]] | [i [Hi Hle]]].
      * pose proof (Hmono i j ltac:(lia)).
        assert (Hx : x == nth j xp 0) by lra.
        right; right. exists j.
        repeat split; [lia | lra | lra | ].
        rewrite A3, Bx, Bf, Hx. field; repeat split; lra.
      * exfalso. pose proof (gap_after _ Hi). lra.
    + destruct (Nat.eq_dec j k) as [-> | Hne].
      * (* between the two halves *)
        exfalso. destruct Hclear as [[i [Hi Hle]] | [i [Hi Hle]]].
        -- pose proof (gap_before _ Hi). lra.
        -- pose proof (gap_after _ Hi). lra.
      * destruct (Nat.eq_dec j (S k)) as [-> | Hne'].
        -- (* the segment that starts at the right half *)
           destruct (after (S k) ltac:(lia)) as [Bx Bf].
           destruct Hclear as [[i [Hi Hle]] | [i [Hi Hle]]].
           ++ pose proof (gap_before _ Hi).
              assert (Hd : d == 0) by lra.
              assert (Hx : x == nth k xp 0) by lra.
              right; right. exists k.
              repeat split; [lia | lra | lra | ].
              rewrite A3, Rx, Rf, Bx, Bf, Hx, Hd. field; repeat split; lra.
           ++ exfalso. pose proof (Hmono (S k) i ltac:(lia)). lra.
        -- (* a segment after the split knot *)
           destruct j as [| j]; [lia | ].
           destruct (after j ltac:(lia)) as [Bx Bf].
           destruct (after (S j) ltac:(lia)) as [Cx Cf].
           right; right. exists j. rewrite <- Bx, <- Cx.
           repeat split; try assumption; [lia | ].
           rewrite A3. now apply segment_value.
Qed.

End SplitKnot.

Section SplitWeights.
Local Open Scope Q_scope.

Lemma Qsum_firstn_mono (w : list Q) (i j : nat) :
  Forall (fun x => 0 <= x) w -> (i <= j)%nat ->
  Qsum (firstn i w) <= Qsum (firstn j w).
Proof.
  intros Hw Hij. induction Hij as [| j Hij IH]; [apply Qle_refl | ].
  apply Qle_trans with (Qsum (firstn j w)); [exact IH | ].
  destruct (Nat.lt_ge_cases j (length w)) as [Hj | Hj].
  - rewrite (Qsum_firstn_S _ Hj). pose proof (nth_nonneg j Hw). lra.
  - rewrite !firstn_all2 by lia. apply Qle_refl.
Qed.

Lemma firstn_app_le {A} (l1 l2 : list A) (j : nat) :
  (j <= length l1)%nat -> firstn j (l1 ++ l2) = firstn j l1.
Proof.
  intros H. rewrite firstn_app.
  replace (j - length l1)%nat with 0%nat by lia.
  now rewrite firstn_0, app_nil_r.
Qed.

Lemma firstn_app_ge {A} (l1 l2 : list A) (j : nat) :
  (length l1 <= j)%nat ->
  firstn j (l1 ++ l2) = l1 ++ firstn (j - length l1) l2.
Proof.
  intros H. rewrite firstn_app. now rewrite firstn_all2 by lia.
Qed.

Variables (a1 a2 f1 f2 : list Q) (c x : Q).
Hypothesis len1 : length f1 = length a1.
Hypothesis len2 : length f2 = length a2.

Let sw := a1 ++ c :: a2.
Let sw' := a1 ++ (c / 2) :: (c / 2) :: a2.
Let fp := f1 ++ x :: f2.
Let fp' := f1 ++ x :: x :: f2.
Let k := length a1.
Let d := c / 4 / Qsum sw.

Hypothesis sw_nonneg : Forall (fun y => 0 <= y) sw.
Hypothesis sw_total : 0 < Qsum sw.

Lemma split_total : Qsum sw' == Qsum sw.
Proof.
  unfold sw, sw'. rewrite !Qsum_app. simpl. field.
Qed.

Lemma c_nonneg : 0 <= c.
Proof.
  apply (proj1 (Forall_forall _ _) sw_nonneg). unfold sw.
  apply in_or_app. right. now left.
Qed.

Lemma sw'_length : length sw' = S (length sw).
Proof. unfold sw, sw'. rewrite !length_app. simpl. lia. Qed.

Lemma position_k :
  nth k (qpositions sw) 0 == (Qsum a1 + c / 2) / Qsum sw.
Proof.
  rewrite qpositions_nth by (unfold sw, k; rewrite length_app; simpl; lia).
  unfold sw, k.
  rewrite firstn_app_le by lia. rewrite firstn_all.
  rewrite app_nth2 by lia. rewrite Nat.sub_diag. simpl nth.
  apply Qdiv_comp; [field | reflexivity].
Qed.

Lemma position_before (j : nat) :
  (j < k)%nat -> nth j (qpositions sw') 0 == nth j (qpositions sw) 0.
Proof.
  intros Hj. unfold k in Hj.
  rewrite !qpositions_nth
    by (unfold sw, sw'; rewrite length_app; simpl; lia).
  rewrite split_total. unfold sw, sw'.
  rewrite !firstn_app_le by lia. rewrite !app_nth1 by lia. reflexivity.
Qed.

Lemma position_left : nth k (qpositions sw') 0 == nth k (qpositions sw) 0 - d.
Proof.
  rewrite position_k.
  rewrite qpositions_nth by (unfold sw', k; rewrite length_app; simpl; lia).
  rewrite split_total. unfold d, sw', sw, k.
  rewrite firstn_app_le by lia. rewrite firstn_all.
  rewrite app_nth2 by lia. rewrite Nat.sub_diag. simpl nth.
  pose proof sw_total as Ht. unfold sw in Ht.
  field. lra.
Qed.

Lemma position_right :
  nth (S k) (qpositions sw') 0 == nth k (qpositions sw) 0 + d.
Proof.
  rewrite position_k.
  rewrite qpositions_nth by (unfold sw', k; rewrite length_app; simpl; lia).
  rewrite split_total. unfold d, sw', sw, k.
  rewrite firstn_app_ge by lia. rewrite Qsum_app.
  replace (S (length a1) - length a1)%nat with 1%nat by lia.
  rewrite app_nth2 by lia.
  replace (S (length a1) - length a1)%nat with 1%nat by lia.
  simpl. pose proof sw_total as Ht. unfold sw in Ht.
  field. lra.
Qed.

Lemma position_after (j : nat) :
  (k < j < length sw)%nat ->
  nth (S j) (qpositions sw') 0 == nth j (qpositions sw) 0.
Proof.
  intros [Hk Hj]. unfold k in Hk.
  assert (Hl : length sw = S (length a1 + length a2))
    by (unfold sw; rewrite length_app; simpl; lia).
  rewrite !qpositions_nth by (rewrite ?sw'_length; lia).
  rewrite split_total. unfold sw, sw'.
  rewrite !firstn_app_ge by lia. rewrite !Qsum_app.
  rewrite !app_nth2 by lia.
  replace (S j - length a1)%nat with (S (S (j - length a1 - 1))) by lia.
  replace (j - length a1)%nat with (S (j - length a1 - 1)) by lia.
  simpl. rewrite ?Nat.sub_0_r. apply Qdiv_comp; [field | reflexivity].
Qed.

Lemma values_before (j : nat) : (j < k)%nat -> nth j fp' 0 = nth j fp 0.
Proof.
  intros Hj. unfold k in Hj. unfold fp, fp'. now rewrite !app_nth1 by lia.
Qed.

Lemma values_left : nth k fp' 0 = nth k fp 0.
Proof.
  unfold fp, fp', k. rewrite !app_nth2 by lia.
  replace (length a1 - length f1)%nat with 0%nat by lia. reflexivity.
Qed.

Lemma values_right : nth (S k) fp' 0 = nth k fp 0.
Proof.
  unfold fp, fp', k. rewrite !app_nth2 by lia.
  replace (S (length a1) - length f1)%nat with 1%nat by lia.
  replace (length a1 - length f1)%nat with 0%nat by lia. reflexivity.
Qed.

Lemma values_after (j : nat) : (k < j)%nat -> nth (S j) fp' 0 = nth j fp 0.
Proof.
  intros Hj. unfold k in Hj. unfold fp, fp'. rewrite !app_nth2 by lia.
  rewrite len1. destruct (j - length a1)%nat as [| m] eqn:E; [lia | ].
  replace (S j - length a1)%nat with (S (S m)) by lia. reflexivity.
Qed.

Lemma Qsum_prefix_k : Qsum (firstn k sw) == Qsum a1.
Proof. unfold sw, k. rewrite firstn_app_le by lia. now rewrite firstn_all. Qed.

Lemma gap_left (j : nat) :
  (j < k)%nat ->
  nth j (qpositions sw) 0 + 2 * d <= nth k (qpositions sw) 0.
Proof.
  intros Hj.
  assert (Hl : length sw = S (length a1 + length a2))
    by (unfold sw; rewrite length_app; simpl; lia).
  rewrite position_k. rewrite qpositions_nth by (unfold k in Hj; lia).
  assert (E : (Qsum (firstn j sw) + (1 # 2) * nth j sw 0) / Qsum sw + 2 * d
              == (Qsum (firstn j sw) + (1 # 2) * nth j sw 0 + c / 2)
                 / Qsum sw)
    by (unfold d; field; lra).
  rewrite E. apply Qdiv_le_compat; [exact sw_total | ].
  pose proof (@Qsum_firstn_mono sw (S j) k sw_nonneg ltac:(lia)) as Hm.
  rewrite Qsum_firstn_S in Hm by (unfold k in Hj; lia).
  rewrite Qsum_prefix_k in Hm.
  pose proof (nth_nonneg j sw_nonneg). lra.
Qed.

Lemma gap_right (j : nat) :
  (k < j < length sw)%nat ->
  nth k (qpositions sw) 0 + 2 * d <= nth j (qpositions sw) 0.
Proof.
  intros [Hk Hj].
  rewrite position_k. rewrite qpositions_nth by lia.
  assert (E : (Qsum a1 + c / 2) / Qsum sw + 2 * d
              == (Qsum a1 + c) / Qsum sw)
    by (unfold d; field; lra).
  rewrite E. apply Qdiv_le_compat; [exact sw_total | ].
  pose proof (@Qsum_firstn_mono sw (S k) j sw_nonneg ltac:(lia)) as Hm.
  rewrite Qsum_firstn_S in Hm by lia.
  rewrite Qsum_prefix_k in Hm.
  assert (Hc : nth k sw 0 = c).
  { unfold sw, k. rewrite app_nth2 by lia. now rewrite Nat.sub_diag. }
  rewrite Hc in Hm.
  pose proof (nth_nonneg j sw_nonneg). lra.
Qed.

Lemma split_weights_knots :
  split_knots (qpositions sw) fp (qpositions sw') fp' k d.
Proof.
  assert (Hl : length sw = S (length a1 + length a2))
    by (unfold sw; rewrite length_app; simpl; lia).
  constructor.
  - now rewrite !qpositions_length, sw'_length.
  - rewrite qpositions_length. unfold k. lia.
  - unfold d. apply Qle_shift_div_l; [exact sw_total | ].
    pose proof c_nonneg. assert (E : c / 4 == (1 # 4) * c) by field.
    rewrite E. lra.
  - apply qpositions_nondecreasing; assumption.
  - intros j Hj. split; [now apply position_before | ].
    now rewrite values_before.
  - split; [apply position_left | now rewrite values_left].
  - split; [apply position_right | now rewrite values_right].
  - intros j Hj. rewrite qpositions_length in Hj.
    split; [now apply position_after | ]. rewrite values_after; [reflexivity | lia].
  - apply gap_left.
  - intros j Hj. rewrite qpositions_length in Hj. now apply gap_right.
Qed.

End SplitWeights.

Section StableSplit.
Local Open Scope Q_scope.

Lemma StronglySorted_middle {A} (R : A -> A -> Prop) (l1 l2 : list A) (a : A) :
  StronglySorted R (l1 ++ a :: l2) ->
  Forall (fun y => R y a) l1 /\ Forall (R a) l2.
Proof.
  induction l1 as [| b l1 IH]; simpl; intros H.
  - inversion H; subst. now split.
  - inversion H as [| ? ? Hs Hb]; subst. destruct (IH Hs) as [H1 H2].
    split; [ | exact H2]. constructor; [ | exact H1].
    apply (proj1 (Forall_forall _ _) Hb). apply in_or_app. right. now left.
Qed.

Lemma StronglySorted_insert_after {A} (R : A -> A -> Prop)
  (l1 l2 : list A) (a b : A) :
  StronglySorted R (l1 ++ a :: l2) -> R a b ->
  Forall (fun y => R y b) l1 -> Forall (R b) l2 ->
  StronglySorted R (l1 ++ a :: b :: l2).
Proof.
  induction l1 as [| e l1 IH]; simpl; intros Hs Hab H1 H2.
  - inversion Hs as [| ? ? Hs' Ha]; subst.
    constructor; [constructor; assumption | ]. constructor; assumption.
  - inversion Hs as [| ? ? Hs' He]; subst. inversion H1; subst.
    constructor; [now apply IH | ].
    apply Forall_forall. intros y Hy.
    apply in_app_or in Hy. destruct Hy as [Hy | [<- | [<- | Hy]]].
    + apply (proj1 (Forall_forall _ _) He). apply in_or_app. now left.
    + apply (proj1 (Forall_forall _ _) He). apply in_or_app. right. now left.
    + assumption.
    + apply (proj1 (Forall_forall _ _) He). apply in_or_app. right. now right.
Qed.

Lemma StronglySorted_map_in {A B} (R : A -> A -> Prop) (R' : B -> B -> Prop)
  (f : A -> B) (l : list A) :
  StronglySorted R l ->
  (forall a b, In a l -> In b l -> R a b -> R' (f a) (f b)) ->
  StronglySorted R' (map f l).
Proof.
  induction 1 as [| a l Hs IH Ha]; intros Himp; simpl; constructor.
  - apply IH. intros x y Hx Hy. apply Himp; now right.
  - apply Forall_forall. intros y Hy. apply in_map_iff in Hy.
    destruct Hy as [b [<- Hb]]. apply Himp; [now left | now right | ].
    apply (proj1 (Forall_forall _ _) Ha b Hb).
Qed.

(** A stable ascending order of the positions is unique. *)
Lemma lex_sorted_unique (v : list Q) (l1 l2 : list nat) :
  StronglySorted (lex_lt v) l1 -> StronglySorted (lex_lt v) l2 ->
  Permutation l1 l2 -> l1 = l2.
Proof.
  intros H1. revert l2. induction H1 as [| a t1 Hs1 IH Ha]; intros l2 H2 Hp.
  - now apply Permutation_nil in Hp.
  - destruct l2 as [| b t2];
      [apply Permutation_sym, Permutation_nil in Hp; discriminate | ].
    inversion H2 as [| ? ? Hs2 Hb]; subst.
    assert (Hab : a = b).
    { destruct (Nat.eq_dec a b) as [E | Hne]; [exact E | exfalso].
      assert (Hbin : In b (a :: t1))
        by (apply (Permutation_in _ (Permutation_sym Hp)); now left).
      assert (Hain : In a (b :: t2))
        by (apply (Permutation_in _ Hp); now left).
      destruct Hbin as [E | Hbin]; [congruence | ].
      destruct Hain as [E | Hain]; [congruence | ].
      apply (@lex_lt_irrefl v a).
      apply lex_lt_trans with b.
      - apply (proj1 (Forall_forall _ _) Ha b Hbin).
      - apply (proj1 (Forall_forall _ _) Hb a Hain). }
    subst b. f_equal. apply IH; [exact Hs2 | ].
    now apply Permutation_cons_inv in Hp.
Qed.

Variables (v1 v2 : list Q) (x : Q).

Let v := v1 ++ x :: v2.
Let v' := v1 ++ x :: x :: v2.
Let n1 := length v1.


Lemma key_shift (i : nat) : key v' (shift_index v1 i) = key v i.
Proof.
  unfold key, shift_index, v, v', n1.
  destruct (i <=? length v1)%nat eqn:E.
  - apply Nat.leb_le in E.
    destruct (Nat.eq_dec i (length v1)) as [-> | Hne].
    + rewrite !app_nth2 by lia. now rewrite Nat.sub_diag.
    + now rewrite !app_nth1 by lia.
  - apply Nat.leb_gt in E. rewrite !app_nth2 by lia.
    destruct (i - length v1)%nat as [| m] eqn:Em; [lia | ].
    replace (S i - length v1)%nat with (S (S m)) by lia. reflexivity.
Qed.

Lemma key_second_half : key v' (S n1) = key v n1.
Proof.
  unfold key, v, v', n1. rewrite !app_nth2 by lia.
  replace (S (length v1) - length v1)%nat with 1%nat by lia.
  now rewrite Nat.sub_diag.
Qed.

Lemma shift_index_lt (a b : nat) :
  (a < b)%nat -> (shift_index v1 a < shift_index v1 b)%nat.
Proof.
  unfold shift_index; fold n1. intros H.
  destruct (a <=? n1)%nat eqn:Ea; destruct (b <=? n1)%nat eqn:Eb;
    try apply Nat.leb_le in Ea; try apply Nat.leb_le in Eb;
    try apply Nat.leb_gt in Ea; try apply Nat.leb_gt in Eb; lia.
Qed.

Lemma lex_lt_shift (a b : nat) :
  lex_lt v a b -> lex_lt v' (shift_index v1 a) (shift_index v1 b).
Proof.
  unfold lex_lt. rewrite !key_shift.
  intros [H | [H Hab]]; [now left | right].
  split; [exact H | now apply shift_index_lt].
Qed.

Lemma map_shift_seq (n : nat) :
  (n1 < n)%nat ->
  map (shift_index v1) (seq 0 n)
  = seq 0 (S n1) ++ seq (S (S n1)) (n - S n1).
Proof.
  intros Hn. replace n with (S n1 + (n - S n1))%nat at 1 by lia.
  rewrite seq_app, map_app. f_equal.
  - rewrite <- (map_id (seq 0 (S n1))) at 2. apply map_ext_in.
    intros i Hi. apply in_seq in Hi. unfold shift_index; fold n1.
    destruct (i <=? n1)%nat eqn:E; [reflexivity | ].
    apply Nat.leb_gt in E. lia.
  - rewrite <- seq_shift. apply map_ext_in.
    intros i Hi. apply in_seq in Hi. unfold shift_index; fold n1.
    destruct (i <=? n1)%nat eqn:E; [ | reflexivity].
    apply Nat.leb_le in E. lia.
Qed.

(** The sort order of [v'] is the sort order of [v] with the second half
    right after the first. *)
Lemma argsort_split (i1 i2 : list nat) :
  Np.argsort_indices (map Fin v) = i1 ++ n1 :: i2 ->
  Np.argsort_indices (map Fin v')
  = map (shift_index v1) i1 ++ n1 :: S n1 :: map (shift_index v1) i2.
Proof.
  intros Hidx.
  assert (Hlen : length v = S (length v1 + length v2))
    by (unfold v; rewrite length_app; simpl; lia).
  assert (Hlen' : length v' = S (length v))
    by (unfold v, v'; rewrite !length_app; simpl; lia).
  pose proof (argsort_stable v) as Hs. rewrite Hidx in Hs.
  pose proof (argsort_perm (map Fin v)) as Hp.
  rewrite Hidx, length_map in Hp.
  assert (Hself : (shift_index v1) n1 = n1).
  { unfold shift_index; fold n1. now rewrite Nat.leb_refl. }
  assert (Hmap : map (shift_index v1) i1 ++ n1 :: map (shift_index v1) i2
                 = map (shift_index v1) (i1 ++ n1 :: i2)).
  { rewrite map_app. simpl. now rewrite Hself. }
  apply (@lex_sorted_unique v').
  - apply argsort_stable.
  - destruct (StronglySorted_middle _ _ _ Hs) as [Hbefore Hafter].
    apply StronglySorted_insert_after.
    + rewrite Hmap.
      apply (StronglySorted_map_in (R:=lex_lt v)); [exact Hs | ].
      intros a b _ _. apply lex_lt_shift.
    + right. rewrite key_second_half.
      rewrite <- Hself at 1. rewrite key_shift. split; [reflexivity | lia].
    + apply Forall_forall. intros y Hy. apply in_map_iff in Hy.
      destruct Hy as [a [<- Ha]].
      pose proof (proj1 (Forall_forall _ _) Hbefore a Ha) as Hlt.
      unfold lex_lt in *. rewrite key_shift, key_second_half.
      destruct Hlt as [H | [H Hlt]]; [now left | right].
      split; [exact H | ]. unfold shift_index; fold n1.
      destruct (a <=? n1)%nat eqn:E; [apply Nat.leb_le in E; lia | ].
      apply Nat.leb_gt in E. lia.
    + apply Forall_forall. intros y Hy. apply in_map_iff in Hy.
      destruct Hy as [b [<- Hb]].
      pose proof (proj1 (Forall_forall _ _) Hafter b Hb) as Hlt.
      unfold lex_lt in *. rewrite key_shift, key_second_half.
      destruct Hlt as [H | [H Hlt]]; [now left | right].
      split; [exact H | ]. unfold shift_index; fold n1.
      destruct (b <=? n1)%nat eqn:E; [apply Nat.leb_le in E; lia | lia].
  - rewrite (argsort_perm (map Fin v')), length_map, Hlen'.
    apply Permutation_sym.
    apply Permutation_trans
      with (S n1 :: (map (shift_index v1) i1 ++ n1 :: map (shift_index v1) i2)).
    + apply Permutation_sym.
      replace (map (shift_index v1) i1 ++ n1 :: S n1 :: map (shift_index v1) i2)
        with ((map (shift_index v1) i1 ++ [n1]) ++ S n1 :: map (shift_index v1) i2)
        by (rewrite <- app_assoc; reflexivity).
      replace (map (shift_index v1) i1 ++ n1 :: map (shift_index v1) i2)
        with ((map (shift_index v1) i1 ++ [n1]) ++ map (shift_index v1) i2)
        by (rewrite <- app_assoc; reflexivity).
      apply Permutation_middle.
    + rewrite Hmap.
      rewrite (Permutation_map (shift_index v1) Hp).
      rewrite map_shift_seq by (unfold n1; lia).
      replace (S (length v)) with (S n1 + S (length v - S n1))%nat
        by (unfold n1; lia).
      rewrite seq_app. cbn [seq]. rewrite Nat.add_0_l.
      apply Permutation_middle.
Qed.

End StableSplit.

Section SplitObservation.
Local Open Scope Q_scope.

Lemma nth_shift (l1 l2 : list Q) (a b b' d : Q) (i : nat) :
  i <> length l1 ->
  nth (shift_index l1 i) (l1 ++ b :: b' :: l2) d = nth i (l1 ++ a :: l2) d.
Proof.
  intros Hne. unfold shift_index.
  destruct (i <=? length l1)%nat eqn:E.
  - apply Nat.leb_le in E. now rewrite !app_nth1 by lia.
  - apply Nat.leb_gt in E. rewrite !app_nth2 by lia.
    destruct (i - length l1)%nat as [| m] eqn:Em; [lia | ].
    replace (S i - length l1)%nat with (S (S m)) by lia. reflexivity.
Qed.

Lemma shift_index_length (l1 l1' : list Q) (i : nat) :
  length l1' = length l1 -> shift_index l1' i = shift_index l1 i.
Proof. intros H. unfold shift_index. now rewrite H. Qed.

Lemma Forall2_nth {A B} (R : A -> B -> Prop) (l : list A) (l' : list B)
  (da : A) (db : B) (i : nat) :
  Forall2 R l l' -> (i < length l)%nat -> R (nth i l da) (nth i l' db).
Proof.
  intros H. revert i. induction H as [| a b l l' Hab _ IH]; intros i Hi.
  - simpl in Hi. lia.
  - destruct i as [| i]; [exact Hab | ]. simpl. apply IH. simpl in Hi. lia.
Qed.

Variables (v1 v2 w1 w2 : list Q) (x c : Q).
Hypothesis len1 : length w1 = length v1.
Hypothesis len2 : length w2 = length v2.

Let v := v1 ++ x :: v2.
Let w := w1 ++ c :: w2.
Let v' := v1 ++ x :: x :: v2.
Let w' := w1 ++ (c / 2) :: (c / 2) :: w2.

Hypothesis w_nonneg : Forall (fun a => 0 <= a) w.
Hypothesis w_total : 0 < Qsum w.

Lemma split_lengths : length w = length v /\ length w' = length v'.
Proof. unfold v, w, v', w'. rewrite !length_app. simpl. lia. Qed.

Lemma split_nonneg : Forall (fun a => 0 <= a) w'.
Proof.
  unfold w, w' in *. apply Forall_app in w_nonneg.
  destruct w_nonneg as [H1 H2]. inversion H2 as [| ? ? Hc H3]; subst.
  assert (Hh : 0 <= c / 2).
  { apply Qle_shift_div_l; [reflexivity | lra]. }
  apply Forall_app. split; [exact H1 | ]. now repeat constructor.
Qed.

Lemma split_total_weight : Qsum w' == Qsum w.
Proof. unfold w, w'. rewrite !Qsum_app. simpl. field. Qed.

(** The sorted arrangements of the two inputs. *)
Lemma split_sorted :
  exists (i1 i2 : list nat),
    Np.argsort_indices (map Fin v) = i1 ++ length v1 :: i2 /\
    let f1 := map (fun i => nth i v 0) i1 in
    let f2 := map (fun i => nth i v 0) i2 in
    let a1 := map (fun i => nth i w 0) i1 in
    let a2 := map (fun i => nth i w 0) i2 in
    sorted_qvalues v = f1 ++ x :: f2 /\
    sorted_qweights v w = a1 ++ c :: a2 /\
    sorted_qvalues v' = f1 ++ x :: x :: f2 /\
    sorted_qweights v' w' = a1 ++ (c / 2) :: (c / 2) :: a2.
Proof.
  assert (Hlenv : length v = S (length v1 + length v2))
    by (unfold v; rewrite length_app; simpl; lia).
  pose proof (argsort_perm (map Fin v)) as Hp. rewrite length_map in Hp.
  assert (Hin : In (length v1) (Np.argsort_indices (map Fin v))).
  { apply (Permutation_in _ (Permutation_sym Hp)). apply in_seq. lia. }
  destruct (in_split _ _ Hin) as [i1 [i2 Hidx]].
  exists i1, i2. split; [exact Hidx | ]. cbv zeta.
  assert (Hnd : NoDup (i1 ++ length v1 :: i2)).
  { rewrite <- Hidx. apply (Permutation_NoDup (Permutation_sym Hp)).
    apply seq_NoDup. }
  apply NoDup_remove_2 in Hnd.
  assert (Hn1 : forall i, In i i1 \/ In i i2 -> i <> length v1).
  { intros i Hi ->. apply Hnd. apply in_or_app. exact Hi. }
  pose proof (@argsort_split v1 v2 x i1 i2 Hidx) as Hidx'.
  assert (Hx : nth (length v1) v 0 = x).
  { unfold v. rewrite app_nth2 by lia. now rewrite Nat.sub_diag. }
  assert (Hc : nth (length v1) w 0 = c).
  { unfold w. rewrite app_nth2 by lia. rewrite len1. now rewrite Nat.sub_diag. }
  assert (Hvals : forall l, (forall i, In i l -> i <> length v1) ->
            map (fun i => nth i v' 0) (map (shift_index v1) l)
            = map (fun i => nth i v 0) l).
  { intros l Hl. rewrite map_map. apply map_ext_in. intros i Hi.
    unfold v, v'. apply nth_shift. now apply Hl. }
  assert (Hwts : forall l, (forall i, In i l -> i <> length v1) ->
            map (fun i => nth i w' 0) (map (shift_index v1) l)
            = map (fun i => nth i w 0) l).
  { intros l Hl. rewrite map_map. apply map_ext_in. intros i Hi.
    unfold w, w'. rewrite <- (shift_index_length v1 w1 i len1).
    apply nth_shift. rewrite len1. now apply Hl. }
  assert (Hx1 : nth (length v1) v' 0 = x).
  { unfold v'. rewrite app_nth2 by lia. now rewrite Nat.sub_diag. }
  assert (Hx2 : nth (S (length v1)) v' 0 = x).
  { unfold v'. rewrite app_nth2 by lia.
    now replace (S (length v1) - length v1)%nat with 1%nat by lia. }
  assert (Hc1 : nth (length v1) w' 0 = c / 2).
  { unfold w'. rewrite app_nth2 by lia. rewrite len1. now rewrite Nat.sub_diag. }
  assert (Hc2 : nth (S (length v1)) w' 0 = c / 2).
  { unfold w'. rewrite app_nth2 by lia. rewrite len1.
    now replace (S (length v1) - length v1)%nat with 1%nat by lia. }
  change (v1 ++ x :: x :: v2) with v' in Hidx'.
  unfold sorted_qvalues, sorted_qweights.
  rewrite Hidx, Hidx'.
  rewrite !map_app. cbn [map].
  rewrite !Hvals, !Hwts by (intros i Hi; apply Hn1; auto).
  rewrite Hx, Hc, Hx1, Hx2, Hc1, Hc2. repeat split; reflexivity.
Qed.

End SplitObservation.

Section SplitClaim.
Local Open Scope Q_scope.

(** C3 (as the code behaves).  Weights that are counts of positive total,
    values of moderate magnitude, default normalisation.  One observation
    of weight [c] is replaced by two observations of the same value and
    weight [c / 2] each, wherever the two are put among the others; before
    and after, observations of equal value carry equal weight.  Then the
    estimate of every quantile that is at or below the normalised position
    of an observation sorted before the split one, or at or above the
    normalised position of an observation sorted after it, is unchanged.
    ([k] is a rank of the split observation in sorted order.) *)
Theorem split_observation_estimates (v1 v2 w1 w2 v' w' : list Q) (x c : Q)
  (q : list Q) :
  length w1 = length v1 -> length w2 = length v2 -> length w' = length v' ->
  Permutation (combine v' w')
              (combine (v1 ++ x :: x :: v2)
                       (w1 ++ (c / 2) :: (c / 2) :: w2)) ->
  ties_identical (v1 ++ x :: v2) (w1 ++ c :: w2) ->
  ties_identical v' w' ->
  counts (w1 ++ c :: w2) -> 0 < Qsum (w1 ++ c :: w2) ->
  moderate (v1 ++ x :: v2) ->
  unit_quantiles q ->
  exists ys ys' k,
    outcome (weighted_quantile_1d (map Fin (v1 ++ x :: v2)) (map Fin q)
               (Some (map Fin (w1 ++ c :: w2))) false false)
    = Ok (map Fin ys) /\
    outcome (weighted_quantile_1d (map Fin v') (map Fin q)
               (Some (map Fin w')) false false)
    = Ok (map Fin ys') /\
    nth_error (sorted_pairs (v1 ++ x :: v2) (w1 ++ c :: w2)) k
    = Some (x, c) /\
    forall i, (i < length q)%nat ->
      clear_of_split
        (qpositions (sorted_qweights (v1 ++ x :: v2) (w1 ++ c :: w2)))
        k (nth i q 0) ->
      nth i ys' 0 == nth i ys 0.
Proof.
  intros len1 len2 Hlen2 Hplace _ Htie' Hcounts Htotal _ Hq.
  pose proof (counts_nonneg Hcounts) as Hnonneg.
  destruct (split_lengths v1 v2 w1 w2 x c len1 len2) as [Hlen Hlen'].
  pose proof (split_nonneg w1 w2 c Hnonneg) as Hnonneg'.
  pose proof (split_total_weight w1 w2 c) as Htot'.
  assert (Hv : v1 ++ x :: v2 <> []) by (destruct v1; discriminate).
  (* the rearranged observations *)
  assert (Hw' : Permutation w' (w1 ++ (c / 2) :: (c / 2) :: w2)).
  { rewrite <- (snd_combine v' w' Hlen2).
    rewrite <- (snd_combine (v1 ++ x :: x :: v2)
                            (w1 ++ (c / 2) :: (c / 2) :: w2) Hlen').
    now apply Permutation_map. }
  assert (Hv2 : v' <> []).
  { intros ->. apply Permutation_length in Hplace.
    rewrite !length_combine, !length_app in Hplace. simpl in Hplace. lia. }
  assert (Hnonneg2 : Forall (fun a => 0 <= a) w')
    by (apply (Forall_perm (Permutation_sym Hw')); exact Hnonneg').
  assert (Htotal2 : 0 < Qsum w')
    by (rewrite (Qsum_perm Hw'), Htot'; exact Htotal).
  pose proof (@sorted_pairs_invariant v' w' _ _ Hlen2 Hlen' Hplace Htie')
    as Epairs.
  destruct (estimator_finite Hv Hlen Hnonneg Htotal Hq) as [ys [Hrun Hspec]].
  destruct (estimator_finite Hv2 Hlen2 Hnonneg2 Htotal2 Hq)
    as [ys' [Hrun' Hspec']].
  rewrite <- (sorted_pairs_snd v' w'), <- (sorted_pairs_fst v' w') in Hspec'.
  rewrite <- Epairs, sorted_pairs_snd, sorted_pairs_fst in Hspec'.
  destruct (split_sorted v1 v2 w1 w2 x c len1 len2)
    as [i1 [i2 [Hidx Hsorted]]].
  cbv zeta in Hsorted. destruct Hsorted as [Ef [Ea [Ef' Ea']]].
  set (f1 := map (fun i => nth i (v1 ++ x :: v2) 0) i1) in *.
  set (f2 := map (fun i => nth i (v1 ++ x :: v2) 0) i2) in *.
  set (a1 := map (fun i => nth i (w1 ++ c :: w2) 0) i1) in *.
  set (a2 := map (fun i => nth i (w1 ++ c :: w2) 0) i2) in *.
  exists ys, ys', (length a1).
  rewrite Hrun, Hrun'. split; [reflexivity | ]. split; [reflexivity | ].
  split.
  { unfold sorted_pairs. rewrite Hidx. unfold a1. rewrite length_map.
    rewrite nth_error_map, nth_error_app2 by lia.
    rewrite Nat.sub_diag. cbn [nth_error option_map].
    rewrite nth_middle. rewrite <- len1 at 1. now rewrite nth_middle. }
  pose proof (sorted_qweights_perm _ _ Hlen) as Hperm.
  assert (Hsw_nonneg : Forall (fun a => 0 <= a) (a1 ++ c :: a2)).
  { rewrite <- Ea. apply (Forall_perm (Permutation_sym Hperm)). exact Hnonneg. }
  assert (Hsw_total : 0 < Qsum (a1 ++ c :: a2)).
  { rewrite <- Ea. now rewrite (Qsum_perm Hperm). }
  assert (Hl1 : length f1 = length a1) by (unfold f1, a1; now rewrite !length_map).
  assert (Hl2 : length f2 = length a2) by (unfold f2, a2; now rewrite !length_map).
  pose proof (split_weights_knots a1 a2 f1 f2 c x Hl1 Hl2 Hsw_nonneg Hsw_total)
    as Hknots.
  cbv zeta in Hknots.
  rewrite Ef, Ea in Hspec. rewrite Ef', Ea' in Hspec'. rewrite Ea.
  intros i Hi Hclear.
  pose proof (@Forall2_nth _ _ _ _ _ 0 0 i Hspec Hi) as Hy.
  pose proof (@Forall2_nth _ _ _ _ _ 0 0 i Hspec' Hi) as Hy'.
  apply (split_transfer Hknots Hclear) in Hy'.
  apply (@interp_spec_deterministic (qpositions (a1 ++ c :: a2))
           (f1 ++ x :: f2) (nth i q 0)); [ | | exact Hy' | exact Hy].
  - intros E. apply (f_equal (@length _)) in E.
    rewrite qpositions_length, length_app in E. simpl in E. lia.
  - now apply qpositions_nondecreasing.
Qed.

Lemma split_observation_estimates_witness :
  exists ys ys' k,
    outcome (weighted_quantile_1d
               (map Fin ([2%Q] ++ 1%Q :: [0%Q; 3%Q]))
               (map Fin [(1 # 8)%Q; (1 # 2)%Q; (9 # 10)%Q])
               (Some (map Fin ([1%Q] ++ 2%Q :: [1%Q; 4%Q]))) false false)
    = Ok (map Fin ys) /\
    outcome (weighted_quantile_1d
               (map Fin [1%Q; 2%Q; 0%Q; 1%Q; 3%Q])
               (map Fin [(1 # 8)%Q; (1 # 2)%Q; (9 # 10)%Q])
               (Some (map Fin [(2 / 2)%Q; 1%Q; 1%Q; (2 / 2)%Q; 4%Q]))
               false false)
    = Ok (map Fin ys') /\
    nth_error (sorted_pairs ([2%Q] ++ 1%Q :: [0%Q; 3%Q])
                            ([1%Q] ++ 2%Q :: [1%Q; 4%Q])) k
    = Some (1%Q, 2%Q) /\
    forall i, (i < length [(1 # 8)%Q; (1 # 2)%Q; (9 # 10)%Q])%nat ->
      clear_of_split
        (qpositions (sorted_qweights ([2%Q] ++ 1%Q :: [0%Q; 3%Q])
                                     ([1%Q] ++ 2%Q :: [1%Q; 4%Q])))
        k (nth i [(1 # 8)%Q; (1 # 2)%Q; (9 # 10)%Q] 0) ->
      nth i ys' 0 == nth i ys 0.
Proof.
  apply (@split_observation_estimates [2%Q] [0%Q; 3%Q] [1%Q] [1%Q; 4%Q]
           [1%Q; 2%Q; 0%Q; 1%Q; 3%Q] [(2 / 2)%Q; 1%Q; 1%Q; (2 / 2)%Q; 4%Q]
           1%Q 2%Q [(1 # 8)%Q; (1 # 2)%Q; (9 # 10)%Q]).
  - reflexivity.
  - reflexivity.
  - reflexivity.
  - simpl. apply perm_trans with
      ((2%Q, 1%Q) :: (1%Q, (2 / 2)%Q) :: (0%Q, 1%Q) :: (1%Q, (2 / 2)%Q)
                  :: [(3%Q, 4%Q)]).
    + apply perm_swap.
    + apply perm_skip, perm_skip, perm_swap.
  - intros p p' Hp Hp' E. simpl in Hp, Hp'.
    repeat match goal with
           | H : _ \/ _ |- _ => destruct H as [H | H]
           | H : False |- _ => contradiction
           end; subst; try reflexivity; discriminate.
  - intros p p' Hp Hp' E. simpl in Hp, Hp'.
    repeat match goal with
           | H : _ \/ _ |- _ => destruct H as [H | H]
           | H : False |- _ => contradiction
           end; subst; try reflexivity; discriminate.
  - split; [repeat constructor; discriminate | discriminate].
  - reflexivity.
  - repeat constructor; discriminate.
  - repeat constructor; discriminate.
Defined.

(** C3, counterexample.  values = [0, 1], weights = [1, 1], quantile 0.5:
    the estimate is 1/2.  With the observation of value 1 replaced by two
    observations of value 1 and weight 1/2 each, the estimate is 2/3. *)
Lemma split_observation_changes_median :
  exists r r',
    outcome (weighted_quantile_1d (map Fin [0; 1]) [fq 1 2]
               (Some (map Fin [1; 1])) false false) = Ok [Fin r] /\
    outcome (weighted_quantile_1d (map Fin [0; 1; 1]) [fq 1 2]
               (Some (map Fin [1; 1 / 2; 1 / 2])) false false) = Ok [Fin r'] /\
    r == 1 # 2 /\ r' == 2 # 3 /\ ~ r' == r.
Proof.
  eexists; eexists. split; [vm_compute; reflexivity | ].
  split; [vm_compute; reflexivity | ].
  split; [reflexivity | ]. split; [reflexivity | discriminate].
Qed.

End SplitClaim.

(* ================================================================= *)
(** ** C9: a coordinate label without weight *)

Lemma index_of_in (name : string) (l : list string) :
  In name l -> exists ax, Xr.index_of name l = Some ax.
Proof.
  induction l as [| x l IH]; intros H; [contradiction | ]. simpl.
  destruct (String.eqb x name) eqn:E; [now eexists | ].
  destruct H as [-> | H]; [now rewrite String.eqb_refl in E | ].
  destruct (IH H) as [ax ->]. now eexists.
Qed.

Lemma coords_of_dims (da : DataArray) (names : list string) :
  Forall (fun name => In name (Xr.dims da)) names ->
  exists cs,
    mapM (fun coord => c <- Xr.coords_getitem da coord ;; ret (coord, c))
         names = ret cs.
Proof.
  induction 1 as [| name names Hin _ [cs IH]].
  - now exists [].
  - cbn [mapM]. unfold Xr.coords_getitem at 1, Xr.coordinate_labels.
    destruct (Xr.dict_get (Xr.coords da) name) as [c | ].
    + rewrite !bind_ret_l, IH, bind_ret_l. now eexists.
    + destruct (index_of_in _ _ Hin) as [ax ->].
      rewrite !bind_ret_l, IH, bind_ret_l. now eexists.
Qed.

(** A label has no row exactly when the lookup of its first row finds
    nothing. *)
Lemma series_rows_nil (s : Series) (l : label) :
  Xr.series_get s l = None <-> Xr.series_rows s l = [].
Proof.
  unfold Xr.series_rows.
  induction s as [| [k w] s IH]; cbn [Xr.series_get filter map fst];
    [tauto | ].
  destruct (Xr.label_eqb k l); [ | exact IH].
  cbn [map]. split; discriminate.
Qed.

Lemma loc_missing (s : Series) (labels : list label) (l : label) :
  In l labels -> Xr.series_get s l = None ->
  Xr.loc s labels = ([EvLoc], Raise KeyError).
Proof.
  intros Hin Hmiss. apply series_rows_nil in Hmiss.
  unfold Xr.loc. rewrite bind_emit.
  assert (H : mapM (fun l0 => match Xr.series_rows s l0 with
                              | [] => raise KeyError
                              | r => ret r
                              end) labels = raise KeyError).
  { induction labels as [| a labels IH]; [contradiction | ]. cbn [mapM].
    destruct (Xr.series_rows s a) as [| wa ra] eqn:Ea; [reflexivity | ].
    rewrite bind_ret_l.
    destruct Hin as [-> | Hin]; [congruence | ].
    now rewrite (IH Hin). }
  now rewrite H.
Qed.

(** C9.  When a coordinate label along the named dimension has no entry in
    the weight mapping, the call raises [KeyError] from the label lookup,
    whatever the quantiles and the data are; the trace shows the axis
    resolution and the lookup only: neither the N-D nor the 1-D estimator
    was entered, and no weight was substituted for the missing label. *)
Theorem missing_label_fails_before_estimator (data : DataArray)
  (quantiles : list fnum) (sample_weight : Series) (dim : string)
  (values_sorted : bool) (labels : list label) (l : label) :
  In dim (Xr.dims data) ->
  Xr.coordinate_labels data dim = Some labels ->
  In l labels -> Xr.series_get sample_weight l = None ->
  weighted_quantile_xr data quantiles sample_weight dim values_sorted
  = ([EvGetAxisNum; EvLoc], Raise KeyError).
Proof.
  intros Hdim Hlabels Hin Hmiss. unfold weighted_quantile_xr.
  destruct (index_of_in _ _ Hdim) as [axis Haxis].
  unfold Xr.get_axis_num. rewrite Haxis, bind_emit.
  cbn [trace_of outcome ret fst snd]. rewrite bind_pure.
  match goal with
  | |- context [mapM ?f ?names] =>
      destruct (@coords_of_dims data names) as [cs Hcs]
  end.
  { apply Forall_forall. intros name Hname.
    now apply filter_In in Hname. }
  rewrite Hcs, bind_ret_l.
  unfold Xr.coords_getitem. rewrite Hlabels, bind_ret_l.
  rewrite (loc_missing _ _ _ Hin Hmiss). reflexivity.
Qed.

Lemma missing_label_fails_before_estimator_witness :
  weighted_quantile_xr
    (mk_DataArray ["t"; "r"]%string
       [("t"%string, [LStr "a"; LStr "b"]);
        ("r"%string, [LStr "x"; LStr "y"; LStr "z"])]
       (mk_ndarray [2; 3] [fz 1; fz 2; fz 3; fz 10; fz 20; fz 30]))
    [fq 1 2; fz 2]
    [(LStr "z", fz 1); (LStr "x", fz 2)] "r" false
  = ([EvGetAxisNum; EvLoc], Raise KeyError).
Proof.
  apply (@missing_label_fails_before_estimator _ _ _ _ _
           [LStr "x"; LStr "y"; LStr "z"] (LStr "y")).
  - simpl. auto.
  - reflexivity.
  - simpl. auto.
  - reflexivity.
Defined.

(* ================================================================= *)
(** ** Multi-indices of dense arrays *)

Section MultiIndex.

Lemma nth_concat_uniform {A} (ls : list (list A)) (m p j : nat) (d : A) :
  Forall (fun l => length l = m) ls -> p < length ls -> j < m ->
  nth (p * m + j) (concat ls) d = nth j (nth p ls []) d.
Proof.
  intros H. revert p. induction H as [| l ls Hl _ IH]; intros p Hp Hj.
  - simpl in Hp. lia.
  - simpl concat. destruct p as [| p].
    + simpl. rewrite app_nth1 by lia. reflexivity.
    + rewrite app_nth2 by (rewrite Hl; simpl; lia).
      replace (S p * m + j - length l) with (p * m + j) by (rewrite Hl; simpl; lia).
      simpl nth. apply IH; [simpl in Hp; lia | exact Hj].
Qed.

Lemma concat_uniform_length {A} (ls : list (list A)) (m : nat) :
  Forall (fun l => length l = m) ls -> length (concat ls) = length ls * m.
Proof.
  induction 1 as [| l ls Hl _ IH]; simpl; [reflexivity | ].
  rewrite length_app, IH, Hl. reflexivity.
Qed.

Lemma ndindex_length (s : list nat) : length (Nd.ndindex s) = Nd.size s.
Proof.
  induction s as [| d s IH]; [reflexivity | ].
  cbn [Nd.ndindex Nd.size fold_right]. fold (Nd.size s).
  rewrite flat_map_concat_map.
  rewrite (@concat_uniform_length _ _ (Nd.size s)).
  - now rewrite length_map, length_seq.
  - apply Forall_forall. intros l Hl. apply in_map_iff in Hl.
    destruct Hl as [i [<- _]]. now rewrite length_map.
Qed.

Lemma offset_lt (s idx : list nat) :
  Nd.in_range s idx -> Nd.offset s idx < Nd.size s.
Proof.
  unfold Nd.in_range. intros H.
  induction H as [| i d idx s Hi _ IH]; [simpl; lia | ].
  cbn [Nd.offset Nd.size fold_right]. fold (Nd.size s). nia.
Qed.

Lemma ndindex_nth (s idx d : list nat) :
  Nd.in_range s idx -> nth (Nd.offset s idx) (Nd.ndindex s) d = idx.
Proof.
  unfold Nd.in_range. intros H.
  induction H as [| i n idx s Hi Hrest IH]; [reflexivity | ].
  cbn [Nd.offset Nd.ndindex]. rewrite flat_map_concat_map.
  rewrite (@nth_concat_uniform _ _ (Nd.size s)).
  - rewrite (nth_indep _ [] (map (cons i) (Nd.ndindex s)))
      by (now rewrite length_map, length_seq).
    rewrite (map_nth (fun i => map (cons i) (Nd.ndindex s))).
    rewrite seq_nth by exact Hi. simpl Nat.add.
    rewrite (nth_indep _ d (i :: d))
      by (rewrite length_map, ndindex_length; now apply offset_lt).
    rewrite (map_nth (cons i)). now rewrite IH.
  - apply Forall_forall. intros l Hl. apply in_map_iff in Hl.
    destruct Hl as [k [<- _]]. now rewrite length_map, ndindex_length.
  - now rewrite length_map, length_seq.
  - now apply offset_lt.
Qed.

Lemma size_app (s t : list nat) : Nd.size (s ++ t) = Nd.size s * Nd.size t.
Proof.
  induction s as [| d s IH]; simpl; [lia | ].
  fold (Nd.size (s ++ t)). fold (Nd.size s). rewrite IH. lia.
Qed.

Lemma offset_snoc (s ind : list nat) (m k : nat) :
  Nd.in_range s ind ->
  Nd.offset (s ++ [m]) (ind ++ [k]) = Nd.offset s ind * m + k.
Proof.
  unfold Nd.in_range. intros H.
  induction H as [| i d ind s Hi _ IH]; [simpl; lia | ].
  cbn [app Nd.offset]. rewrite IH, size_app. simpl Nd.size. lia.
Qed.

(** An index of the output shape splits into an index of the iteration
    axes and a position on the result axis. *)
Lemma in_range_put_axis (iter idx : list nat) (axis m : nat) :
  axis <= length iter ->
  Nd.in_range (Nd.put_axis axis iter m) idx ->
  Nd.in_range iter (Nd.drop_axis axis idx) /\ nth axis idx 0 < m.
Proof.
  intros Hax. unfold Nd.in_range, Nd.put_axis, Nd.drop_axis. intros H.
  apply Forall2_app_inv_r in H. destruct H as [i1 [rest [H1 [H2 ->]]]].
  apply Forall2_app_inv_r in H2. destruct H2 as [ik [i2 [Hk [H3 ->]]]].
  inversion Hk as [| k ? ? ? Hkm Hnil]; subst. inversion Hnil; subst.
  assert (Hl1 : length i1 = axis).
  { rewrite (Forall2_length H1), length_firstn. lia. }
  split.
  - rewrite firstn_app, firstn_all2 by lia.
    replace (axis - length i1) with 0 by lia. rewrite firstn_0, app_nil_r.
    rewrite skipn_app, skipn_all2 by lia.
    replace (S axis - length i1) with 1 by lia. simpl skipn.
    rewrite <- (firstn_skipn axis iter). now apply Forall2_app.
  - rewrite app_nth2 by lia. replace (axis - length i1) with 0 by lia.
    exact Hkm.
Qed.

Lemma put_drop_shape (s : list nat) (axis m : nat) :
  axis < length s ->
  Nd.put_axis axis (Nd.drop_axis axis s) m
  = firstn axis s ++ m :: skipn (S axis) s.
Proof.
  intros H. unfold Nd.put_axis, Nd.drop_axis.
  assert (Hl : length (firstn axis s) = axis) by (rewrite length_firstn; lia).
  rewrite firstn_app, firstn_firstn, Nat.min_id, Hl, Nat.sub_diag.
  rewrite firstn_0, app_nil_r.
  rewrite skipn_app, Hl, Nat.sub_diag, skipn_all2 by lia. reflexivity.
Qed.

Lemma drop_axis_length (s : list nat) (axis : nat) :
  axis < length s -> length (Nd.drop_axis axis s) = length s - 1.
Proof.
  intros H. unfold Nd.drop_axis.
  rewrite length_app, length_firstn, length_skipn. lia.
Qed.

End MultiIndex.

(* ================================================================= *)
(** ** C8: the N-D estimator batches the 1-D estimator *)

Section AxisBatching.

Lemma mapM_outcome_ok {A B} (f : A -> M B) (l : list A) (rs : list B) :
  Forall2 (fun a r => outcome (f a) = Ok r) l rs ->
  outcome (mapM f l) = Ok rs.
Proof.
  induction 1 as [| a r l rs Ha _ IH]; [reflexivity | ].
  cbn [mapM]. rewrite outcome_bind, Ha, outcome_bind, IH. reflexivity.
Qed.

Lemma mapM_outcome_fail {A B} (f : A -> M B) (pre post : list A) (a : A)
  (e : error) :
  Forall (fun x => exists r, outcome (f x) = Ok r) pre ->
  outcome (f a) = Raise e ->
  outcome (mapM f (pre ++ a :: post)) = Raise e.
Proof.
  intros Hpre Ha. induction Hpre as [| x pre [r Hx] _ IH]; cbn [app mapM].
  - now rewrite outcome_bind, Ha.
  - now rewrite outcome_bind, Hx, outcome_bind, IH.
Qed.

Lemma Forall_exists_Forall2 {A B} (P : A -> B -> Prop) (l : list A) :
  Forall (fun a => exists r, P a r) l -> exists rs, Forall2 P l rs.
Proof.
  induction 1 as [| a l [r Ha] _ [rs IH]].
  - exists []. constructor.
  - exists (r :: rs). now constructor.
Qed.

(** An estimate comes back for each requested quantile. *)
Lemma estimator_result_length (v q : list fnum) (sw : option (list fnum))
  (values_sorted old_style : bool) (r : list fnum) :
  outcome (weighted_quantile_1d v q sw values_sorted old_style) = Ok r ->
  length r = length q.
Proof.
  unfold weighted_quantile_1d. rewrite bind_emit. cbn [outcome snd].
  rewrite outcome_bind.
  destruct (outcome (assert_quantiles q)); [ | discriminate].
  rewrite outcome_bind.
  destruct (outcome (sort_jointly _ _ _)) as [[v' w'] | ]; [ | discriminate].
  rewrite outcome_bind.
  destruct (outcome (weighted_positions _ _)) as [wq | ]; [ | discriminate].
  unfold Np.interp. rewrite bind_emit. cbn [outcome snd].
  destruct (length wq =? 0); [discriminate | ].
  destruct (negb _); [discriminate | ].
  cbn [ret snd]. intros E. inversion E. apply interp_values_length.
Qed.

Variables (q : list fnum) (sw : option (list fnum))
          (values_sorted old_style : bool).


Lemma normalize_ok (axis : Z) (nd : nat) :
  (- Z.of_nat nd <= axis < Z.of_nat nd)%Z ->
  Nd.normalize_axis_index axis nd = ret (normal_axis axis nd) /\
  normal_axis axis nd < nd.
Proof.
  intros H. unfold Nd.normalize_axis_index, normal_axis.
  replace (- Z.of_nat nd <=? axis)%Z with true
    by (symmetry; apply Z.leb_le; lia).
  replace (axis <? Z.of_nat nd)%Z with true
    by (symmetry; apply Z.ltb_lt; lia).
  split; [reflexivity | ].
  destruct (axis <? 0)%Z eqn:E;
    [apply Z.ltb_lt in E | apply Z.ltb_ge in E]; lia.
Qed.

Lemma nd_branch (arr : ndarray) (axis : Z) :
  1 < Nd.ndim arr -> (- Z.of_nat (Nd.ndim arr) <= axis < Z.of_nat (Nd.ndim arr))%Z ->
  outcome (weighted_quantile arr q sw values_sorted old_style (Some axis))
  = let ax := normal_axis axis (Nd.ndim arr) in
    let iter_shape := Nd.drop_axis ax (Nd.shape arr) in
    match Nd.ndindex iter_shape with
    | [] => Raise ValueError
    | ind0 :: inds =>
        match estimate_slice q sw values_sorted old_style arr ax ind0 with
        | Raise e => Raise e
        | Ok res =>
            match outcome
                    (mapM (fun ind =>
                             r <- weighted_quantile_1d (Nd.slice arr ax ind)
                                    q sw values_sorted old_style ;;
                             if length r =? length res then ret r
                             else raise ValueError) inds) with
            | Raise e => Raise e
            | Ok rest =>
                Ok {| Nd.shape := Nd.put_axis ax iter_shape (length res);
                      Nd.data :=
                        map (fun idx =>
                               Nd.get {| Nd.shape := iter_shape ++ [length res];
                                         Nd.data := concat (res :: rest) |}
                                      (Nd.drop_axis ax idx ++ [nth ax idx 0]))
                            (Nd.ndindex
                               (Nd.put_axis ax iter_shape (length res))) |}
            end
        end
    end.
Proof.
  intros Hrank Haxis. destruct (normalize_ok _ Haxis) as [Hnorm _].
  unfold weighted_quantile. rewrite bind_emit. cbn [outcome snd].
  replace (1 <? Nd.ndim arr) with true by (symmetry; now apply Nat.ltb_lt).
  unfold Nd.apply_along_axis. rewrite bind_emit. cbn [outcome snd].
  rewrite Hnorm, bind_ret_l. cbv zeta.
  destruct (Nd.ndindex _) as [| ind0 inds]; [reflexivity | ].
  rewrite outcome_bind. unfold estimate_slice.
  destruct (outcome (weighted_quantile_1d _ _ _ _ _)) as [res | e];
    [ | reflexivity].
  rewrite outcome_bind.
  destruct (outcome (mapM _ inds)) as [rest | e]; reflexivity.
Qed.

End AxisBatching.

Section AxisBatchingClaim.

Lemma nth_map_lt {A B} (f : A -> B) (l : list A) (d : B) (d' : A) (i : nat) :
  i < length l -> nth i (map f l) d = f (nth i l d').
Proof.
  intros H. rewrite (nth_indep _ d (f d')) by (now rewrite length_map).
  apply map_nth.
Qed.

Lemma size_pos (s : list nat) : Forall (fun d => 0 < d) s -> 0 < Nd.size s.
Proof.
  induction 1 as [| d s Hd _ IH]; simpl; [lia | ]. fold (Nd.size s). nia.
Qed.

Lemma checked_slice_ok (q : list fnum) (sw : option (list fnum))
  (vs old : bool) (arr : ndarray) (ax : nat) (ind : list nat)
  (r : list fnum) (m : nat) :
  estimate_slice q sw vs old arr ax ind = Ok r -> m = length q ->
  outcome (r' <- weighted_quantile_1d (Nd.slice arr ax ind) q sw vs old ;;
           if length r' =? m then ret r' else raise ValueError) = Ok r.
Proof.
  unfold estimate_slice. intros Hr ->. rewrite outcome_bind, Hr.
  rewrite (estimator_result_length _ _ _ _ _ Hr), Nat.eqb_refl. reflexivity.
Qed.


(** C8 (as the code behaves).  For every array of rank greater than 1
    without zero-length dimension other than the weighting axis, every axis
    in [-rank, rank) and shared weights and quantiles, the N-D estimator
    batches the 1-D estimator over the slices along the axis. *)
Theorem axis_batching (arr : ndarray) (q : list fnum)
  (sw : option (list fnum)) (values_sorted old_style : bool) (axis : Z) :
  1 < Nd.ndim arr ->
  (- Z.of_nat (Nd.ndim arr) <= axis < Z.of_nat (Nd.ndim arr))%Z ->
  Forall (fun d => 0 < d)
         (Nd.drop_axis (normal_axis axis (Nd.ndim arr)) (Nd.shape arr)) ->
  batches_slices arr q sw values_sorted old_style axis.
Proof.
  intros Hrank Haxis Hdims. unfold batches_slices. cbv zeta.
  destruct (normalize_ok _ Haxis) as [_ Hax].
  set (ax := normal_axis axis (Nd.ndim arr)) in *.
  set (iter := Nd.drop_axis ax (Nd.shape arr)) in *.
  rewrite (nd_branch q sw values_sorted old_style arr Hrank Haxis).
  cbv zeta. fold ax. fold iter.
  assert (Hiterlen : ax <= length iter).
  { unfold iter. rewrite drop_axis_length by exact Hax.
    unfold Nd.ndim in *. lia. }
  pose proof (ndindex_length iter) as Hcount.
  pose proof (size_pos Hdims) as Hpos.
  pose proof (fun idx d H => @ndindex_nth iter idx d H) as Hnth.
  destruct (Nd.ndindex iter) as [| ind0 rest] eqn:Einds;
    [simpl in Hcount; lia | ].
  split; [ | split].
  - (* every slice succeeds *)
    intros Hall. destruct (Hall ind0 (or_introl eq_refl)) as [r0 Hr0].
    rewrite Hr0.
    pose proof (estimator_result_length _ _ _ _ _ Hr0) as Hm.
    assert (Hrest : Forall (fun a => exists r,
                      estimate_slice q sw values_sorted old_style arr ax a
                      = Ok r) rest).
    { apply Forall_forall. intros a Ha. apply Hall. now right. }
    destruct (Forall_exists_Forall2 _ Hrest) as [rs Hrs].
    rewrite (@mapM_outcome_ok _ _ _ rest rs).
    2:{ eapply Forall2_impl; [ | exact Hrs]. intros a r Ha.
        now apply checked_slice_ok. }
    eexists. split; [reflexivity | ]. cbn [Nd.shape].
    split; [unfold iter; rewrite Hm; now apply put_drop_shape | ].
    intros idx r Hidx Hr.
    destruct (in_range_put_axis _ _ Hiterlen Hidx) as [Hind Hk].
    unfold Nd.get at 1. cbn [Nd.shape Nd.data].
    rewrite (nth_map_lt _ _ NaN [])
      by (rewrite ndindex_length; now apply offset_lt).
    rewrite (ndindex_nth [] Hidx).
    unfold Nd.get. cbn [Nd.shape Nd.data].
    rewrite (offset_snoc _ _ Hind).
    assert (Hall2 : Forall2 (fun a r' =>
                       estimate_slice q sw values_sorted old_style arr ax a
                       = Ok r') (ind0 :: rest) (r0 :: rs))
      by (now constructor).
    assert (Hp : Nd.offset iter (Nd.drop_axis ax idx) < length (ind0 :: rest))
      by (rewrite Hcount; now apply offset_lt).
    rewrite (@nth_concat_uniform _ _ (length r0)).
    + pose proof (@Forall2_nth _ _ _ _ _ [] [] _ Hall2 Hp) as Hres.
      cbv beta in Hres. rewrite (Hnth _ [] Hind) in Hres.
      rewrite Hr in Hres. inversion Hres. reflexivity.
    + clear -Hall2 Hm. revert Hall2. generalize (ind0 :: rest), (r0 :: rs).
      induction 1 as [| a r' l l' Ha _ IH]; constructor; [ | exact IH].
      rewrite (estimator_result_length _ _ _ _ _ Ha). now symmetry.
    + now rewrite <- (Forall2_length Hall2).
    + exact Hk.
  - (* a slice fails *)
    intros pre ind post e Hsplit Hpre Hfail.
    destruct pre as [| p0 pre].
    + injection Hsplit as <- _. now rewrite Hfail.
    + injection Hsplit as <- ->.
      destruct (Hpre ind0 (or_introl eq_refl)) as [r0 Hr0]. rewrite Hr0.
      pose proof (estimator_result_length _ _ _ _ _ Hr0) as Hm.
      rewrite (@mapM_outcome_fail _ _ _ pre post ind e); [reflexivity | | ].
      * apply Forall_forall. intros a Ha.
        destruct (Hpre a (or_intror Ha)) as [r Hr]. exists r.
        now apply checked_slice_ok.
      * unfold estimate_slice in Hfail. now rewrite outcome_bind, Hfail.
  - (* a 1-D array *)
    intros l axis'. unfold weighted_quantile. rewrite bind_emit.
    cbn [outcome snd].
    change (1 <? Nd.ndim (Nd.of_list l)) with false. cbv iota.
    cbn [Nd.of_list Nd.shape Nd.data]. rewrite outcome_bind.
    destruct (outcome (weighted_quantile_1d _ _ _ _ _)); reflexivity.
Qed.

Lemma axis_batching_witness :
  batches_slices
    (mk_ndarray [2; 3] [fz 1; fz 2; fz 3; fz 10; fz 20; fz 30])
    [fq 1 2; fz 0] (Some [fz 1; fz 1; fz 2]) false false (-1).
Proof.
  apply (@axis_batching
           (mk_ndarray [2; 3] [fz 1; fz 2; fz 3; fz 10; fz 20; fz 30])
           [fq 1 2; fz 0] (Some [fz 1; fz 1; fz 2]) false false (-1)%Z).
  - unfold Nd.ndim. simpl. lia.
  - unfold Nd.ndim. simpl. lia.
  - repeat constructor.
Defined.

(** C8, counterexample.  An array of shape (0, 3) has rank 2 and no slice
    along axis 1; stacking the estimates of its slices would give an array
    of shape (0, 1), but [np.apply_along_axis] raises [ValueError]. *)
Lemma zero_length_iteration_axis_raises :
  let arr := mk_ndarray [0; 3] [] in
  1 < Nd.ndim arr /\ Nd.wf arr /\
  Nd.ndindex (Nd.drop_axis 1 (Nd.shape arr)) = [] /\
  weighted_quantile arr [fq 1 2] None false false (Some 1%Z)
  = ([EvEstimatorND; EvApplyAlongAxis], Raise ValueError).
Proof.
  cbv zeta. split; [unfold Nd.ndim; simpl; lia | ]. repeat split.
Qed.

End AxisBatchingClaim.

(* ================================================================= *)
(** * Further properties of the three functions *)

(** ** The 1-D estimator: refused and degenerate input *)

Lemma outcome_pair {A} (t : list event) (r : result A) :
  outcome (t, r) = r.
Proof. reflexivity. Qed.

Lemma assert_quantiles_fail (q : list fnum) (x : fnum) :
  In x q -> fge x F0 = false \/ fle x F1 = false ->
  assert_quantiles q = raise AssertionError.
Proof.
  intros Hin Hbad. unfold assert_quantiles, Np.all_ge, Np.all_le.
  destruct Hbad as [Hlo | Hhi].
  - replace (forallb (fun y => fge y F0) q) with false; [reflexivity | ].
    symmetry. apply not_true_iff_false. intros H.
    rewrite forallb_forall in H. specialize (H x Hin). congruence.
  - replace (forallb (fun y => fle y F1) q) with false;
      [now rewrite andb_false_r | ].
    symmetry. apply not_true_iff_false. intros H.
    rewrite forallb_forall in H. specialize (H x Hin). congruence.
Qed.

(** X1.  A quantile below 0, above 1 or NaN makes the whole call fail with
    [AssertionError] at the assertion, whatever the values, the weights and
    the flags are: the trace holds the entry of the estimator only, so
    nothing was sorted, summed or interpolated, and no estimate is
    returned for the quantiles that are in range. *)
Theorem quantile_out_of_range_fails_first (v q : list fnum)
  (sw : option (list fnum)) (values_sorted old_style : bool) (x : fnum) :
  In x q -> fge x F0 = false \/ fle x F1 = false ->
  weighted_quantile_1d v q sw values_sorted old_style
  = ([EvEstimator1D], Raise AssertionError).
Proof.
  intros Hin Hbad. unfold weighted_quantile_1d.
  now rewrite bind_emit, (assert_quantiles_fail _ _ Hin Hbad).
Qed.

Lemma quantile_out_of_range_fails_first_witness :
  weighted_quantile_1d [fz 1; fz 2] [fq 1 2; NaN; fz 1] (Some [fz 1])
                       false true
  = ([EvEstimator1D], Raise AssertionError).
Proof.
  apply (@quantile_out_of_range_fails_first
           [fz 1; fz 2] [fq 1 2; NaN; fz 1] (Some [fz 1]) false true NaN).
  - simpl. auto.
  - left. reflexivity.
Defined.

Lemma interp_single_knot (p v x : fnum) : Np.interp_single p v v v x = v.
Proof.
  unfold Np.interp_single.
  destruct (flt x p); [reflexivity | ]. destruct (fgt x p); reflexivity.
Qed.

(** X2.  A single observation is the estimate of every quantile, with either
    normalisation and whether or not the values are declared sorted, for
    any weight at all: a zero, negative, infinite or NaN weight makes the
    position of the only knot NaN or infinite, and the interpolation on one
    knot returns its value all the same. *)
Theorem single_observation_is_every_quantile (v : fnum) (q : list fnum)
  (sw : option (list fnum)) (values_sorted old_style : bool) :
  length (weights_or_ones [v] sw) = 1 -> in_unit_interval q ->
  outcome (weighted_quantile_1d [v] q sw values_sorted old_style)
  = Ok (map (fun _ => v) q).
Proof.
  intros Hlen Hq.
  assert (Hv : [v] <> []) by discriminate.
  assert (Hone : forall pos, length pos = 1 ->
            Np.interp_values q pos [v] = map (fun _ => v) q).
  { intros [| p [| p' pos]] Hp; try discriminate.
    unfold Np.interp_values. cbn [Np.at_ Z.to_nat nth length].
    apply map_ext. intros x. apply interp_single_knot. }
  destruct values_sorted.
  - rewrite (estimator_presorted sw old_style Hv Hlen Hq). cbn [outcome snd].
    f_equal. apply Hone. now rewrite positions_length.
  - rewrite (estimator_unsorted sw old_style Hv Hlen Hq). cbn [outcome snd].
    f_equal. change (sorted_values [v]) with [v]. apply Hone.
    now rewrite positions_length, sorted_weights_length.
Qed.

Lemma single_observation_is_every_quantile_witness :
  outcome (weighted_quantile_1d [fz 7] [fz 0; fq 1 3; fz 1] (Some [fz 0])
                                false true)
  = Ok (map (fun _ => fz 7) [fz 0; fq 1 3; fz 1]).
Proof.
  apply (@single_observation_is_every_quantile
           (fz 7) [fz 0; fq 1 3; fz 1] (Some [fz 0]) false true).
  - reflexivity.
  - repeat constructor.
Defined.

(** X3.  No value at all: for quantiles in range the call fails, with
    [ValueError] from [np.interp] (no sample point) under the default
    normalisation and with [IndexError] from [weighted_quantiles[0]] under
    the legacy one.  With [values_sorted=False] this holds whatever weights
    are passed, since indexing by the empty sort order drops them. *)
Theorem no_value_fails (q : list fnum) (sw : option (list fnum))
  (values_sorted old_style : bool) :
  in_unit_interval q ->
  values_sorted = false \/ weights_or_ones [] sw = [] ->
  outcome (weighted_quantile_1d [] q sw values_sorted old_style)
  = Raise (if old_style then IndexError else ValueError).
Proof.
  intros Hq Hcase. unfold weighted_quantile_1d.
  fold (weights_or_ones [] sw).
  rewrite bind_emit, (assert_quantiles_ok Hq), bind_ret_l, outcome_pair.
  assert (Hsort : outcome (sort_jointly [] (weights_or_ones [] sw)
                             values_sorted) = Ok ([], [])).
  { destruct values_sorted.
    - destruct Hcase as [? | ->]; [discriminate | reflexivity].
    - rewrite sort_jointly_ok by (simpl; lia). reflexivity. }
  rewrite outcome_bind, Hsort, outcome_bind, weighted_positions_empty.
  destruct old_style; reflexivity.
Qed.

Lemma no_value_fails_witness :
  outcome (weighted_quantile_1d [] [fq 1 2] (Some [fz 1; fz 2]) false false)
  = Raise ValueError.
Proof.
  apply (@no_value_fails [fq 1 2] (Some [fz 1; fz 2]) false false).
  - repeat constructor.
  - now left.
Defined.

(** X4.  A call that returns gives one estimate per quantile: whatever the
    values, the weights and the flags are, the result is as long as the
    quantile sequence. *)
Theorem one_estimate_per_quantile (v q : list fnum)
  (sw : option (list fnum)) (values_sorted old_style : bool)
  (r : list fnum) :
  outcome (weighted_quantile_1d v q sw values_sorted old_style) = Ok r ->
  length r = length q.
Proof.
  unfold weighted_quantile_1d. rewrite bind_emit, outcome_pair.
  rewrite outcome_bind.
  destruct (outcome (assert_quantiles q)); [ | discriminate].
  rewrite outcome_bind.
  destruct (outcome (sort_jointly _ _ _)) as [[v' w'] | ]; [ | discriminate].
  rewrite outcome_bind.
  destruct (outcome (weighted_positions _ _)) as [wq | ]; [ | discriminate].
  unfold Np.interp. rewrite bind_emit, outcome_pair.
  destruct (length wq =? 0)%nat; [discriminate | ].
  destruct (negb _); [discriminate | ].
  intros E. inversion E. apply interp_values_length.
Qed.

Lemma one_estimate_per_quantile_witness :
  length [fz 2; PInf; fz 2] = length [fz 0; fq 1 2; fz 0].
Proof.
  apply (@one_estimate_per_quantile [fz 2; PInf] [fz 0; fq 1 2; fz 0]
           (Some [fz 1; fz 1]) true false [fz 2; PInf; fz 2]).
  reflexivity.
Defined.

Lemma in_unit_interval_checked (q : list fnum) :
  in_unit_interval q <-> Np.all_ge F0 q && Np.all_le F1 q = true.
Proof.
  unfold in_unit_interval, Np.all_ge, Np.all_le.
  rewrite andb_true_iff, !forallb_forall, Forall_forall. split.
  - intros H. split; intros x Hx; now apply H.
  - intros [H0 H1] x Hx. split; [now apply H0 | now apply H1].
Qed.

(** X5.  When the 1-D estimator returns, and when it raises: it returns exactly
    when the quantiles are in [[0, 1]], there is a value, and there are as
    many weights as values ([values_sorted=True]) or at least as many
    ([values_sorted=False]).  Nothing else is checked: the values and the
    weights can be any numbers, negative, infinite or NaN. *)
Theorem returns_exactly_on_well_shaped_input (v q : list fnum)
  (sw : option (list fnum)) (values_sorted old_style : bool) :
  (exists r,
      outcome (weighted_quantile_1d v q sw values_sorted old_style) = Ok r)
  <-> in_unit_interval q /\ v <> [] /\
      (if values_sorted
       then length (weights_or_ones v sw) = length v
       else length v <= length (weights_or_ones v sw)).
Proof.
  unfold weighted_quantile_1d. fold (weights_or_ones v sw).
  set (w := weights_or_ones v sw).
  rewrite bind_emit, outcome_pair, outcome_bind.
  rewrite in_unit_interval_checked. unfold assert_quantiles.
  destruct (Np.all_ge F0 q && Np.all_le F1 q);
    [ | split; [intros [r H]; discriminate H | intros [H _]; discriminate H]].
  cbn [outcome ret snd]. rewrite outcome_bind.
  destruct values_sorted.
  - (* no sort *)
    cbn [sort_jointly negb outcome ret snd]. rewrite outcome_bind.
    destruct w as [| w0 w'] eqn:Ew.
    + rewrite weighted_positions_empty.
      split.
      * intros [r H]. exfalso. destruct old_style; cbn in H; discriminate H.
      * intros [_ [Hv Hlen]]. exfalso. destruct v; [congruence | discriminate].
    + rewrite weighted_positions_ok by discriminate.
      rewrite outcome_pair.
      destruct (Nat.eq_dec (length v) (length (w0 :: w'))) as [Hlen | Hlen].
      * rewrite interp_ok;
          [ | intros E; apply (f_equal (@length _)) in E;
              rewrite positions_length in E; discriminate
            | now rewrite positions_length].
        split; [ | intros _; now eexists].
        intros _. split; [reflexivity | ]. split; [ | now symmetry].
        intros ->. discriminate.
      * rewrite interp_mismatch by (now rewrite positions_length).
        split; [intros [r H]; discriminate H | ].
        intros [_ [_ H]]. exfalso. now apply Hlen.
  - (* sort *)
    destruct (Nat.lt_ge_cases (length w) (length v)) as [Hshort | Hlong].
    + rewrite (sort_jointly_short _ _ Hshort).
      split; [intros [r H]; discriminate H | ].
      intros [_ [_ H]]. lia.
    + rewrite (sort_jointly_ok _ _ Hlong), outcome_pair, outcome_bind.
      destruct v as [| v0 v'] eqn:Ev.
      * change (sorted_weights [] w) with (@nil fnum).
        rewrite weighted_positions_empty.
        split; [ | intros [_ [H _]]; congruence].
        intros [r H]. exfalso. destruct old_style; cbn in H; discriminate H.
      * rewrite <- Ev in *.
        assert (Hne : sorted_weights v w <> []).
        { intros E. apply (f_equal (@length _)) in E.
          rewrite sorted_weights_length, Ev in E. discriminate. }
        rewrite (weighted_positions_ok _ Hne), outcome_pair.
        rewrite interp_ok.
        -- split; [ | intros _; now eexists].
           intros _. split; [reflexivity | ]. split; [ | exact Hlong].
           rewrite Ev. discriminate.
        -- intros E. apply (f_equal (@length _)) in E.
           rewrite positions_length in E. now apply Hne, length_zero_iff_nil.
        -- now rewrite positions_length, sorted_weights_length,
             sorted_values_length.
Qed.

(** ** The 1-D estimator: values that are already ascending *)

Section Presorted.
Local Open Scope Q_scope.

Lemma seq_lex_sorted (v : list Q) (a len : nat) :
  nondecreasing v -> (a + len <= length v)%nat ->
  StronglySorted (lex_lt v) (seq a len).
Proof.
  intros Hv. revert a. induction len as [| len IH]; intros a Hb.
  - constructor.
  - cbn [seq]. constructor; [apply IH; lia | ].
    apply Forall_forall. intros j Hj. apply in_seq in Hj.
    unfold lex_lt, key.
    assert (Hle : nth a v 0 <= nth j v 0) by (apply Hv; lia).
    destruct (Qlt_le_dec (nth a v 0) (nth j v 0)); [now left | right].
    split; [now apply Qle_antisym | lia].
Qed.

(** On ascending values the sort order is the identity. *)
Lemma argsort_ascending (v : list Q) :
  nondecreasing v -> Np.argsort_indices (map Fin v) = seq 0 (length v).
Proof.
  intros Hv. apply (@lex_sorted_unique v).
  - apply argsort_stable.
  - apply seq_lex_sorted; [exact Hv | lia].
  - generalize (argsort_perm (map Fin v)). now rewrite length_map.
Qed.

Lemma increasing_nondecreasing (v : list Q) :
  increasing v -> nondecreasing v.
Proof.
  intros H i j Hij. destruct (Nat.eq_dec i j) as [-> | Hne];
    [apply Qle_refl | ].
  apply Qlt_le_weak, H. lia.
Qed.

(** X6.  On values that are strictly ascending, [values_sorted=True] only skips
    the sort: the outcome (estimates or exception) is the one of
    [values_sorted=False], for all weights of the right number, all
    quantiles and either normalisation. *)
Theorem presorted_flag_skips_only_the_sort (v : list Q) (q : list fnum)
  (sw : option (list fnum)) (old_style : bool) :
  increasing v ->
  length (weights_or_ones (map Fin v) sw) = length v ->
  outcome (weighted_quantile_1d (map Fin v) q sw true old_style)
  = outcome (weighted_quantile_1d (map Fin v) q sw false old_style).
Proof.
  intros Hinc Hlen. pose proof (increasing_nondecreasing Hinc) as Hv.
  unfold weighted_quantile_1d.
  fold (weights_or_ones (map Fin v) sw).
  set (w := weights_or_ones (map Fin v) sw) in *.
  rewrite !bind_emit, !outcome_pair.
  rewrite (outcome_bind (assert_quantiles q)).
  rewrite (outcome_bind (assert_quantiles q)).
  destruct (outcome (assert_quantiles q)); [ | reflexivity].
  rewrite (outcome_bind (sort_jointly _ _ true)).
  rewrite (outcome_bind (sort_jointly _ _ false)).
  rewrite sort_jointly_ok by (rewrite length_map; lia).
  unfold sort_jointly. cbn [negb ret]. rewrite !outcome_pair.
  unfold sorted_values, sorted_weights. rewrite (argsort_ascending Hv).
  replace (map (fun i => nth i w NaN) (seq 0 (length v))) with w
    by (rewrite <- Hlen; symmetry; apply map_nth_seq).
  replace (map (fun i => nth i (map Fin v) NaN) (seq 0 (length v)))
    with (map Fin v)
    by (rewrite <- (length_map Fin v) at 1; symmetry; apply map_nth_seq).
  reflexivity.
Qed.

Lemma presorted_flag_skips_only_the_sort_witness :
  outcome (weighted_quantile_1d (map Fin [1%Q; 2%Q; 4%Q; 5%Q])
             [fq 1 3; fz 1] (Some [fz 2; fz 0; fz 1; fz 1]) true false)
  = outcome (weighted_quantile_1d (map Fin [1%Q; 2%Q; 4%Q; 5%Q])
               [fq 1 3; fz 1] (Some [fz 2; fz 0; fz 1; fz 1]) false false).
Proof.
  apply (@presorted_flag_skips_only_the_sort
           [1%Q; 2%Q; 4%Q; 5%Q] [fq 1 3; fz 1]
           (Some [fz 2; fz 0; fz 1; fz 1]) false).
  - intros i j Hij. simpl in Hij.
    destruct i as [| [| [| [| i]]]]; destruct j as [| [| [| [| j]]]];
      simpl; try lia; reflexivity.
  - reflexivity.
Defined.

End Presorted.


(* ================================================================= *)
(** ** The estimator under either normalisation *)

Section EitherNormalisation.
Local Open Scope Q_scope.

Lemma qshifted_nth (w : list Q) (j : nat) :
  (j < length w)%nat ->
  nth j (qshifted w) 0
  == Qsum (firstn j w) + (1 # 2) * nth j w 0 - (1 # 2) * nth 0 w 0.
Proof.
  intros Hj. unfold qshifted.
  set (r0 := nth 0 (qraw w) 0).
  rewrite (nth_indep _ 0 ((fun p => p + - r0) 0))
    by (now rewrite length_map, qraw_length).
  rewrite (map_nth (fun p => p + - r0)). unfold r0.
  rewrite !qraw_nth by lia. simpl. ring.
Qed.

Lemma qpositions_old_nth (w : list Q) (j : nat) :
  (j < length w)%nat ->
  nth j (qpositions_old w) 0 == nth j (qshifted w) 0 / normaliser true w.
Proof.
  intros Hj. unfold qpositions_old, normaliser.
  set (d := nth (length w - 1) (qshifted w) 0).
  rewrite (nth_indep _ 0 ((fun p => p / d) 0))
    by (now rewrite length_map, qshifted_length).
  now rewrite (map_nth (fun p => p / d)).
Qed.

Lemma knots_length (old_style : bool) (w : list Q) :
  length (knots old_style w) = length w.
Proof.
  destruct old_style; [apply qpositions_old_length | apply qpositions_length].
Qed.

(** The normalised position of an observation: the weight before it plus
    half of its own, less half of the first weight under the legacy
    normalisation, over the normaliser. *)
Lemma knots_nth (old_style : bool) (w : list Q) (j : nat) :
  (j < length w)%nat ->
  nth j (knots old_style w) 0
  == (Qsum (firstn j w) + (1 # 2) * nth j w 0
      - (if old_style then (1 # 2) * nth 0 w 0 else 0))
     / normaliser old_style w.
Proof.
  intros Hj. destruct old_style; cbn [knots].
  - rewrite qpositions_old_nth, qshifted_nth by lia. reflexivity.
  - rewrite qpositions_nth by lia. unfold normaliser.
    apply Qdiv_comp; [ring | reflexivity].
Qed.

Lemma knots_nondecreasing (old_style : bool) (w : list Q) :
  Forall (fun x => 0 <= x) w -> 0 < normaliser old_style w ->
  nondecreasing (knots old_style w).
Proof.
  intros Hw Hpos. apply nondecreasing_of_steps. intros i Hi.
  rewrite knots_length in Hi. rewrite !knots_nth by lia.
  apply Qdiv_le_compat; [exact Hpos | ].
  rewrite Qsum_firstn_S by lia.
  pose proof (nth_nonneg i Hw). pose proof (nth_nonneg (S i) Hw). lra.
Qed.

(** With strictly positive weights no two observations share a position. *)
Lemma knots_increasing (old_style : bool) (w : list Q) (i j : nat) :
  Forall (fun x => 0 < x) w -> 0 < normaliser old_style w ->
  (i < j < length w)%nat ->
  nth i (knots old_style w) 0 < nth j (knots old_style w) 0.
Proof.
  intros Hw Hpos [Hij Hj].
  assert (Hnn : Forall (fun x => 0 <= x) w).
  { eapply Forall_impl; [ | exact Hw]. intros a Ha. simpl in Ha. lra. }
  assert (Hstep : nth i (knots old_style w) 0
                  < nth (S i) (knots old_style w) 0).
  { rewrite !knots_nth by lia. apply Qdiv_lt_compat; [exact Hpos | ].
    rewrite Qsum_firstn_S by lia.
    assert (0 < nth i w 0)
      by (apply (proj1 (Forall_forall _ _) Hw); apply nth_In; lia).
    assert (0 < nth (S i) w 0)
      by (apply (proj1 (Forall_forall _ _) Hw); apply nth_In; lia).
    lra. }
  apply Qlt_le_trans with (nth (S i) (knots old_style w) 0); [exact Hstep | ].
  apply (knots_nondecreasing old_style Hnn Hpos). rewrite knots_length. lia.
Qed.

(** The legacy normalisation puts the first observation at 0 and the last
    one at 1. *)
Lemma legacy_first_knot (w : list Q) :
  0 < normaliser true w -> nth 0 (knots true w) 0 == 0.
Proof.
  intros Hpos.
  assert (Hn : (0 < length w)%nat).
  { destruct (Nat.eq_dec (length w) 0) as [E | E]; [ | lia].
    unfold normaliser in Hpos.
    rewrite nth_overflow in Hpos by (rewrite qshifted_length; lia). lra. }
  rewrite knots_nth by lia. simpl firstn. simpl Qsum. field. lra.
Qed.

Lemma legacy_last_knot (w : list Q) :
  0 < normaliser true w -> nth (length w - 1) (knots true w) 0 == 1.
Proof.
  intros Hpos.
  assert (Hn : (0 < length w)%nat).
  { destruct (Nat.eq_dec (length w) 0) as [E | E]; [ | lia].
    unfold normaliser in Hpos.
    rewrite nth_overflow in Hpos by (rewrite qshifted_length; lia). lra. }
  cbn [knots]. rewrite qpositions_old_nth by lia.
  unfold normaliser at 1. field. unfold normaliser in Hpos. lra.
Qed.

(** Strictly positive weights on at least two observations (one is enough
    for the default normalisation) make the normaliser positive. *)
Lemma positive_weights_normaliser (old_style : bool) (w : list Q) :
  Forall (fun x => 0 < x) w ->
  ((if old_style then 2 else 1) <= length w)%nat ->
  0 < normaliser old_style w.
Proof.
  intros Hw Hn.
  assert (Hnn : Forall (fun x => 0 <= x) w).
  { eapply Forall_impl; [ | exact Hw]. intros a Ha. simpl in Ha. lra. }
  assert (Hat : forall i, (i < length w)%nat -> 0 < nth i w 0).
  { intros i Hi. apply (proj1 (Forall_forall _ _) Hw). now apply nth_In. }
  destruct old_style; unfold normaliser.
  - rewrite qshifted_nth by lia.
    pose proof (Hat 0%nat ltac:(lia)).
    pose proof (Hat (length w - 1)%nat ltac:(lia)).
    assert (Qsum (firstn 1 w) <= Qsum (firstn (length w - 1) w))
      by (apply Qsum_firstn_mono; [exact Hnn | lia]).
    assert (Qsum (firstn 1 w) == nth 0 w 0)
      by (destruct w; [simpl in Hn; lia | simpl; ring]).
    lra.
  - destruct w as [| x w]; [simpl in Hn; lia | ].
    simpl. apply Forall_cons_iff in Hw. destruct Hw as [Hx Hw'].
    apply Forall_cons_iff in Hnn. destruct Hnn as [_ Hnn'].
    pose proof (Qsum_nonneg Hnn'). lra.
Qed.

(** Non-empty values, as many non-negative weights, a positive normaliser
    and quantiles in the unit interval: every stage succeeds, and the
    estimates are the values of the curve through the knots (normalised
    position, sorted value). *)
Lemma estimator_curve (old_style : bool) (v w q : list Q) :
  v <> [] -> length w = length v ->
  Forall (fun x => 0 <= x) w ->
  0 < normaliser old_style (sorted_qweights v w) ->
  unit_quantiles q ->
  exists ys,
    outcome (weighted_quantile_1d (map Fin v) (map Fin q)
               (Some (map Fin w)) false old_style) = Ok (map Fin ys) /\
    Forall2 (interp_spec (knots old_style (sorted_qweights v w))
                         (sorted_qvalues v)) q ys.
Proof.
  intros Hv Hlen Hnonneg Hpos Hq.
  assert (Hv' : map Fin v <> []) by (destruct v; [congruence | discriminate]).
  assert (Hlen' : length (weights_or_ones (map Fin v) (Some (map Fin w)))
                  = length (map Fin v))
    by (simpl; now rewrite !length_map).
  rewrite (estimator_unsorted _ old_style Hv' Hlen'
             (in_unit_interval_fins Hq)).
  cbn [weights_or_ones outcome snd].
  rewrite sorted_values_fins, (sorted_weights_fins v w Hlen).
  pose proof (sorted_qweights_perm v w Hlen) as Hperm.
  assert (Hnn : Forall (fun x => 0 <= x) (sorted_qweights v w))
    by (apply (Forall_perm (Permutation_sym Hperm)); assumption).
  assert (Hne : sorted_qweights v w <> []).
  { intros E. apply (f_equal (@length _)) in E.
    rewrite sorted_qweights_length in E.
    destruct v; [congruence | discriminate]. }
  assert (Hpositions : positions (map Fin (sorted_qweights v w)) old_style
                       = map Fin (knots old_style (sorted_qweights v w))).
  { destruct old_style; cbn [knots].
    - apply positions_old_fins; [exact Hne | ].
      unfold normaliser in Hpos. lra.
    - apply positions_fins. unfold normaliser in Hpos. lra. }
  rewrite Hpositions.
  destruct (@interp_values_spec (knots old_style (sorted_qweights v w))
              (sorted_qvalues v) q) as [ys [Hys Hspec]].
  - intros E. apply (f_equal (@length _)) in E.
    rewrite knots_length, sorted_qweights_length in E.
    destruct v; [congruence | discriminate].
  - now apply knots_nondecreasing.
  - now rewrite knots_length, sorted_qweights_length, sorted_qvalues_length.
  - exists ys. now rewrite Hys.
Qed.

End EitherNormalisation.

(* ================================================================= *)
(** ** Shape of the estimates *)

Section EstimateShape.
Local Open Scope Q_scope.

Lemma interp_spec_at_knot (xp fp : list Q) (j : nat) (x y : Q) :
  increasing xp -> (j < length xp)%nat -> x == nth j xp 0 ->
  interp_spec xp fp x y -> y == nth j fp 0.
Proof.
  intros Hinc Hj Hx. unfold interp_spec.
  intros [[Hlt _] | [[Hle Hy] | [k [Hk [Hle [Hlt Hy]]]]]].
  - exfalso. destruct j as [| j]; [lra | ].
    assert (nth 0 xp 0 < nth (S j) xp 0) by (apply Hinc; lia). lra.
  - destruct (Nat.eq_dec j (length xp - 1)) as [-> | Hne]; [exact Hy | ].
    exfalso.
    assert (nth j xp 0 < nth (length xp - 1) xp 0) by (apply Hinc; lia). lra.
  - destruct (lt_eq_lt_dec j k) as [[Hjk | ->] | Hjk].
    + exfalso. assert (nth j xp 0 < nth k xp 0) by (apply Hinc; lia). lra.
    + rewrite Hy. assert (E : x - nth k xp 0 == 0) by lra.
      rewrite E. ring.
    + exfalso. destruct (Nat.eq_dec j (S k)) as [-> | Hne]; [lra | ].
      assert (nth (S k) xp 0 < nth j xp 0) by (apply Hinc; lia). lra.
Qed.

Lemma interp_spec_left_tail (xp fp : list Q) (x y : Q) :
  xp <> [] -> nondecreasing xp -> x < nth 0 xp 0 ->
  interp_spec xp fp x y -> y == nth 0 fp 0.
Proof.
  intros Hne Hs Hx.
  assert (Hn : (0 < length xp)%nat) by (destruct xp; [congruence | simpl; lia]).
  unfold interp_spec.
  intros [[_ Hy] | [[Hle _] | [k [Hk [Hle _]]]]].
  - exact Hy.
  - exfalso.
    assert (nth 0 xp 0 <= nth (length xp - 1) xp 0) by (apply Hs; lia). lra.
  - exfalso. assert (nth 0 xp 0 <= nth k xp 0) by (apply Hs; lia). lra.
Qed.

Lemma interp_spec_right_tail (xp fp : list Q) (x y : Q) :
  xp <> [] -> nondecreasing xp -> nth (length xp - 1) xp 0 <= x ->
  interp_spec xp fp x y -> y == nth (length xp - 1) fp 0.
Proof.
  intros Hne Hs Hx.
  assert (Hn : (0 < length xp)%nat) by (destruct xp; [congruence | simpl; lia]).
  unfold interp_spec.
  intros [[Hlt _] | [[_ Hy] | [k [Hk [_ [Hlt _]]]]]].
  - exfalso.
    assert (nth 0 xp 0 <= nth (length xp - 1) xp 0) by (apply Hs; lia). lra.
  - exact Hy.
  - exfalso.
    assert (nth (S k) xp 0 <= nth (length xp - 1) xp 0) by (apply Hs; lia).
    lra.
Qed.

(** The knots of the curve of a call: there is one per observation, their
    positions and their values are ascending. *)
Lemma sorted_curve_facts (old_style : bool) (v w : list Q) :
  v <> [] -> length w = length v ->
  Forall (fun x => 0 <= x) w ->
  0 < normaliser old_style (sorted_qweights v w) ->
  knots old_style (sorted_qweights v w) <> [] /\
  nondecreasing (knots old_style (sorted_qweights v w)) /\
  nondecreasing (sorted_qvalues v) /\
  length (sorted_qvalues v) = length (knots old_style (sorted_qweights v w)) /\
  length (knots old_style (sorted_qweights v w)) = length v.
Proof.
  intros Hv Hlen Hnonneg Hpos.
  pose proof (sorted_qweights_perm v w Hlen) as Hperm.
  assert (Hnn : Forall (fun x => 0 <= x) (sorted_qweights v w))
    by (apply (Forall_perm (Permutation_sym Hperm)); assumption).
  assert (Hl : length (knots old_style (sorted_qweights v w)) = length v)
    by now rewrite knots_length, sorted_qweights_length.
  repeat split.
  - intros E. apply (f_equal (@length _)) in E. rewrite Hl in E.
    destruct v; [congruence | discriminate].
  - now apply knots_nondecreasing.
  - apply sorted_qvalues_nondecreasing.
  - now rewrite Hl, sorted_qvalues_length.
  - exact Hl.
Qed.

(** X9.  Each quantile is estimated on its own: for weights that are counts,
    a positive normaliser and values of moderate magnitude, the estimate at
    a position of the quantile sequence is the estimate the call on that
    quantile alone returns, whatever the quantiles before it are and in
    whatever order they come (the interpolation starts each search from
    the segment of the previous quantile; the start does not change what
    is found). *)
Theorem quantiles_are_estimated_independently (old_style : bool)
  (v w q : list Q) :
  v <> [] -> length w = length v ->
  counts w ->
  0 < normaliser old_style (sorted_qweights v w) ->
  moderate v ->
  unit_quantiles q ->
  exists ys,
    outcome (weighted_quantile_1d (map Fin v) (map Fin q)
               (Some (map Fin w)) false old_style) = Ok (map Fin ys) /\
    forall i, (i < length q)%nat ->
      exists y,
        outcome (weighted_quantile_1d (map Fin v) [Fin (nth i q 0)]
                   (Some (map Fin w)) false old_style) = Ok [Fin y] /\
        y == nth i ys 0.
Proof.
  intros Hv Hlen Hcounts Hpos _ Hq.
  pose proof (counts_nonneg Hcounts) as Hnonneg.
  destruct (estimator_curve old_style Hv Hlen Hnonneg Hpos Hq)
    as [ys [Hrun Hspec]].
  destruct (sorted_curve_facts old_style Hv Hlen Hnonneg Hpos)
    as [Hne [Hxs _]].
  exists ys. split; [exact Hrun | ]. intros i Hi.
  assert (Hqi : unit_quantiles [nth i q 0]).
  { constructor; [ | constructor].
    apply (proj1 (Forall_forall _ _) Hq). now apply nth_In. }
  destruct (estimator_curve old_style Hv Hlen Hnonneg Hpos Hqi)
    as [ys1 [Hrun1 Hspec1]].
  inversion Hspec1 as [| x y l l' Hy Hrest]; subst.
  inversion Hrest; subst.
  exists y. split; [exact Hrun1 | ].
  apply (interp_spec_deterministic Hne Hxs Hy).
  apply (Forall2_nth 0 0 Hspec Hi).
Qed.

Lemma quantiles_are_estimated_independently_witness :
  exists ys,
    outcome (weighted_quantile_1d (map Fin [3; 1; 2; 5; 4; 7])
               (map Fin [1%Q; 1 # 4; 1 # 2])
               (Some (map Fin [1; 1; 2; 1; 1; 1])) false false)
    = Ok (map Fin ys) /\
    forall i, (i < length [1%Q; 1 # 4; 1 # 2])%nat ->
      exists y,
        outcome (weighted_quantile_1d (map Fin [3; 1; 2; 5; 4; 7])
                   [Fin (nth i [1%Q; 1 # 4; 1 # 2] 0)]
                   (Some (map Fin [1; 1; 2; 1; 1; 1])) false false)
        = Ok [Fin y] /\
        y == nth i ys 0.
Proof.
  apply (@quantiles_are_estimated_independently false [3; 1; 2; 5; 4; 7]
           [1; 1; 2; 1; 1; 1] [1%Q; 1 # 4; 1 # 2]).
  - discriminate.
  - reflexivity.
  - split; [repeat constructor; discriminate | discriminate].
  - reflexivity.
  - repeat constructor; discriminate.
  - repeat constructor; discriminate.
Defined.

(** Strictly positive weights, and enough observations for the
    normaliser not to vanish. *)
Lemma positive_weights_curve (old_style : bool) (v w : list Q) :
  length w = length v -> Forall (fun x => 0 < x) w ->
  ((if old_style then 2 else 1) <= length v)%nat ->
  v <> [] /\ Forall (fun x => 0 <= x) w /\
  Forall (fun x => 0 < x) (sorted_qweights v w) /\
  0 < normaliser old_style (sorted_qweights v w).
Proof.
  intros Hlen Hw Hn.
  assert (Hsw : Forall (fun x => 0 < x) (sorted_qweights v w)).
  { apply (Forall_perm (Permutation_sym (sorted_qweights_perm v w Hlen))).
    exact Hw. }
  repeat split.
  - intros ->. destruct old_style; simpl in Hn; lia.
  - eapply Forall_impl; [ | exact Hw]. intros a Ha. simpl in Ha. lra.
  - exact Hsw.
  - apply positive_weights_normaliser; [exact Hsw | ].
    now rewrite sorted_qweights_length.
Qed.

Lemma interp_spec_at_step (xp fp : list Q) (j : nat) (x y : Q) :
  nondecreasing xp -> (j < length xp)%nat ->
  ((S j < length xp)%nat -> nth j xp 0 < nth (S j) xp 0) ->
  x == nth j xp 0 -> interp_spec xp fp x y -> y == nth j fp 0.
Proof.
  intros Hs Hj Hstep Hx. unfold interp_spec.
  intros [[Hlt _] | [[Hle Hy] | [k [Hk [Hle [Hlt Hy]]]]]].
  - exfalso. assert (nth 0 xp 0 <= nth j xp 0) by (apply Hs; lia). lra.
  - destruct (Nat.eq_dec j (length xp - 1)) as [-> | Hne]; [exact Hy | ].
    exfalso. specialize (Hstep ltac:(lia)).
    assert (nth (S j) xp 0 <= nth (length xp - 1) xp 0) by (apply Hs; lia).
    lra.
  - destruct (lt_eq_lt_dec j k) as [[Hjk | ->] | Hjk].
    + exfalso. specialize (Hstep ltac:(lia)).
      assert (nth (S j) xp 0 <= nth k xp 0) by (apply Hs; lia). lra.
    + rewrite Hy. assert (E : x - nth k xp 0 == 0) by lra.
      rewrite E. ring.
    + exfalso. assert (nth (S k) xp 0 <= nth j xp 0) by (apply Hs; lia). lra.
Qed.

(** X10.  The curve passes through an observation whenever the next observation
    in sorted order does not share its position: for weights that are
    counts, observations of equal value carrying equal weight, a positive
    normaliser and values of moderate magnitude, a quantile equal to the
    normalised position of the observation of rank [j] in sorted order is
    estimated by the value of that observation, provided it is the last
    one or its weight and the weight of the next one are not both zero.
    With strictly positive weights this holds for every observation; and
    an observation of weight zero is not ignored when the next one has a
    positive weight. *)
Theorem position_of_an_observation_returns_its_value (old_style : bool)
  (v w q : list Q) :
  v <> [] -> length w = length v ->
  ties_identical v w -> counts w ->
  0 < normaliser old_style (sorted_qweights v w) ->
  moderate v ->
  unit_quantiles q ->
  exists ys,
    outcome (weighted_quantile_1d (map Fin v) (map Fin q)
               (Some (map Fin w)) false old_style) = Ok (map Fin ys) /\
    forall i j, (i < length q)%nat -> (j < length v)%nat ->
      ((S j < length v)%nat ->
       0 < nth j (sorted_qweights v w) 0
           + nth (S j) (sorted_qweights v w) 0) ->
      nth i q 0 == nth j (knots old_style (sorted_qweights v w)) 0 ->
      nth i ys 0 == nth j (sorted_qvalues v) 0.
Proof.
  intros Hv Hlen _ Hcounts Hpos _ Hq.
  pose proof (counts_nonneg Hcounts) as Hnonneg.
  destruct (estimator_curve old_style Hv Hlen Hnonneg Hpos Hq)
    as [ys [Hrun Hspec]].
  destruct (sorted_curve_facts old_style Hv Hlen Hnonneg Hpos)
    as [_ [Hxs [_ [_ Hl]]]].
  exists ys. split; [exact Hrun | ]. intros i j Hi Hj Hnext Hij.
  apply (@interp_spec_at_step (knots old_style (sorted_qweights v w))
           (sorted_qvalues v) j (nth i q 0)).
  - exact Hxs.
  - now rewrite Hl.
  - rewrite Hl. intros HSj. specialize (Hnext HSj).
    rewrite !knots_nth by (rewrite sorted_qweights_length; lia).
    apply Qdiv_lt_compat; [exact Hpos | ].
    rewrite Qsum_firstn_S by (rewrite sorted_qweights_length; lia).
    lra.
  - exact Hij.
  - apply (Forall2_nth 0 0 Hspec Hi).
Qed.

Lemma position_of_an_observation_returns_its_value_witness :
  exists ys,
    outcome (weighted_quantile_1d (map Fin [30; 10; 20])
               (map Fin [1 # 2; 1 # 8])
               (Some (map Fin [1; 1; 0])) false false) = Ok (map Fin ys) /\
    forall i j, (i < length [1 # 2; 1 # 8])%nat ->
      (j < length [30; 10; 20])%nat ->
      ((S j < length [30; 10; 20])%nat ->
       0 < nth j (sorted_qweights [30; 10; 20] [1; 1; 0]) 0
           + nth (S j) (sorted_qweights [30; 10; 20] [1; 1; 0]) 0) ->
      nth i [1 # 2; 1 # 8] 0
      == nth j (knots false (sorted_qweights [30; 10; 20] [1; 1; 0])) 0 ->
      nth i ys 0 == nth j (sorted_qvalues [30; 10; 20]) 0.
Proof.
  apply (@position_of_an_observation_returns_its_value false
           [30; 10; 20] [1; 1; 0] [1 # 2; 1 # 8]).
  - discriminate.
  - reflexivity.
  - intros p p' Hp Hp' E. simpl in Hp, Hp'.
    repeat match goal with
           | H : _ \/ _ |- _ => destruct H as [H | H]
           | H : False |- _ => contradiction
           end; subst; try reflexivity; discriminate.
  - split; [repeat constructor; discriminate | discriminate].
  - reflexivity.
  - repeat constructor; discriminate.
  - repeat constructor; discriminate.
Defined.

(** X11.  The tails of the curve are flat: for weights that are counts,
    observations of equal value carrying equal weight, a positive
    normaliser and values of moderate magnitude, a quantile below the
    normalised position of the first sorted observation is estimated by
    the minimum of the values, and a quantile at or above the position of
    the last sorted observation by their maximum.  (Under the legacy
    normalisation these positions are 0 and 1.) *)
Theorem tails_are_flat (old_style : bool) (v w q : list Q) :
  v <> [] -> length w = length v ->
  ties_identical v w -> counts w ->
  0 < normaliser old_style (sorted_qweights v w) ->
  moderate v ->
  unit_quantiles q ->
  exists ys,
    outcome (weighted_quantile_1d (map Fin v) (map Fin q)
               (Some (map Fin w)) false old_style) = Ok (map Fin ys) /\
    Forall2
      (fun x y =>
         (x < nth 0 (knots old_style (sorted_qweights v w)) 0 ->
          is_minimum v y) /\
         (nth (length v - 1) (knots old_style (sorted_qweights v w)) 0 <= x ->
          is_maximum v y))
      q ys.
Proof.
  intros Hv Hlen _ Hcounts Hpos _ Hq.
  pose proof (counts_nonneg Hcounts) as Hnonneg.
  destruct (estimator_curve old_style Hv Hlen Hnonneg Hpos Hq)
    as [ys [Hrun Hspec]].
  destruct (sorted_curve_facts old_style Hv Hlen Hnonneg Hpos)
    as [Hne [Hxs [_ [_ Hl]]]].
  exists ys. split; [exact Hrun | ].
  eapply Forall2_impl; [ | exact Hspec].
  intros x y Hxy. split; intros Hx.
  - apply sorted_first_is_minimum; [exact Hv | ].
    now apply (interp_spec_left_tail Hne Hxs Hx).
  - apply sorted_last_is_maximum; [exact Hv | ].
    rewrite <- Hl in Hx |- *.
    now apply (interp_spec_right_tail Hne Hxs Hx).
Qed.

Lemma tails_are_flat_witness :
  exists ys,
    outcome (weighted_quantile_1d (map Fin [30; 10; 20])
               (map Fin [1 # 10; 9 # 10])
               (Some (map Fin [1; 1; 2])) false false) = Ok (map Fin ys) /\
    Forall2
      (fun x y =>
         (x < nth 0 (knots false (sorted_qweights [30; 10; 20] [1; 1; 2])) 0 ->
          is_minimum [30; 10; 20] y) /\
         (nth (length [30; 10; 20] - 1)
              (knots false (sorted_qweights [30; 10; 20] [1; 1; 2])) 0 <= x ->
          is_maximum [30; 10; 20] y))
      [1 # 10; 9 # 10] ys.
Proof.
  apply (@tails_are_flat false [30; 10; 20] [1; 1; 2] [1 # 10; 9 # 10]).
  - discriminate.
  - reflexivity.
  - intros p p' Hp Hp' E. simpl in Hp, Hp'.
    repeat match goal with
           | H : _ \/ _ |- _ => destruct H as [H | H]
           | H : False |- _ => contradiction
           end; subst; try reflexivity; discriminate.
  - split; [repeat constructor; discriminate | discriminate].
  - reflexivity.
  - repeat constructor; discriminate.
  - repeat constructor; discriminate.
Defined.

(** X12.  The legacy normalisation pins the ends: with strictly positive weights
    that are counts, on at least two observations of moderate magnitude,
    quantile 0 is estimated by the minimum of the values and quantile 1 by
    their maximum. *)
Theorem legacy_ends_are_the_extremes (v w q : list Q) :
  length w = length v -> Forall (fun x => 0 < x) w -> counts w ->
  (2 <= length v)%nat -> moderate v -> unit_quantiles q ->
  exists ys,
    outcome (weighted_quantile_1d (map Fin v) (map Fin q)
               (Some (map Fin w)) false true) = Ok (map Fin ys) /\
    Forall2 (fun x y => (x == 0 -> is_minimum v y) /\
                        (x == 1 -> is_maximum v y)) q ys.
Proof.
  intros Hlen Hw _ Hn _ Hq.
  destruct (positive_weights_curve true v Hlen Hw Hn)
    as [Hv [Hnonneg [Hsw Hpos]]].
  destruct (estimator_curve true Hv Hlen Hnonneg Hpos Hq)
    as [ys [Hrun Hspec]].
  exists ys. split; [exact Hrun | ].
  assert (Hinc : forall a b,
             (a < b < length (knots true (sorted_qweights v w)))%nat ->
             nth a (knots true (sorted_qweights v w)) 0
             < nth b (knots true (sorted_qweights v w)) 0).
  { intros a b Hab. rewrite knots_length in Hab. now apply knots_increasing. }
  assert (Hl : length (knots true (sorted_qweights v w)) = length v)
    by now rewrite knots_length, sorted_qweights_length.
  eapply Forall2_impl; [ | exact Hspec].
  intros x y Hxy. split; intros Hx.
  - apply sorted_first_is_minimum; [exact Hv | ].
    apply (@interp_spec_at_knot _ _ 0%nat x y Hinc); [lia | | exact Hxy].
    now rewrite legacy_first_knot.
  - apply sorted_last_is_maximum; [exact Hv | ].
    apply (@interp_spec_at_knot _ _ (length v - 1)%nat x y Hinc);
      [lia | | exact Hxy].
    rewrite <- (sorted_qweights_length v w) at 1.
    now rewrite legacy_last_knot.
Qed.

Lemma legacy_ends_are_the_extremes_witness :
  exists ys,
    outcome (weighted_quantile_1d (map Fin [30; 10; 20]) (map Fin [0; 1])
               (Some (map Fin [1; 1; 2])) false true) = Ok (map Fin ys) /\
    Forall2 (fun x y => (x == 0 -> is_minimum [30; 10; 20] y) /\
                        (x == 1 -> is_maximum [30; 10; 20] y)) [0; 1] ys.
Proof.
  apply (@legacy_ends_are_the_extremes [30; 10; 20] [1; 1; 2] [0; 1]).
  - reflexivity.
  - repeat constructor.
  - split; [repeat constructor; discriminate | discriminate].
  - simpl. lia.
  - repeat constructor; discriminate.
  - repeat constructor; discriminate.
Defined.

End EstimateShape.

(* ================================================================= *)
(** ** No weights, and two observations *)

Section SpecialWeights.
Local Open Scope Q_scope.

Lemma sorted_unit_qweights (v : list Q) :
  sorted_qweights v (repeat 1 (length v)) = repeat 1 (length v).
Proof.
  unfold sorted_qweights.
  assert (H : forall idx n, Forall (fun i => (i < n)%nat) idx ->
              map (fun i => nth i (repeat 1 n) 0) idx
              = repeat 1 (length idx)).
  { intros idx n. induction 1 as [| i l Hi _ IH]; simpl; [reflexivity | ].
    rewrite IH. f_equal. now apply nth_repeat_lt. }
  pose proof (argsort_bound (map Fin v)) as Hb. rewrite length_map in Hb.
  rewrite (H _ _ Hb). now rewrite argsort_length, length_map.
Qed.

(** X13.  Without weights every observation weighs 1, and the observation of
    rank [j] (from 0) among [n] sits at quantile [(j + 1/2) / n]: the
    estimate of that quantile is the [j]-th smallest value.  (The median
    of an odd number of values is the middle value.) *)
Theorem unweighted_mid_rank_quantiles (v q : list Q) :
  v <> [] -> unit_quantiles q ->
  exists ys,
    outcome (weighted_quantile_1d (map Fin v) (map Fin q) None false false)
    = Ok (map Fin ys) /\
    forall i j, (i < length q)%nat -> (j < length v)%nat ->
      nth i q 0
      == (inject_Z (Z.of_nat j) + (1 # 2)) / inject_Z (Z.of_nat (length v)) ->
      nth i ys 0 == nth j (sorted_qvalues v) 0.
Proof.
  intros Hv Hq.
  set (n := length v). set (w := repeat 1 n).
  assert (Hnone :
    weighted_quantile_1d (map Fin v) (map Fin q) None false false
    = weighted_quantile_1d (map Fin v) (map Fin q) (Some (map Fin w))
                           false false).
  { unfold weighted_quantile_1d, Np.ones, F1, w, n.
    now rewrite map_repeat, length_map. }
  rewrite Hnone.
  assert (Hn : (1 <= n)%nat)
    by (unfold n; destruct v; [congruence | simpl; lia]).
  assert (Hlen : length w = length v) by (unfold w; now rewrite repeat_length).
  assert (Hw : Forall (fun x => 0 < x) w).
  { apply Forall_forall. intros x Hx. apply repeat_spec in Hx. subst x.
    reflexivity. }
  destruct (positive_weights_curve false v Hlen Hw Hn)
    as [_ [Hnonneg [Hsw Hpos]]].
  destruct (estimator_curve false Hv Hlen Hnonneg Hpos Hq)
    as [ys [Hrun Hspec]].
  exists ys. split; [exact Hrun | ]. intros i j Hi Hj Hij.
  apply (@interp_spec_at_knot (knots false (sorted_qweights v w))
           (sorted_qvalues v) j (nth i q 0)).
  - intros a b Hab. rewrite knots_length in Hab.
    now apply knots_increasing.
  - now rewrite knots_length, sorted_qweights_length.
  - rewrite Hij. unfold w, n. rewrite sorted_unit_qweights.
    rewrite knots_nth by (now rewrite repeat_length).
    unfold normaliser.
    rewrite Qsum_repeat_one by lia.
    rewrite nth_repeat_lt by lia.
    pose proof (@Qsum_repeat_one (length v) (length v) (le_n _)) as Ht.
    rewrite firstn_all2 in Ht by (rewrite repeat_length; lia).
    rewrite Ht. apply Qdiv_comp; [ring | reflexivity].
  - apply (Forall2_nth 0 0 Hspec Hi).
Qed.

Lemma unweighted_mid_rank_quantiles_witness :
  exists ys,
    outcome (weighted_quantile_1d (map Fin [30; 10; 20])
               (map Fin [1 # 2; 1 # 6]) None false false)
    = Ok (map Fin ys) /\
    forall i j, (i < length [1 # 2; 1 # 6])%nat ->
      (j < length [30; 10; 20])%nat ->
      nth i [1 # 2; 1 # 6] 0
      == (inject_Z (Z.of_nat j) + (1 # 2))
         / inject_Z (Z.of_nat (length [30; 10; 20])) ->
      nth i ys 0 == nth j (sorted_qvalues [30; 10; 20]) 0.
Proof.
  apply (@unweighted_mid_rank_quantiles [30; 10; 20] [1 # 2; 1 # 6]).
  - discriminate.
  - repeat constructor; discriminate.
Defined.

(** X14.  With exactly two observations the legacy normalisation ignores the
    weights: whatever the two counts are that weigh them (not both zero),
    the estimate of a quantile [x] is [lo + x * (hi - lo)] for the smaller
    value [lo] and the larger value [hi], both of moderate magnitude. *)
Theorem legacy_pair_ignores_the_weights (a b c d : Q) (q : list Q) :
  counts [c; d] -> 0 < c + d -> moderate [a; b] -> unit_quantiles q ->
  exists ys lo hi,
    outcome (weighted_quantile_1d (map Fin [a; b]) (map Fin q)
               (Some (map Fin [c; d])) false true) = Ok (map Fin ys) /\
    is_minimum [a; b] lo /\ is_maximum [a; b] hi /\
    Forall2 (fun x y => y == lo + x * (hi - lo)) q ys.
Proof.
  intros Hcounts Hcd _ Hq.
  set (v := [a; b]). set (w := [c; d]).
  assert (Hv : v <> []) by discriminate.
  assert (Hlen : length w = length v) by reflexivity.
  assert (Hnonneg : Forall (fun x => 0 <= x) w)
    by (exact (counts_nonneg Hcounts)).
  pose proof (sorted_qweights_perm v w Hlen) as Hperm.
  pose proof (sorted_qweights_length v w) as Hswl.
  assert (Hsum : Qsum (sorted_qweights v w) == c + d).
  { rewrite (Qsum_perm Hperm). simpl. ring. }
  assert (Hpos : 0 < normaliser true (sorted_qweights v w)).
  { unfold normaliser. rewrite Hswl. cbn [length v Nat.sub].
    rewrite qshifted_nth by (rewrite Hswl; simpl; lia).
    destruct (sorted_qweights v w) as [| w0 [| w1 [| w2 sw]]];
      try discriminate Hswl.
    assert (Hnn : Forall (fun x => 0 <= x) [w0; w1])
      by (apply (Forall_perm (Permutation_sym Hperm)); exact Hnonneg).
    simpl in Hsum |- *. lra. }
  destruct (estimator_curve true Hv Hlen Hnonneg Hpos Hq)
    as [ys [Hrun Hspec]].
  exists ys, (nth 0 (sorted_qvalues v) 0), (nth 1 (sorted_qvalues v) 0).
  split; [exact Hrun | ].
  split; [now apply sorted_first_is_minimum | ].
  split; [now apply (@sorted_last_is_maximum v) | ].
  pose proof (legacy_first_knot _ Hpos) as H0.
  pose proof (legacy_last_knot _ Hpos) as H1.
  rewrite Hswl in H1. cbn [length v Nat.sub] in H1.
  assert (Hq' : Forall2 (fun x y => 0 <= x <= 1 /\
                  interp_spec (knots true (sorted_qweights v w))
                              (sorted_qvalues v) x y) q ys).
  { clear -Hq Hspec. induction Hspec; [constructor | ].
    inversion Hq; subst. constructor; [now split | now apply IHHspec]. }
  eapply Forall2_impl; [ | exact Hq'].
  intros x y [[Hx0 Hx1] Hxy]. unfold interp_spec in Hxy.
  rewrite knots_length, Hswl in Hxy. cbn [length v Nat.sub] in Hxy.
  destruct Hxy as [[Hlt _] | [[Hle Hy] | [j [Hj [Hle [Hlt Hy]]]]]].
  - exfalso. lra.
  - rewrite Hy. assert (E : x == 1) by lra. rewrite E. ring.
  - assert (j = 0%nat) by lia. subst j.
    rewrite Hy, H0, H1. field.
Qed.

Lemma legacy_pair_ignores_the_weights_witness :
  exists ys lo hi,
    outcome (weighted_quantile_1d (map Fin [30; 10]) (map Fin [1 # 4; 1])
               (Some (map Fin [5; 0])) false true) = Ok (map Fin ys) /\
    is_minimum [30; 10] lo /\ is_maximum [30; 10] hi /\
    Forall2 (fun x y => y == lo + x * (hi - lo)) [1 # 4; 1] ys.
Proof.
  apply (@legacy_pair_ignores_the_weights 30 10 5 0 [1 # 4; 1]).
  - split; [repeat constructor; discriminate | discriminate].
  - reflexivity.
  - repeat constructor; discriminate.
  - repeat constructor; discriminate.
Defined.

End SpecialWeights.

(* ================================================================= *)
(** ** Rescaled weights *)

Section Rescaling.
Local Open Scope Q_scope.

Lemma Forall2_join {A B C} (R : A -> B -> Prop) (S : A -> C -> Prop)
  (T : B -> C -> Prop) (l : list A) (l1 : list B) (l2 : list C) :
  (forall a b c, R a b -> S a c -> T b c) ->
  Forall2 R l l1 -> Forall2 S l l2 -> Forall2 T l1 l2.
Proof.
  intros HT H1. revert l2. induction H1 as [| a b l l1 Hab _ IH]; intros l2 H2.
  - inversion H2. constructor.
  - inversion H2 as [| ? c ? l2' Hac H2']; subst.
    constructor; [now apply (HT a) | now apply IH].
Qed.

(** The curve depends on the numbers the knots denote only. *)
Lemma interp_spec_same_knots (xp xp' fp fp' : list Q) (x y : Q) :
  length xp' = length xp ->
  (forall j, nth j xp' 0 == nth j xp 0) ->
  (forall j, nth j fp' 0 == nth j fp 0) ->
  interp_spec xp fp x y -> interp_spec xp' fp' x y.
Proof.
  intros Hlen Hx Hf. unfold interp_spec. rewrite Hlen.
  intros [[H1 H2] | [[H1 H2] | [j [Hj [H1 [H2 H3]]]]]].
  - left. rewrite Hx, Hf. now split.
  - right; left. rewrite Hx, Hf. now split.
  - right; right. exists j. rewrite !Hx.
    split; [exact Hj | split; [exact H1 | split; [exact H2 | ]]].
    rewrite H3. symmetry.
    apply segment_value; [reflexivity | reflexivity | apply Hf | apply Hf].
Qed.

Lemma Qsum_scale (c : Q) (l : list Q) :
  Qsum (map (Qmult c) l) == c * Qsum l.
Proof.
  induction l as [| x l IH]; simpl; [ring | rewrite IH; ring].
Qed.

Lemma nth_scale (c : Q) (l : list Q) (j : nat) :
  nth j (map (Qmult c) l) 0 == c * nth j l 0.
Proof.
  destruct (Nat.lt_ge_cases j (length l)) as [Hj | Hj].
  - now rewrite (nth_map_lt (Qmult c) l 0 0 Hj).
  - rewrite !nth_overflow by (rewrite ?length_map; lia). ring.
Qed.

Lemma normaliser_scale (old_style : bool) (c : Q) (w : list Q) :
  normaliser old_style (map (Qmult c) w) == c * normaliser old_style w.
Proof.
  destruct old_style; unfold normaliser; [ | apply Qsum_scale].
  rewrite length_map.
  destruct (Nat.eq_dec (length w) 0) as [E | E].
  - rewrite !nth_overflow by (rewrite qshifted_length, ?length_map; lia).
    ring.
  - rewrite !qshifted_nth by (rewrite ?length_map; lia).
    rewrite firstn_map, Qsum_scale, !nth_scale. ring.
Qed.

Lemma knots_scale (old_style : bool) (c : Q) (w : list Q) (j : nat) :
  0 < c -> 0 < normaliser old_style w ->
  nth j (knots old_style (map (Qmult c) w)) 0 == nth j (knots old_style w) 0.
Proof.
  intros Hc Hpos.
  destruct (Nat.lt_ge_cases j (length w)) as [Hj | Hj].
  - rewrite !knots_nth by (rewrite ?length_map; lia).
    rewrite normaliser_scale, firstn_map, Qsum_scale.
    destruct old_style; cbv iota; rewrite !nth_scale; field; split; lra.
  - rewrite !nth_overflow by (rewrite knots_length, ?length_map; lia).
    reflexivity.
Qed.

Lemma sorted_qweights_scale (c : Q) (v w : list Q) :
  length w = length v ->
  sorted_qweights v (map (Qmult c) w) = map (Qmult c) (sorted_qweights v w).
Proof.
  intros Hlen. unfold sorted_qweights. rewrite map_map.
  apply map_ext_in. intros i Hi.
  apply nth_map_lt. rewrite Hlen.
  pose proof (argsort_bound (map Fin v)) as Hb. rewrite length_map in Hb.
  apply (proj1 (Forall_forall _ _) Hb i Hi).
Qed.

(** X15.  Only the proportions of the weights count: multiplying every weight by
    the same positive factor leaves every estimate unchanged, under either
    normalisation, when the weights are counts before and after and the
    values are of moderate magnitude. *)
Theorem weights_count_up_to_a_factor (old_style : bool) (v w q : list Q)
  (c : Q) :
  0 < c ->
  v <> [] -> length w = length v ->
  counts w -> counts (map (Qmult c) w) ->
  0 < normaliser old_style (sorted_qweights v w) ->
  moderate v ->
  unit_quantiles q ->
  exists ys ys',
    outcome (weighted_quantile_1d (map Fin v) (map Fin q)
               (Some (map Fin w)) false old_style) = Ok (map Fin ys) /\
    outcome (weighted_quantile_1d (map Fin v) (map Fin q)
               (Some (map Fin (map (Qmult c) w))) false old_style)
    = Ok (map Fin ys') /\
    Forall2 Qeq ys ys'.
Proof.
  intros Hc Hv Hlen Hcounts Hcounts' Hpos _ Hq.
  pose proof (counts_nonneg Hcounts) as Hnonneg.
  pose proof (counts_nonneg Hcounts') as Hnonneg'.
  assert (Hlen' : length (map (Qmult c) w) = length v)
    by now rewrite length_map.
  assert (Hpos' : 0 < normaliser old_style
                        (sorted_qweights v (map (Qmult c) w))).
  { rewrite (sorted_qweights_scale c v w Hlen), normaliser_scale. nra. }
  destruct (estimator_curve old_style Hv Hlen Hnonneg Hpos Hq)
    as [ys [Hrun Hspec]].
  destruct (estimator_curve old_style Hv Hlen' Hnonneg' Hpos' Hq)
    as [ys' [Hrun' Hspec']].
  destruct (sorted_curve_facts old_style Hv Hlen Hnonneg Hpos)
    as [Hne [Hxs _]].
  exists ys, ys'. split; [exact Hrun | split; [exact Hrun' | ]].
  refine (Forall2_join _ _ Hspec Hspec').
  intros x y y' Hy Hy'.
  apply (interp_spec_deterministic Hne Hxs Hy).
  rewrite (sorted_qweights_scale c v w Hlen) in Hy'.
  eapply interp_spec_same_knots; [ | | | exact Hy']; [ | | reflexivity].
  - now rewrite !knots_length, length_map.
  - intros j. symmetry. now apply knots_scale.
Qed.

Lemma weights_count_up_to_a_factor_witness :
  exists ys ys',
    outcome (weighted_quantile_1d (map Fin [30; 10; 20])
               (map Fin [1 # 3; 3 # 4])
               (Some (map Fin [1; 0; 2])) false true) = Ok (map Fin ys) /\
    outcome (weighted_quantile_1d (map Fin [30; 10; 20])
               (map Fin [1 # 3; 3 # 4])
               (Some (map Fin (map (Qmult 3) [1; 0; 2]))) false true)
    = Ok (map Fin ys') /\
    Forall2 Qeq ys ys'.
Proof.
  apply (@weights_count_up_to_a_factor true [30; 10; 20] [1; 0; 2]
           [1 # 3; 3 # 4] 3).
  - reflexivity.
  - discriminate.
  - reflexivity.
  - split; [repeat constructor; discriminate | discriminate].
  - split; [repeat constructor; discriminate | discriminate].
  - reflexivity.
  - repeat constructor; discriminate.
  - repeat constructor; discriminate.
Defined.

End Rescaling.


(* ================================================================= *)
(** ** The N-D estimator on finite arrays *)

Section FiniteNd.
Local Open Scope Q_scope.

Lemma ndindex_in_range (s idx : list nat) :
  In idx (Nd.ndindex s) -> Nd.in_range s idx.
Proof.
  unfold Nd.in_range. revert idx.
  induction s as [| n s IH]; intros idx; cbn [Nd.ndindex].
  - intros [<- | []]. constructor.
  - rewrite in_flat_map. intros [i [Hi Hidx]].
    apply in_map_iff in Hidx. destruct Hidx as [rest [<- Hrest]].
    apply in_seq in Hi. constructor; [lia | now apply IH].
Qed.

Lemma in_range_with_axis (s ind : list nat) (axis k : nat) :
  (axis < length s)%nat ->
  Nd.in_range (Nd.drop_axis axis s) ind -> (k < nth axis s 0)%nat ->
  Nd.in_range s (Nd.put_axis axis ind k).
Proof.
  intros Hax. unfold Nd.in_range, Nd.drop_axis, Nd.put_axis. intros H Hk.
  apply Forall2_app_inv_r in H. destruct H as [i1 [i2 [H1 [H2 ->]]]].
  assert (Hl1 : length i1 = axis).
  { rewrite (Forall2_length H1), length_firstn. lia. }
  rewrite firstn_app, firstn_all2 by lia.
  replace (axis - length i1)%nat with 0%nat by lia.
  rewrite firstn_0, app_nil_r.
  rewrite skipn_app, skipn_all2 by lia.
  replace (axis - length i1)%nat with 0%nat by lia. cbn [skipn app].
  rewrite <- (firstn_skipn axis s) at 1.
  apply Forall2_app; [exact H1 | ].
  assert (Hs : skipn axis s = nth axis s 0%nat :: skipn (S axis) s).
  { clear -Hax. revert axis Hax.
    induction s as [| a s IH]; intros axis Hax; [simpl in Hax; lia | ].
    destruct axis as [| axis]; [reflexivity | ].
    simpl in Hax. cbn [skipn nth]. apply IH. lia. }
  rewrite Hs. constructor; [exact Hk | exact H2].
Qed.

(** A slice of a well-formed array of finite numbers is finite and as long
    as the axis. *)
Lemma slice_fins (s : list nat) (d : list Q) (axis : nat) (ind : list nat) :
  length d = Nd.size s -> (axis < length s)%nat ->
  Nd.in_range (Nd.drop_axis axis s) ind ->
  Nd.slice (mk_ndarray s (map Fin d)) axis ind
  = map Fin (qslice s d axis ind).
Proof.
  intros Hwf Hax Hind. unfold Nd.slice, qslice, Nd.get.
  cbn [Nd.shape Nd.data]. rewrite map_map.
  apply map_ext_in. intros k Hk. apply in_seq in Hk.
  apply nth_fins. rewrite Hwf. apply offset_lt.
  apply in_range_with_axis; [exact Hax | exact Hind | lia].
Qed.

Lemma qslice_length (s : list nat) (d : list Q) (axis : nat)
  (ind : list nat) :
  length (qslice s d axis ind) = nth axis s 0%nat.
Proof. unfold qslice. now rewrite length_map, length_seq. Qed.

(** When the 1-D estimator returns on every slice, the N-D estimator
    returns the stacked estimates. *)
Lemma nd_stacks_slices (arr : ndarray) (q : list fnum)
  (sw : option (list fnum)) (values_sorted old_style : bool) (axis : Z) :
  (1 < Nd.ndim arr)%nat ->
  (- Z.of_nat (Nd.ndim arr) <= axis < Z.of_nat (Nd.ndim arr))%Z ->
  let ax := normal_axis axis (Nd.ndim arr) in
  let est := estimate_slice q sw values_sorted old_style arr ax in
  Forall (fun n => (0 < n)%nat) (Nd.drop_axis ax (Nd.shape arr)) ->
  (forall ind, In ind (Nd.ndindex (Nd.drop_axis ax (Nd.shape arr))) ->
               exists r, est ind = Ok r) ->
  exists out,
    outcome (weighted_quantile arr q sw values_sorted old_style (Some axis))
    = Ok out /\
    Nd.shape out
    = firstn ax (Nd.shape arr) ++ length q :: skipn (S ax) (Nd.shape arr) /\
    forall idx r,
      Nd.in_range (Nd.shape out) idx ->
      est (Nd.drop_axis ax idx) = Ok r ->
      Nd.get out idx = nth (nth ax idx 0%nat) r NaN.
Proof.
  intros Hrank Haxis ax est Hdims Hall. subst est.
  destruct (normalize_ok _ Haxis) as [_ Hax]. fold ax in Hax.
  set (iter := Nd.drop_axis ax (Nd.shape arr)) in *.
  rewrite (nd_branch q sw values_sorted old_style arr Hrank Haxis).
  cbv zeta. fold ax. fold iter.
  assert (Hiterlen : (ax <= length iter)%nat).
  { unfold iter. rewrite drop_axis_length by exact Hax.
    unfold Nd.ndim in *. lia. }
  pose proof (ndindex_length iter) as Hcount.
  pose proof (size_pos Hdims) as Hpos.
  pose proof (fun idx d H => @ndindex_nth iter idx d H) as Hnth.
  destruct (Nd.ndindex iter) as [| ind0 rest] eqn:Einds;
    [simpl in Hcount; lia | ].
  destruct (Hall ind0 (or_introl eq_refl)) as [r0 Hr0].
  rewrite Hr0.
  pose proof (estimator_result_length _ _ _ _ _ Hr0) as Hm.
  assert (Hrest : Forall (fun a => exists r,
                    estimate_slice q sw values_sorted old_style arr ax a
                    = Ok r) rest).
  { apply Forall_forall. intros a Ha. apply Hall. now right. }
  destruct (Forall_exists_Forall2 _ Hrest) as [rs Hrs].
  rewrite (@mapM_outcome_ok _ _ _ rest rs).
  2:{ eapply Forall2_impl; [ | exact Hrs]. intros a r Ha.
      now apply checked_slice_ok. }
  eexists. split; [reflexivity | ]. cbn [Nd.shape].
  split; [unfold iter; rewrite Hm; now apply put_drop_shape | ].
  intros idx r Hidx Hr.
  destruct (in_range_put_axis _ _ Hiterlen Hidx) as [Hind Hk].
  unfold Nd.get at 1. cbn [Nd.shape Nd.data].
  rewrite (nth_map_lt _ _ NaN [])
    by (rewrite ndindex_length; now apply offset_lt).
  rewrite (ndindex_nth [] Hidx).
  unfold Nd.get. cbn [Nd.shape Nd.data].
  rewrite (offset_snoc _ _ Hind).
  assert (Hall2 : Forall2 (fun a r' =>
                     estimate_slice q sw values_sorted old_style arr ax a
                     = Ok r') (ind0 :: rest) (r0 :: rs))
    by (now constructor).
  assert (Hp : (Nd.offset iter (Nd.drop_axis ax idx)
                < length (ind0 :: rest))%nat)
    by (rewrite Hcount; now apply offset_lt).
  rewrite (@nth_concat_uniform _ _ (length r0)).
  - pose proof (@Forall2_nth _ _ _ _ _ [] [] _ Hall2 Hp) as Hres.
    cbv beta in Hres. rewrite (Hnth _ [] Hind) in Hres.
    rewrite Hr in Hres. inversion Hres. reflexivity.
  - clear -Hall2 Hm. revert Hall2. generalize (ind0 :: rest), (r0 :: rs).
    induction 1 as [| a r' l l' Ha _ IH]; constructor; [ | exact IH].
    rewrite (estimator_result_length _ _ _ _ _ Ha). now symmetry.
  - now rewrite <- (Forall2_length Hall2).
  - exact Hk.
Qed.

(** The estimates of one slice of a finite array. *)
Lemma slice_estimates (old_style : bool) (s : list nat) (d w q : list Q)
  (axis : nat) (ind : list nat) :
  length d = Nd.size s -> (axis < length s)%nat ->
  length w = nth axis s 0%nat -> Forall (fun x => 0 < x) w ->
  ((if old_style then 2 else 1) <= nth axis s 0%nat)%nat ->
  unit_quantiles q ->
  Nd.in_range (Nd.drop_axis axis s) ind ->
  exists ys,
    outcome (weighted_quantile_1d (map Fin (qslice s d axis ind)) (map Fin q)
               (Some (map Fin w)) false old_style) = Ok (map Fin ys) /\
    estimate_slice (map Fin q) (Some (map Fin w)) false old_style
                   (mk_ndarray s (map Fin d)) axis ind = Ok (map Fin ys) /\
    length ys = length q.
Proof.
  intros Hwf Hax Hlen Hw Hn Hq Hind. unfold estimate_slice.
  rewrite (@slice_fins s d axis ind Hwf Hax Hind).
  set (v := qslice s d axis ind).
  assert (Hlen' : length w = length v)
    by (unfold v; now rewrite qslice_length).
  assert (Hn' : ((if old_style then 2 else 1) <= length v)%nat)
    by (unfold v; now rewrite qslice_length).
  destruct (positive_weights_curve old_style v Hlen' Hw Hn')
    as [Hv [Hnonneg [_ Hpos]]].
  destruct (estimator_curve old_style Hv Hlen' Hnonneg Hpos Hq)
    as [ys [Hrun Hspec]].
  exists ys. split; [exact Hrun | ]. split; [exact Hrun | ].
  symmetry. apply (Forall2_length Hspec).
Qed.

Lemma normal_axis_of_nat (ax nd : nat) : normal_axis (Z.of_nat ax) nd = ax.
Proof.
  unfold normal_axis.
  replace (Z.of_nat ax <? 0)%Z with false by (symmetry; apply Z.ltb_ge; lia).
  apply Nat2Z.id.
Qed.

(** An axis counted from the end is the axis it denotes. *)
Lemma axis_normalised (arr : ndarray) (q : list fnum)
  (sw : option (list fnum)) (values_sorted old_style : bool) (axis : Z) :
  (1 < Nd.ndim arr)%nat ->
  (- Z.of_nat (Nd.ndim arr) <= axis < Z.of_nat (Nd.ndim arr))%Z ->
  outcome (weighted_quantile arr q sw values_sorted old_style (Some axis))
  = outcome (weighted_quantile arr q sw values_sorted old_style
               (Some (Z.of_nat (normal_axis axis (Nd.ndim arr))))).
Proof.
  intros Hrank Haxis.
  destruct (normalize_ok _ Haxis) as [_ Hax].
  rewrite (nd_branch q sw values_sorted old_style arr Hrank Haxis).
  rewrite (nd_branch q sw values_sorted old_style arr Hrank (axis:=Z.of_nat _))
    by lia.
  now rewrite normal_axis_of_nat.
Qed.

Lemma qslice_vector (n : nat) (d : list Q) :
  length d = n -> qslice [n] d 0 [] = d.
Proof.
  intros Hn. unfold qslice. cbn [nth Nd.put_axis firstn skipn app].
  rewrite <- Hn.
  rewrite <- (map_nth_seq d 0) at 2. apply map_ext. intros k.
  cbn [Nd.offset Nd.size fold_right]. f_equal. lia.
Qed.

(** The estimates of a 1-D array, which the N-D estimator hands to the 1-D
    estimator as it is. *)
Lemma finite_vector_estimates (old_style : bool) (n : nat) (d w q : list Q)
  (axis : option Z) :
  length d = n -> length w = n -> Forall (fun x => 0 < x) w ->
  ((if old_style then 2 else 1) <= n)%nat ->
  unit_quantiles q ->
  exists out ys,
    outcome (weighted_quantile (mk_ndarray [n] (map Fin d)) (map Fin q)
               (Some (map Fin w)) false old_style axis) = Ok out /\
    outcome (weighted_quantile_1d (map Fin d) (map Fin q)
               (Some (map Fin w)) false old_style) = Ok (map Fin ys) /\
    Nd.shape out = [length q] /\
    forall k, (k < length q)%nat -> Nd.get out [k] = Fin (nth k ys 0).
Proof.
  intros Hd Hlen Hw Hn Hq.
  assert (Hwf : length d = Nd.size [n]) by (simpl; lia).
  destruct (@slice_estimates old_style [n] d w q 0 [] Hwf)
    as [ys [Hys [_ Hlen_ys]]];
    try assumption; [simpl; lia | constructor | ].
  rewrite (qslice_vector d Hd) in Hys.
  exists (Nd.of_list (map Fin ys)), ys.
  split; [ | split; [exact Hys | split]].
  - unfold weighted_quantile. rewrite bind_emit, outcome_pair.
    change (1 <? Nd.ndim (mk_ndarray [n] (map Fin d)))%nat with false.
    cbv iota. cbn [Nd.shape Nd.data].
    assert (E : outcome
                  (r <- weighted_quantile_1d (map Fin d) (map Fin q)
                         (Some (map Fin w)) false old_style ;;
                   ret (Nd.of_list r))
                = Ok (Nd.of_list (map Fin ys)))
      by (now rewrite outcome_bind, Hys).
    destruct axis; [exact E | exact E].
  - cbn [Nd.of_list Nd.shape]. now rewrite length_map, Hlen_ys.
  - intros k Hk.
    unfold Nd.get. cbn [Nd.of_list Nd.shape Nd.data Nd.offset Nd.size
                           fold_right].
    replace (k * 1 + 0)%nat with k by lia. apply nth_fins. lia.
Qed.

Lemma finite_array_estimates (old_style : bool) (s : list nat)
  (d w q : list Q) (ax : nat) :
  length d = Nd.size s -> (ax < length s)%nat ->
  Forall (fun n => (0 < n)%nat) (Nd.drop_axis ax s) ->
  length w = nth ax s 0%nat -> Forall (fun x => 0 < x) w ->
  ((if old_style then 2 else 1) <= nth ax s 0%nat)%nat ->
  unit_quantiles q ->
  exists out,
    outcome (weighted_quantile (mk_ndarray s (map Fin d)) (map Fin q)
               (Some (map Fin w)) false old_style (Some (Z.of_nat ax)))
    = Ok out /\
    Nd.shape out = firstn ax s ++ length q :: skipn (S ax) s /\
    forall idx, Nd.in_range (Nd.shape out) idx ->
      exists ys,
        outcome (weighted_quantile_1d
                   (map Fin (qslice s d ax (Nd.drop_axis ax idx)))
                   (map Fin q) (Some (map Fin w)) false old_style)
        = Ok (map Fin ys) /\
        Nd.get out idx = Fin (nth (nth ax idx 0%nat) ys 0).
Proof.
  intros Hwf Hax Hdims Hlen Hw Hn Hq.
  destruct (Nat.eq_dec (length s) 1) as [Hone | Hmany].
  { (* a 1-D array *)
    destruct s as [| n [| n' s']]; try discriminate Hone.
    assert (ax = 0%nat) by (simpl in Hax; lia). subst ax.
    cbn [nth] in Hlen, Hn.
    assert (Hd : length d = n) by (simpl in Hwf; lia).
    destruct (@finite_vector_estimates old_style n d w q (Some (Z.of_nat 0))
                Hd Hlen Hw Hn Hq) as [out [ys [Hrun [Hys [Hshape Hentries]]]]].
    exists out. split; [exact Hrun | ]. split; [exact Hshape | ].
    intros idx Hidx. rewrite Hshape in Hidx.
    inversion Hidx as [| k m idx' s' Hk Hrest]; subst.
    inversion Hrest; subst.
    exists ys. cbn [Nd.drop_axis firstn skipn app nth].
    rewrite (qslice_vector d Hd). split; [exact Hys | now apply Hentries]. }
  assert (Hrank : (1 < length s)%nat) by lia.
  set (arr := mk_ndarray s (map Fin d)).
  assert (Haxis : (- Z.of_nat (Nd.ndim arr) <= Z.of_nat ax
                   < Z.of_nat (Nd.ndim arr))%Z)
    by (unfold Nd.ndim, arr; cbn [Nd.shape]; lia).
  assert (Hslices : forall ind, Nd.in_range (Nd.drop_axis ax s) ind ->
            exists ys,
              outcome (weighted_quantile_1d (map Fin (qslice s d ax ind))
                         (map Fin q) (Some (map Fin w)) false old_style)
              = Ok (map Fin ys) /\
              estimate_slice (map Fin q) (Some (map Fin w)) false old_style
                             arr ax ind = Ok (map Fin ys) /\
              length ys = length q).
  { intros ind Hind. now apply slice_estimates. }
  destruct (@nd_stacks_slices arr (map Fin q) (Some (map Fin w)) false
              old_style (Z.of_nat ax) Hrank Haxis)
    as [out [Hrun [Hshape Hget]]].
  { now rewrite normal_axis_of_nat. }
  { rewrite normal_axis_of_nat. intros ind Hin.
    apply ndindex_in_range in Hin.
    destruct (Hslices ind Hin) as [ys [_ [Hys _]]]. now exists (map Fin ys). }
  exists out. split; [exact Hrun | ].
  rewrite normal_axis_of_nat in Hshape, Hget.
  cbn [arr Nd.shape] in Hshape. rewrite length_map in Hshape.
  split; [exact Hshape | ].
  intros idx Hidx.
  assert (Hsplit : Nd.in_range (Nd.drop_axis ax s) (Nd.drop_axis ax idx)
                   /\ (nth ax idx 0 < length q)%nat).
  { apply in_range_put_axis.
    - rewrite drop_axis_length by exact Hax. lia.
    - rewrite put_drop_shape by exact Hax. now rewrite <- Hshape. }
  destruct Hsplit as [Hind Hk].
  destruct (Hslices _ Hind) as [ys [Hrun1 [Hys Hlen_ys]]].
  rewrite (Hget idx (map Fin ys) Hidx Hys).
  exists ys. split; [exact Hrun1 | ].
  apply nth_fins. lia.
Qed.

(** X18.  On a well-formed array of finite numbers of moderate magnitude, with
    no zero-length dimension other than the weighting axis, and as many
    strictly positive weights that are counts as the axis is long (at
    least two under the legacy normalisation), the N-D estimator returns,
    for an axis counted from the start or (negative) from the end: the
    result has the shape of the input with the axis replaced by the number
    of quantiles, and each of its entries is a finite number, the estimate
    that the 1-D estimator returns on the slice through the entry for the
    quantile at the position of the entry along the axis. *)
Theorem estimates_of_a_finite_array (old_style : bool) (s : list nat)
  (d w q : list Q) (axis : Z) :
  let ax := normal_axis axis (length s) in
  length d = Nd.size s ->
  (- Z.of_nat (length s) <= axis < Z.of_nat (length s))%Z ->
  Forall (fun n => (0 < n)%nat) (Nd.drop_axis ax s) ->
  length w = nth ax s 0%nat -> Forall (fun x => 0 < x) w -> counts w ->
  ((if old_style then 2 else 1) <= nth ax s 0%nat)%nat ->
  moderate d ->
  unit_quantiles q ->
  exists out,
    outcome (weighted_quantile (mk_ndarray s (map Fin d)) (map Fin q)
               (Some (map Fin w)) false old_style (Some axis)) = Ok out /\
    Nd.shape out = firstn ax s ++ length q :: skipn (S ax) s /\
    forall idx, Nd.in_range (Nd.shape out) idx ->
      exists ys,
        outcome (weighted_quantile_1d
                   (map Fin (qslice s d ax (Nd.drop_axis ax idx)))
                   (map Fin q) (Some (map Fin w)) false old_style)
        = Ok (map Fin ys) /\
        Nd.get out idx = Fin (nth (nth ax idx 0%nat) ys 0).
Proof.
  intros ax Hwf Haxis Hdims Hlen Hw _ Hn _ Hq.
  assert (Hax : (ax < length s)%nat) by (apply (normalize_ok _ Haxis)).
  assert (E : outcome (weighted_quantile (mk_ndarray s (map Fin d))
                         (map Fin q) (Some (map Fin w)) false old_style
                         (Some axis))
              = outcome (weighted_quantile (mk_ndarray s (map Fin d))
                           (map Fin q) (Some (map Fin w)) false old_style
                           (Some (Z.of_nat ax)))).
  { destruct (Nat.eq_dec (length s) 1) as [Hone | Hmany].
    - (* a 1-D array: the axis is not looked at *)
      destruct s as [| n [| n' s']]; try discriminate Hone.
      unfold weighted_quantile. rewrite !bind_emit, !outcome_pair.
      reflexivity.
    - apply axis_normalised; unfold Nd.ndim; cbn [Nd.shape];
        [lia | exact Haxis]. }
  rewrite E. now apply finite_array_estimates.
Qed.

Lemma estimates_of_a_finite_array_witness :
  exists out,
    outcome (weighted_quantile
               (mk_ndarray [2; 3]%nat (map Fin [1; 2; 3; 10; 20; 30]))
               (map Fin [1 # 2; 1]) (Some (map Fin [1; 1; 2])) false true
               (Some (-1)%Z)) = Ok out /\
    Nd.shape out
    = firstn 1 [2; 3]%nat ++ length [1 # 2; 1] :: skipn 2 [2; 3]%nat /\
    forall idx, Nd.in_range (Nd.shape out) idx ->
      exists ys,
        outcome (weighted_quantile_1d
                   (map Fin (qslice [2; 3]%nat [1; 2; 3; 10; 20; 30] 1
                                    (Nd.drop_axis 1 idx)))
                   (map Fin [1 # 2; 1]) (Some (map Fin [1; 1; 2]))
                   false true)
        = Ok (map Fin ys) /\
        Nd.get out idx = Fin (nth (nth 1 idx 0%nat) ys 0).
Proof.
  apply (@estimates_of_a_finite_array true [2; 3]%nat
           [1; 2; 3; 10; 20; 30] [1; 1; 2] [1 # 2; 1] (-1)%Z).
  - reflexivity.
  - simpl. lia.
  - repeat constructor.
  - reflexivity.
  - repeat constructor.
  - split; [repeat constructor; discriminate | discriminate].
  - simpl. lia.
  - repeat constructor; discriminate.
  - repeat constructor; discriminate.
Defined.

End FiniteNd.

(* ================================================================= *)
(** ** The N-D estimator: refused quantiles *)

(** X19.  In an array of rank greater than 1 the quantiles are checked by the
    1-D estimator on the first slice: a quantile below 0, above 1 or NaN
    makes the N-D call fail with [AssertionError] there, after one entry
    of the 1-D estimator and before anything is sorted, provided the axis
    is valid and no other dimension has length zero. *)
Theorem quantile_out_of_range_fails_on_first_slice (arr : ndarray)
  (q : list fnum) (sw : option (list fnum)) (values_sorted old_style : bool)
  (axis : Z) (x : fnum) :
  1 < Nd.ndim arr ->
  (- Z.of_nat (Nd.ndim arr) <= axis < Z.of_nat (Nd.ndim arr))%Z ->
  Forall (fun d => 0 < d)
         (Nd.drop_axis (normal_axis axis (Nd.ndim arr)) (Nd.shape arr)) ->
  In x q -> fge x F0 = false \/ fle x F1 = false ->
  weighted_quantile arr q sw values_sorted old_style (Some axis)
  = ([EvEstimatorND; EvApplyAlongAxis; EvEstimator1D], Raise AssertionError).
Proof.
  intros Hrank Haxis Hdims Hin Hbad.
  destruct (normalize_ok _ Haxis) as [Hnorm _].
  unfold weighted_quantile. rewrite bind_emit.
  replace (1 <? Nd.ndim arr) with true by (symmetry; now apply Nat.ltb_lt).
  unfold Nd.apply_along_axis. rewrite bind_emit, Hnorm, bind_ret_l.
  cbv zeta.
  pose proof (ndindex_length
                (Nd.drop_axis (normal_axis axis (Nd.ndim arr))
                              (Nd.shape arr))) as Hcount.
  pose proof (size_pos Hdims) as Hpos.
  destruct (Nd.ndindex _) as [| ind0 inds]; [simpl in Hcount; lia | ].
  assert (Hfirst : forall v,
            weighted_quantile_1d v q sw values_sorted old_style
            = ([EvEstimator1D], Raise AssertionError)).
  { intros v. unfold weighted_quantile_1d.
    now rewrite bind_emit, (assert_quantiles_fail _ _ Hin Hbad). }
  rewrite Hfirst. reflexivity.
Qed.

Lemma quantile_out_of_range_fails_on_first_slice_witness :
  weighted_quantile
    (mk_ndarray [2; 3] [fz 1; fz 2; fz 3; fz 10; fz 20; fz 30])
    [fq 1 2; fq 3 2] (Some [fz 1; fz 1; fz 2]) false false (Some 1%Z)
  = ([EvEstimatorND; EvApplyAlongAxis; EvEstimator1D], Raise AssertionError).
Proof.
  apply (@quantile_out_of_range_fails_on_first_slice
           (mk_ndarray [2; 3] [fz 1; fz 2; fz 3; fz 10; fz 20; fz 30])
           [fq 1 2; fq 3 2] (Some [fz 1; fz 1; fz 2]) false false 1%Z
           (fq 3 2)).
  - unfold Nd.ndim. simpl. lia.
  - unfold Nd.ndim. simpl. lia.
  - repeat constructor.
  - simpl. auto.
  - right. reflexivity.
Defined.

(* ================================================================= *)
(** ** The labelled wrapper *)

Section Labelled.

Lemma index_of_not_in (name : string) (l : list string) :
  ~ In name l -> Xr.index_of name l = None.
Proof.
  induction l as [| x l IH]; intros H; [reflexivity | ]. simpl.
  destruct (String.eqb x name) eqn:E.
  - apply String.eqb_eq in E. exfalso. apply H. now left.
  - rewrite IH; [reflexivity | ]. intros Hin. apply H. now right.
Qed.

(** X20.  A dimension name that the array does not have makes the call fail with
    [ValueError] in [get_axis_num], before any coordinate or weight is
    looked at and before any estimator is entered. *)
Theorem unknown_dimension_fails_first (data : DataArray)
  (quantiles : list fnum) (sample_weight : Series) (dim : string)
  (values_sorted : bool) :
  ~ In dim (Xr.dims data) ->
  weighted_quantile_xr data quantiles sample_weight dim values_sorted
  = ([EvGetAxisNum], Raise ValueError).
Proof.
  intros Hdim. unfold weighted_quantile_xr, Xr.get_axis_num.
  now rewrite (index_of_not_in _ _ Hdim).
Qed.

Lemma unknown_dimension_fails_first_witness :
  weighted_quantile_xr
    (mk_DataArray ["t"; "r"]%string []
       (mk_ndarray [1; 2] [fz 1; fz 2]))
    [fq 1 2] [] "region" false
  = ([EvGetAxisNum], Raise ValueError).
Proof.
  apply (@unknown_dimension_fails_first
           (mk_DataArray ["t"; "r"]%string []
              (mk_ndarray [1; 2] [fz 1; fz 2]))
           [fq 1 2] [] "region"%string false).
  simpl. intros [H | [H | []]]; discriminate.
Defined.

(** What a call that returns has gone through. *)
Lemma xr_success_inv (data : DataArray) (quantiles : list fnum)
  (sample_weight : Series) (dim : string) (values_sorted : bool)
  (out : DataArray) :
  outcome (weighted_quantile_xr data quantiles sample_weight dim
                                values_sorted) = Ok out ->
  exists axis cs labels weights,
    Xr.index_of dim (Xr.dims data) = Some axis /\
    outcome
      (mapM (fun coord => c <- Xr.coords_getitem data coord ;; ret (coord, c))
         (filter (fun coord =>
                    existsb (String.eqb coord)
                      (firstn axis (Xr.dims data) ++ ["quantile"%string]
                       ++ skipn (S axis) (Xr.dims data)))
                 (Xr.dims data))) = Ok cs /\
    Xr.coordinate_labels data dim = Some labels /\
    outcome (Xr.loc sample_weight labels) = Ok weights /\
    outcome (weighted_quantile (Xr.values data) quantiles (Some weights)
               values_sorted false (Some (Z.of_nat axis)))
    = Ok (Xr.values out) /\
    Xr.dims out = firstn axis (Xr.dims data) ++ ["quantile"%string]
                  ++ skipn (S axis) (Xr.dims data) /\
    Xr.coords out = Xr.dict_update cs "quantile" (map LNum quantiles).
Proof.
  unfold weighted_quantile_xr, Xr.get_axis_num.
  rewrite outcome_bind, bind_emit, outcome_pair.
  destruct (Xr.index_of dim (Xr.dims data)) as [axis | ];
    [ | discriminate].
  cbn [outcome ret snd]. cbv zeta.
  rewrite outcome_bind.
  destruct (outcome (mapM _ _)) as [cs | ] eqn:Ecs; [ | discriminate].
  rewrite outcome_bind. unfold Xr.coords_getitem at 1.
  destruct (Xr.coordinate_labels data dim) as [labels | ];
    [ | discriminate].
  cbn [outcome ret snd]. rewrite outcome_bind.
  destruct (outcome (Xr.loc sample_weight labels)) as [weights | ] eqn:Ew;
    [ | discriminate].
  rewrite outcome_bind.
  destruct (outcome (weighted_quantile _ _ _ _ _ _)) as [nd | ] eqn:End;
    [ | discriminate].
  unfold Xr.new_DataArray.
  destruct (_ && _); [ | discriminate].
  cbn [outcome ret snd]. intros E. inversion E; subst out.
  cbn [Xr.dims Xr.coords Xr.values].
  exists axis, cs, labels, weights. repeat split; assumption || reflexivity.
Qed.

Lemma mapM_outcome_inv {A B} (f : A -> M B) (l : list A) (rs : list B) :
  outcome (mapM f l) = Ok rs ->
  Forall2 (fun a r => outcome (f a) = Ok r) l rs.
Proof.
  revert rs. induction l as [| a l IH]; intros rs; cbn [mapM].
  - intros E. inversion E. constructor.
  - rewrite outcome_bind. destruct (outcome (f a)) as [r | ] eqn:Ea;
      [ | discriminate].
    rewrite outcome_bind. destruct (outcome (mapM f l)) as [rs' | ];
      [ | discriminate].
    intros E. inversion E. constructor; [exact Ea | now apply IH].
Qed.

(** The weights that [.loc] returns are the rows under the labels, label
    by label, and every label has a row. *)
Lemma loc_inv (s : Series) (labels : list label) (weights : list fnum) :
  outcome (Xr.loc s labels) = Ok weights ->
  Forall (fun l => Xr.series_rows s l <> []) labels /\
  weights = flat_map (Xr.series_rows s) labels.
Proof.
  unfold Xr.loc. rewrite bind_emit, outcome_pair, outcome_bind.
  destruct (outcome (mapM _ labels)) as [rows | ] eqn:E; [ | discriminate].
  cbn [outcome ret snd]. intros H. inversion H; subst weights. clear H.
  apply mapM_outcome_inv in E.
  induction E as [| l r labels rows Hl _ [IH1 IH2]];
    [split; [constructor | reflexivity] | ].
  cbv beta in Hl.
  destruct (Xr.series_rows s l) as [| w0 r0] eqn:Er; [discriminate | ].
  cbn [outcome ret snd] in Hl. inversion Hl; subst r.
  split.
  - constructor; [rewrite Er; discriminate | exact IH1].
  - cbn [flat_map concat]. now rewrite Er, IH2.
Qed.

Lemma dict_get_update_same {V} (d : list (string * V)) (key : string)
  (v : V) :
  Xr.dict_get (Xr.dict_update d key v) key = Some v.
Proof.
  induction d as [| [k v'] d IH]; simpl.
  - now rewrite String.eqb_refl.
  - destruct (String.eqb k key) eqn:E; simpl; rewrite E; [reflexivity | ].
    exact IH.
Qed.

Lemma dict_get_update_other {V} (d : list (string * V)) (key name : string)
  (v : V) :
  name <> key ->
  Xr.dict_get (Xr.dict_update d key v) name = Xr.dict_get d name.
Proof.
  intros Hne. induction d as [| [k v'] d IH]; simpl.
  - destruct (String.eqb key name) eqn:E; [ | reflexivity].
    apply String.eqb_eq in E. congruence.
  - destruct (String.eqb k key) eqn:E; simpl.
    + apply String.eqb_eq in E. subst k.
      destruct (String.eqb key name) eqn:E'; [ | reflexivity].
      apply String.eqb_eq in E'. congruence.
    + now rewrite IH.
Qed.

Lemma existsb_eqb_in (name : string) (l : list string) :
  existsb (String.eqb name) l = true <-> In name l.
Proof.
  rewrite existsb_exists. split.
  - intros [x [Hx E]]. apply String.eqb_eq in E. now subst.
  - intros H. exists name. split; [exact H | apply String.eqb_refl].
Qed.

(** The coordinates gathered for a list of names. *)
Lemma gathered_coords (da : DataArray) (names : list string)
  (cs : list (string * list label)) (name : string) :
  outcome (mapM (fun coord => c <- Xr.coords_getitem da coord ;;
                              ret (coord, c)) names) = Ok cs ->
  Xr.dict_get cs name
  = if existsb (String.eqb name) names then Xr.coordinate_labels da name
    else None.
Proof.
  intros H. apply mapM_outcome_inv in H.
  induction H as [| a c names cs Ha _ IH]; [reflexivity | ].
  rewrite outcome_bind in Ha. unfold Xr.coords_getitem in Ha.
  destruct (Xr.coordinate_labels da a) as [ca | ] eqn:Eco;
    [ | discriminate].
  cbn [outcome ret snd] in Ha. inversion Ha; subst c.
  cbn [Xr.dict_get existsb].
  rewrite (String.eqb_sym name a).
  destruct (String.eqb a name) eqn:E; cbn [orb]; [ | exact IH].
  apply String.eqb_eq in E. subst a. now rewrite Eco.
Qed.

(** X21.  The labels of the result of a call that returns: the dimensions are
    those of the input with the weighted dimension replaced, in place, by
    ["quantile"]; the coordinate of ["quantile"] is the quantile sequence;
    every other dimension of the result keeps its coordinate (its default
    index, if it had none); and no other coordinate is carried over, so the
    coordinate of the weighted dimension and the coordinates that are not
    dimensions are dropped. *)
Theorem labels_of_the_result (data : DataArray) (quantiles : list fnum)
  (sample_weight : Series) (dim : string) (values_sorted : bool)
  (out : DataArray) :
  outcome (weighted_quantile_xr data quantiles sample_weight dim
                                values_sorted) = Ok out ->
  exists axis,
    Xr.index_of dim (Xr.dims data) = Some axis /\
    Xr.dims out = firstn axis (Xr.dims data) ++ "quantile"%string
                  :: skipn (S axis) (Xr.dims data) /\
    Xr.dict_get (Xr.coords out) "quantile" = Some (map LNum quantiles) /\
    forall name, name <> "quantile"%string ->
      Xr.dict_get (Xr.coords out) name
      = if existsb (String.eqb name) (Xr.dims out)
        then Xr.coordinate_labels data name else None.
Proof.
  intros H.
  destruct (xr_success_inv _ _ _ _ _ H)
    as [axis [cs [labels [weights [Hax [Hcs [_ [_ [_ [Hd Hc]]]]]]]]]].
  exists axis. split; [exact Hax | ]. split; [exact Hd | ].
  rewrite Hc. split; [apply dict_get_update_same | ].
  intros name Hname.
  rewrite (dict_get_update_other _ _ Hname).
  rewrite (gathered_coords _ _ name Hcs), Hd.
  set (dims' := firstn axis (Xr.dims data) ++ ["quantile"%string]
                ++ skipn (S axis) (Xr.dims data)).
  assert (E : existsb (String.eqb name)
                (filter (fun coord => existsb (String.eqb coord) dims')
                        (Xr.dims data))
              = existsb (String.eqb name) dims').
  { apply eq_true_iff_eq. rewrite !existsb_eqb_in, filter_In.
    rewrite existsb_eqb_in. split; [now intros [_ ?] | ].
    intros Hin. split; [ | exact Hin].
    unfold dims' in Hin. apply in_app_or in Hin.
    destruct Hin as [Hin | Hin].
    - rewrite <- (firstn_skipn axis (Xr.dims data)).
      apply in_or_app. now left.
    - apply in_app_or in Hin. destruct Hin as [[Hq | []] | Hin];
        [congruence | ].
      rewrite <- (firstn_skipn (S axis) (Xr.dims data)).
      apply in_or_app. now right. }
  now rewrite E.
Qed.

Lemma labels_of_the_result_witness :
  exists axis,
    Xr.index_of "r" ["t"; "r"]%string = Some axis /\
    ["t"; "quantile"]%string
    = firstn axis ["t"; "r"]%string ++ "quantile"%string
      :: skipn (S axis) ["t"; "r"]%string /\
    Xr.dict_get [("t"%string, [LNum (fz 0); LNum (fz 1)]);
                 ("quantile"%string, [LNum (fz 0); LNum (fz 1)])] "quantile"
    = Some (map LNum [fz 0; fz 1]) /\
    forall name, name <> "quantile"%string ->
      Xr.dict_get [("t"%string, [LNum (fz 0); LNum (fz 1)]);
                   ("quantile"%string, [LNum (fz 0); LNum (fz 1)])] name
      = if existsb (String.eqb name) ["t"; "quantile"]%string
        then Xr.coordinate_labels
               (mk_DataArray ["t"; "r"]%string
                  [("r"%string, [LStr "x"; LStr "y"; LStr "z"]);
                   ("height"%string, [LStr "h"])]
                  (mk_ndarray [2; 3]
                     [fz 1; fz 2; fz 3; fz 10; fz 20; fz 30])) name
        else None.
Proof.
  apply (@labels_of_the_result
           (mk_DataArray ["t"; "r"]%string
              [("r"%string, [LStr "x"; LStr "y"; LStr "z"]);
               ("height"%string, [LStr "h"])]
              (mk_ndarray [2; 3] [fz 1; fz 2; fz 3; fz 10; fz 20; fz 30]))
           [fz 0; fz 1]
           [(LStr "z", fz 1); (LStr "x", fz 2); (LStr "y", fz 1)]
           "r"%string false
           (mk_DataArray ["t"; "quantile"]%string
              [("t"%string, [LNum (fz 0); LNum (fz 1)]);
               ("quantile"%string, [LNum (fz 0); LNum (fz 1)])]
              (mk_ndarray [2; 2] [fz 1; fz 3; fz 10; fz 30]))).
  reflexivity.
Defined.

(** X22.  The weights are matched to the observations by label, not by position:
    the values of the result of a call that returns are those the N-D
    estimator returns, along the axis of the weighted dimension and with
    the default normalisation, for the weights found in the mapping under
    the coordinate labels of that dimension, label by label.  Every label
    has at least one row in the mapping; a label that is repeated in the
    index of the mapping contributes every one of its rows (the weights
    then no longer stand one per observation). *)
Theorem weights_are_looked_up_by_label (data : DataArray)
  (quantiles : list fnum) (sample_weight : Series) (dim : string)
  (values_sorted : bool) (out : DataArray) :
  outcome (weighted_quantile_xr data quantiles sample_weight dim
                                values_sorted) = Ok out ->
  exists axis labels,
    Xr.index_of dim (Xr.dims data) = Some axis /\
    Xr.coordinate_labels data dim = Some labels /\
    Forall (fun l => Xr.series_rows sample_weight l <> []) labels /\
    outcome (weighted_quantile (Xr.values data) quantiles
               (Some (flat_map (Xr.series_rows sample_weight) labels))
               values_sorted false (Some (Z.of_nat axis)))
    = Ok (Xr.values out).
Proof.
  intros H.
  destruct (xr_success_inv _ _ _ _ _ H)
    as [axis [cs [labels [weights [Hax [_ [Hl [Hw [Hnd _]]]]]]]]].
  destruct (loc_inv _ _ Hw) as [Hrows ->].
  exists axis, labels.
  split; [exact Hax | split; [exact Hl | split; [exact Hrows | exact Hnd]]].
Qed.

Lemma weights_are_looked_up_by_label_witness :
  exists axis labels,
    Xr.index_of "r" ["t"; "r"]%string = Some axis /\
    Xr.coordinate_labels
      (mk_DataArray ["t"; "r"]%string
         [("r"%string, [LStr "x"; LStr "y"; LStr "z"])]
         (mk_ndarray [2; 3] [fz 1; fz 2; fz 3; fz 10; fz 20; fz 30])) "r"
    = Some labels /\
    Forall (fun l =>
              Xr.series_rows
                [(LStr "z", fz 1); (LStr "x", fz 2); (LStr "y", fz 1)] l
              <> []) labels /\
    outcome (weighted_quantile
               (mk_ndarray [2; 3] [fz 1; fz 2; fz 3; fz 10; fz 20; fz 30])
               [fz 0; fz 1]
               (Some (flat_map
                        (Xr.series_rows
                           [(LStr "z", fz 1); (LStr "x", fz 2);
                            (LStr "y", fz 1)]) labels))
               false false (Some (Z.of_nat axis)))
    = Ok (mk_ndarray [2; 2] [fz 1; fz 3; fz 10; fz 30]).
Proof.
  apply (@weights_are_looked_up_by_label
           (mk_DataArray ["t"; "r"]%string
              [("r"%string, [LStr "x"; LStr "y"; LStr "z"])]
              (mk_ndarray [2; 3] [fz 1; fz 2; fz 3; fz 10; fz 20; fz 30]))
           [fz 0; fz 1]
           [(LStr "z", fz 1); (LStr "x", fz 2); (LStr "y", fz 1)]
           "r"%string false
           (mk_DataArray ["t"; "quantile"]%string
              [("t"%string, [LNum (fz 0); LNum (fz 1)]);
               ("quantile"%string, [LNum (fz 0); LNum (fz 1)])]
              (mk_ndarray [2; 2] [fz 1; fz 3; fz 10; fz 30]))).
  reflexivity.
Defined.

Lemma feqb_sym (a b : fnum) : feqb a b = feqb b a.
Proof.
  destruct a, b; simpl; try reflexivity.
  apply eq_true_iff_eq. rewrite !Qeq_bool_iff. split; intros E; now symmetry.
Qed.

Lemma label_eqb_sym (a b : label) : Xr.label_eqb a b = Xr.label_eqb b a.
Proof.
  destruct a, b; simpl; try reflexivity; [apply String.eqb_sym | ].
  now rewrite feqb_sym, andb_comm.
Qed.

Lemma label_eqb_trans (a b c : label) :
  Xr.label_eqb a b = true -> Xr.label_eqb b c = true ->
  Xr.label_eqb a c = true.
Proof.
  destruct a as [s | x], b as [t | y], c as [u | z]; simpl;
    try discriminate.
  - rewrite !String.eqb_eq. congruence.
  - destruct x, y, z; simpl; try discriminate; try reflexivity.
    rewrite !orb_false_r, !Qeq_bool_iff. intros E1 E2. now rewrite E1.
Qed.

Lemma filter_perm {A} (f : A -> bool) (l l' : list A) :
  Permutation l l' -> Permutation (filter f l) (filter f l').
Proof.
  induction 1 as [| x l l' _ IH | x y l | l l' l'' _ IH1 _ IH2]; simpl.
  - constructor.
  - destruct (f x); [now apply perm_skip | exact IH].
  - destruct (f x), (f y); try apply Permutation_refl. apply perm_swap.
  - now apply perm_trans with (filter f l').
Qed.

(** A rearrangement of a list whose entries are all the same is the list
    itself. *)
Lemma all_equal_perm {A} (l l' : list A) :
  (forall a b, In a l -> In b l -> a = b) -> Permutation l l' -> l = l'.
Proof.
  revert l'. induction l as [| a l IH]; intros l' Heq Hp.
  - apply Permutation_nil in Hp. now subst.
  - destruct l' as [| b l'];
      [apply Permutation_sym, Permutation_nil in Hp; discriminate | ].
    assert (E : a = b).
    { apply Heq; [now left | ].
      apply (Permutation_in _ (Permutation_sym Hp)). now left. }
    subst b. f_equal. apply IH.
    + intros x y Hx Hy. apply Heq; now right.
    + now apply Permutation_cons_inv in Hp.
Qed.

(** With unique labels the rows under a label do not depend on the order of
    the entries. *)
Lemma series_rows_perm (s s' : Series) (l : label) :
  unique_labels s -> Permutation s s' ->
  Xr.series_rows s' l = Xr.series_rows s l.
Proof.
  intros Hu Hp. unfold Xr.series_rows. f_equal. symmetry.
  apply all_equal_perm.
  - intros p p' Hin Hin'. apply filter_In in Hin, Hin'.
    destruct Hin as [Hin E], Hin' as [Hin' E'].
    apply Hu; [exact Hin | exact Hin' | ].
    apply (label_eqb_trans _ _ _ E). now rewrite label_eqb_sym.
  - now apply filter_perm.
Qed.

Lemma bind_ext {A B} (m : M A) (f g : A -> M B) :
  (forall a, f a = g a) -> bind m f = bind m g.
Proof.
  intros H. destruct m as [t [a | e]]; simpl; [now rewrite H | reflexivity].
Qed.

(** X23.  The order of the entries of the weight mapping does not matter: when
    no two entries have the same label, the call on a reordered mapping has
    the same outcome and the same trace. *)
Theorem order_of_the_weight_entries_is_irrelevant (data : DataArray)
  (quantiles : list fnum) (sample_weight sample_weight' : Series)
  (dim : string) (values_sorted : bool) :
  unique_labels sample_weight ->
  Permutation sample_weight sample_weight' ->
  weighted_quantile_xr data quantiles sample_weight' dim values_sorted
  = weighted_quantile_xr data quantiles sample_weight dim values_sorted.
Proof.
  intros Hu Hp. unfold weighted_quantile_xr.
  assert (E : forall labels,
             Xr.loc sample_weight' labels = Xr.loc sample_weight labels).
  { intros labels. unfold Xr.loc. apply bind_ext. intros _. f_equal.
    induction labels as [| l labels IH]; [reflexivity | ]. cbn [mapM].
    now rewrite (series_rows_perm l Hu Hp), IH. }
  apply bind_ext. intros axis. cbv zeta.
  apply bind_ext. intros coords.
  apply bind_ext. intros labels.
  now rewrite E.
Qed.

Lemma order_of_the_weight_entries_is_irrelevant_witness :
  weighted_quantile_xr
    (mk_DataArray ["t"; "r"]%string
       [("r"%string, [LStr "x"; LStr "y"])]
       (mk_ndarray [2; 2] [fz 1; fz 2; fz 10; fz 20]))
    [fq 1 2] [(LStr "x", fz 2); (LStr "y", fz 1)] "r" false
  = weighted_quantile_xr
      (mk_DataArray ["t"; "r"]%string
         [("r"%string, [LStr "x"; LStr "y"])]
         (mk_ndarray [2; 2] [fz 1; fz 2; fz 10; fz 20]))
      [fq 1 2] [(LStr "y", fz 1); (LStr "x", fz 2)] "r" false.
Proof.
  apply (@order_of_the_weight_entries_is_irrelevant
           (mk_DataArray ["t"; "r"]%string
              [("r"%string, [LStr "x"; LStr "y"])]
              (mk_ndarray [2; 2] [fz 1; fz 2; fz 10; fz 20]))
           [fq 1 2] [(LStr "y", fz 1); (LStr "x", fz 2)]
           [(LStr "x", fz 2); (LStr "y", fz 1)] "r"%string false).
  - intros p p' [<- | [<- | []]] [<- | [<- | []]]; simpl;
      intros E; reflexivity || discriminate E.
  - apply perm_swap.
Defined.

End Labelled.

(* ================================================================= *)
(** ** The labelled wrapper on well-formed input *)

Section LabelledReturns.
Local Open Scope Q_scope.

Lemma index_of_lt (name : string) (l : list string) (ax : nat) :
  Xr.index_of name l = Some ax ->
  (ax < length l)%nat /\ nth ax l EmptyString = name.
Proof.
  revert ax. induction l as [| x l IH]; intros ax; simpl; [discriminate | ].
  destruct (String.eqb x name) eqn:E.
  - intros H. inversion H; subst. apply String.eqb_eq in E.
    split; [lia | exact E].
  - destruct (Xr.index_of name l) as [p | ]; [ | discriminate].
    intros H. inversion H; subst. destruct (IH p eq_refl).
    split; [lia | assumption].
Qed.

Lemma index_of_app_fresh (name : string) (l l' : list string) :
  ~ In name l ->
  Xr.index_of name (l ++ name :: l') = Some (length l).
Proof.
  induction l as [| x l IH]; intros Hn; simpl.
  - now rewrite String.eqb_refl.
  - destruct (String.eqb x name) eqn:E.
    + apply String.eqb_eq in E. exfalso. apply Hn. now left.
    + rewrite IH; [reflexivity | ]. intros H. apply Hn. now right.
Qed.

(** Replacing one name of a list of distinct names by a new name moves no
    other name. *)
Lemma index_of_replaced (name new : string) (l : list string) (ax p : nat) :
  (ax < length l)%nat -> name <> new ->
  Xr.index_of name l = Some p -> p <> ax ->
  Xr.index_of name (firstn ax l ++ new :: skipn (S ax) l) = Some p.
Proof.
  revert ax p. induction l as [| x l IH]; intros ax p Hax Hnew;
    [simpl in Hax; lia | ].
  destruct ax as [| ax].
  - cbn [firstn skipn app Xr.index_of].
    destruct (String.eqb x name) eqn:E.
    + intros H Hp. inversion H; subst. congruence.
    + destruct (String.eqb new name) eqn:E'.
      * apply String.eqb_eq in E'. congruence.
      * intros H _. exact H.
  - change (firstn (S ax) (x :: l)) with (x :: firstn ax l).
    change (skipn (S (S ax)) (x :: l)) with (skipn (S ax) l).
    cbn [app Xr.index_of].
    destruct (String.eqb x name) eqn:E; [trivial | ].
    destruct (Xr.index_of name l) as [p' | ] eqn:Ep; [ | discriminate].
    intros H Hp. inversion H; subst.
    rewrite (IH ax p'); [reflexivity | simpl in Hax; lia | exact Hnew
                        | reflexivity | lia].
Qed.

Lemma nth_replaced (s : list nat) (ax p m : nat) :
  (ax < length s)%nat -> p <> ax ->
  nth p (firstn ax s ++ m :: skipn (S ax) s) 0%nat = nth p s 0%nat.
Proof.
  revert ax p. induction s as [| a s IH]; intros ax p Hax Hp;
    [simpl in Hax; lia | ].
  destruct ax as [| ax]; destruct p as [| p]; try lia; try reflexivity.
  change (firstn (S ax) (a :: s)) with (a :: firstn ax s).
  change (skipn (S (S ax)) (a :: s)) with (skipn (S ax) s).
  cbn [app nth]. apply IH; [simpl in Hax; lia | lia].
Qed.

Lemma nth_replacement (s : list nat) (ax m : nat) :
  (ax < length s)%nat ->
  nth ax (firstn ax s ++ m :: skipn (S ax) s) 0%nat = m.
Proof.
  intros Hax. rewrite app_nth2 by (rewrite length_firstn; lia).
  rewrite length_firstn.
  replace (ax - Nat.min ax (length s))%nat with 0%nat by lia.
  reflexivity.
Qed.

Lemma dict_get_in {V} (d : list (string * V)) (name : string) (v : V) :
  Xr.dict_get d name = Some v -> In (name, v) d.
Proof.
  induction d as [| [k v'] d IH]; simpl; [discriminate | ].
  destruct (String.eqb k name) eqn:E.
  - intros H. inversion H; subst. apply String.eqb_eq in E. subst. now left.
  - intros H. right. now apply IH.
Qed.

Lemma dict_update_fresh {V} (d : list (string * V)) (key : string) (v : V) :
  ~ In key (map fst d) -> Xr.dict_update d key v = d ++ [(key, v)].
Proof.
  induction d as [| [k v'] d IH]; intros Hn; simpl; [reflexivity | ].
  destruct (String.eqb k key) eqn:E.
  - apply String.eqb_eq in E. exfalso. apply Hn. now left.
  - rewrite IH; [reflexivity | ]. intros H. apply Hn. now right.
Qed.

(** In a well-formed labelled array the coordinate of a dimension is as
    long as the dimension. *)
Lemma coordinate_length (da : DataArray) (name : string) (ax : nat)
  (c : list label) :
  Xr.coords_fit (Xr.dims da) (Nd.shape (Xr.values da)) (Xr.coords da) = true ->
  Xr.index_of name (Xr.dims da) = Some ax ->
  Xr.coordinate_labels da name = Some c ->
  length c = nth ax (Nd.shape (Xr.values da)) 0%nat.
Proof.
  intros Hfit Hax. unfold Xr.coordinate_labels.
  destruct (Xr.dict_get (Xr.coords da) name) as [c' | ] eqn:E.
  - intros H. inversion H; subst c'. apply dict_get_in in E.
    unfold Xr.coords_fit in Hfit. rewrite forallb_forall in Hfit.
    specialize (Hfit _ E). cbn [fst snd] in Hfit. rewrite Hax in Hfit.
    now apply Nat.eqb_eq.
  - rewrite Hax. intros H. inversion H.
    now rewrite length_map, length_seq.
Qed.

(** In a mapping with a unique index, the row found under a label is the
    only one. *)
Lemma unique_index_rows (s : Series) (l : label) (w : fnum) :
  unique_index s = true -> Xr.series_get s l = Some w ->
  Xr.series_rows s l = [w].
Proof.
  unfold Xr.series_rows.
  induction s as [| [k w0] s IH]; [discriminate | ].
  cbn [unique_index Xr.series_get filter map fst snd].
  intros Hu. apply andb_true_iff in Hu. destruct Hu as [Hk Hu].
  destruct (Xr.label_eqb k l) eqn:E; [ | now apply IH].
  intros H. inversion H; subst w0. cbn [map snd]. f_equal.
  assert (Hnone : filter (fun e : label * fnum => Xr.label_eqb (fst e) l) s
                  = []).
  { apply negb_true_iff in Hk. clear -Hk E.
    induction s as [| e s IH]; [reflexivity | ].
    cbn [existsb] in Hk. apply orb_false_iff in Hk. destruct Hk as [He Hk].
    cbn [filter].
    destruct (Xr.label_eqb (fst e) l) eqn:El; [ | now apply IH].
    exfalso. rewrite (label_eqb_sym k l) in E.
    rewrite (label_eqb_trans _ _ _ El E) in He. discriminate. }
  now rewrite Hnone.
Qed.

(** The weights of a list of labels that have one row each. *)
Lemma loc_single (s : Series) (labels : list label) (ws : list Q) :
  Forall2 (fun l x => Xr.series_rows s l = [Fin x]) labels ws ->
  outcome (Xr.loc s labels) = Ok (map Fin ws).
Proof.
  intros H. unfold Xr.loc. rewrite bind_emit, outcome_pair, outcome_bind.
  assert (E : outcome (mapM (fun l => match Xr.series_rows s l with
                                      | [] => raise KeyError
                                      | r => ret r
                                      end) labels)
              = Ok (map (fun x => [Fin x]) ws)).
  { induction H as [| l x labels ws Hx _ IH]; [reflexivity | ].
    cbn [mapM map]. rewrite Hx, bind_ret_l, outcome_bind, IH. reflexivity. }
  rewrite E. cbn [outcome ret snd]. f_equal.
  clear. induction ws as [| x ws IH]; [reflexivity | ].
  cbn [map concat app]. now rewrite IH.
Qed.

(** X24.  On a well-formed labelled array (distinct dimension names, one per
    axis, coordinates as long as their dimensions, as many finite numbers
    of moderate magnitude as the shape asks for) without zero-length
    dimension and without a dimension called ["quantile"], a call on one
    of its dimensions returns when the index of the mapping is unique,
    every coordinate label of that dimension has a weight in it, these
    weights are strictly positive counts and the quantiles are in the unit
    interval.  The values of the result have the shape of the input with
    the weighted axis replaced by the number of quantiles, and every entry
    is a finite number, the estimate that the 1-D estimator returns, for
    the weights of the labels in coordinate order, on the slice through
    the entry. *)
Theorem labelled_call_returns (dims : list string)
  (coords : list (string * list label)) (s : list nat) (d q : list Q)
  (sample_weight : Series) (dim : string) (labels : list label)
  (ws : list Q) :
  let data := mk_DataArray dims coords (mk_ndarray s (map Fin d)) in
  NoDup dims -> ~ In "quantile"%string dims ->
  length dims = length s -> Xr.coords_fit dims s coords = true ->
  length d = Nd.size s ->
  Forall (fun n => (0 < n)%nat) s ->
  In dim dims ->
  Xr.coordinate_labels data dim = Some labels ->
  unique_index sample_weight = true ->
  Forall2 (fun l x => Xr.series_get sample_weight l = Some (Fin x))
          labels ws ->
  Forall (fun x => 0 < x) ws -> counts ws ->
  moderate d ->
  unit_quantiles q ->
  exists out axis,
    outcome (weighted_quantile_xr data (map Fin q) sample_weight dim false)
    = Ok out /\
    Xr.index_of dim dims = Some axis /\
    Nd.shape (Xr.values out)
    = firstn axis s ++ length q :: skipn (S axis) s /\
    forall idx, Nd.in_range (Nd.shape (Xr.values out)) idx ->
      exists ys,
        outcome (weighted_quantile_1d
                   (map Fin (qslice s d axis (Nd.drop_axis axis idx)))
                   (map Fin q) (Some (map Fin ws)) false false)
        = Ok (map Fin ys) /\
        Nd.get (Xr.values out) idx = Fin (nth (nth axis idx 0%nat) ys 0).
Proof.
  intros data Hnodup Hfresh Hnames Hfit Hwf Hdims Hdim Hlabels Hunique Hget
         Hws_pos _ _ Hq.
  assert (Hrows : Forall2 (fun l x => Xr.series_rows sample_weight l
                                      = [Fin x]) labels ws).
  { eapply Forall2_impl; [ | exact Hget].
    intros l x. now apply unique_index_rows. }
  destruct (index_of_in _ _ Hdim) as [axis Haxis].
  destruct (index_of_lt _ _ Haxis) as [Hax Hnth].
  assert (Hax' : (axis < length s)%nat) by lia.
  (* the labels of the weighted dimension and their weights *)
  assert (Hlabels_len : length labels = nth axis s 0%nat)
    by (apply (@coordinate_length data dim axis labels Hfit Haxis Hlabels)).
  pose proof (@loc_single _ _ _ Hrows) as Hloc.
  pose proof (Forall2_length Hrows) as Hws_len.
  (* the estimates *)
  assert (Hiter : Forall (fun n => (0 < n)%nat) (Nd.drop_axis axis s)).
  { apply Forall_forall. intros n Hn. apply (proj1 (Forall_forall _ _) Hdims).
    unfold Nd.drop_axis in Hn. apply in_app_or in Hn.
    destruct Hn as [Hn | Hn].
    - rewrite <- (firstn_skipn axis s). apply in_or_app. now left.
    - rewrite <- (firstn_skipn (S axis) s). apply in_or_app. now right. }
  assert (Hone : (1 <= nth axis s 0)%nat).
  { apply (proj1 (Forall_forall _ _) Hdims). now apply nth_In. }
  destruct (@finite_array_estimates false s d ws q axis Hwf Hax' Hiter)
    as [nd [Hnd [Hshape Hentries]]]; try assumption; [lia | ].
  (* the coordinates of the result *)
  set (dims' := firstn axis dims ++ ["quantile"%string]
                ++ skipn (S axis) dims).
  set (names := filter (fun coord => existsb (String.eqb coord) dims') dims).
  destruct (@coords_of_dims data names) as [cs Hcs].
  { apply Forall_forall. intros name Hname. now apply filter_In in Hname. }
  assert (Hcs_inv := f_equal outcome Hcs). cbn [outcome ret snd] in Hcs_inv.
  apply mapM_outcome_inv in Hcs_inv.
  assert (Hentry : Forall (fun c : string * list label =>
             In (fst c) names /\
             Xr.coordinate_labels data (fst c) = Some (snd c)) cs).
  { clear -Hcs_inv. induction Hcs_inv as [| name c names cs Hc _ IH];
      constructor.
    - rewrite outcome_bind in Hc. unfold Xr.coords_getitem in Hc.
      destruct (Xr.coordinate_labels data name) as [lab | ] eqn:E;
        [ | discriminate].
      cbn [outcome ret snd] in Hc. inversion Hc; subst c. cbn [fst snd].
      split; [now left | exact E].
    - eapply Forall_impl; [ | exact IH]. intros c' [Hin Hco].
      split; [now right | exact Hco]. }
  assert (Hkeys : ~ In "quantile"%string (map fst cs)).
  { intros Hin. apply in_map_iff in Hin. destruct Hin as [c [Hc Hin]].
    destruct (proj1 (Forall_forall _ _) Hentry c Hin) as [Hname _].
    rewrite Hc in Hname. apply filter_In in Hname. now apply Hfresh. }
  assert (Hfit' : Xr.coords_fit dims' (Nd.shape nd)
                    (cs ++ [("quantile"%string, map LNum (map Fin q))])
                  = true).
  { unfold Xr.coords_fit. rewrite forallb_app. apply andb_true_iff. split.
    - apply forallb_forall. intros [name lab] Hin.
      destruct (proj1 (Forall_forall _ _) Hentry _ Hin) as [Hname Hco].
      cbn [fst snd] in Hname, Hco |- *.
      apply filter_In in Hname. destruct Hname as [Hold Hnew].
      destruct (index_of_in _ _ Hold) as [p Hp].
      destruct (index_of_lt _ _ Hp) as [Hp_lt Hp_nth].
      assert (Hq_name : name <> "quantile"%string) by congruence.
      assert (Hp_ax : p <> axis).
      { intros ->. apply existsb_eqb_in in Hnew. unfold dims' in Hnew.
        subst name.
        apply in_app_or in Hnew. destruct Hnew as [Hin1 | Hin2].
        - destruct (In_nth _ _ EmptyString Hin1) as [k [Hk Hk_nth]].
          rewrite length_firstn in Hk.
          rewrite nth_firstn_lt in Hk_nth by lia.
          apply (proj1 (NoDup_nth dims EmptyString) Hnodup k axis) in Hk_nth;
            lia.
        - apply in_app_or in Hin2. destruct Hin2 as [[Hq' | []] | Hin2];
            [congruence | ].
          destruct (In_nth _ _ EmptyString Hin2) as [k [Hk Hk_nth]].
          rewrite length_skipn in Hk. rewrite nth_skipn in Hk_nth.
          apply (proj1 (NoDup_nth dims EmptyString) Hnodup
                   (S axis + k)%nat axis) in Hk_nth; lia. }
      unfold dims'. cbn [app].
      rewrite (index_of_replaced _ Hax Hq_name Hp Hp_ax).
      apply Nat.eqb_eq. rewrite Hshape, (nth_replaced _ _ Hax' Hp_ax).
      apply (@coordinate_length data name p lab Hfit Hp Hco).
    - cbn [forallb fst snd]. rewrite andb_true_r.
      unfold dims'. cbn [app].
      rewrite <- (firstn_skipn axis dims) in Hfresh.
      rewrite index_of_app_fresh
        by (intros H; apply Hfresh; apply in_or_app; now left).
      rewrite length_firstn, Nat.min_l by lia.
      apply Nat.eqb_eq. rewrite Hshape, (nth_replacement _ _ Hax').
      now rewrite !length_map. }
  (* the call *)
  exists (mk_DataArray dims'
            (cs ++ [("quantile"%string, map LNum (map Fin q))]) nd), axis.
  split; [ | split; [exact Haxis | split; [exact Hshape | exact Hentries]]].
  unfold weighted_quantile_xr, Xr.get_axis_num.
  cbn [data Xr.dims]. rewrite Haxis, bind_emit.
  cbn [trace_of outcome ret fst snd]. rewrite bind_pure. cbv zeta.
  fold dims'. fold names.
  change (mk_DataArray dims coords (mk_ndarray s (map Fin d))) with data.
  rewrite Hcs, bind_ret_l.
  unfold Xr.coords_getitem. rewrite Hlabels, bind_ret_l.
  rewrite !outcome_pair, outcome_bind, Hloc, outcome_bind.
  cbn [data Xr.values]. rewrite Hnd.
  unfold Xr.new_DataArray.
  rewrite (@dict_update_fresh _ cs "quantile"%string _ Hkeys), Hfit'.
  replace (length dims' =? Nd.ndim nd)%nat with true; [reflexivity | ].
  symmetry. apply Nat.eqb_eq. unfold Nd.ndim, dims'.
  rewrite Hshape, !length_app, !length_firstn. cbn [length].
  rewrite !length_skipn. lia.
Qed.

Lemma labelled_call_returns_witness :
  exists out axis,
    outcome (weighted_quantile_xr
               (mk_DataArray ["t"; "r"]%string
                  [("r"%string, [LStr "x"; LStr "y"; LStr "z"])]
                  (mk_ndarray [2; 3]%nat (map Fin [1; 2; 3; 10; 20; 30])))
               (map Fin [1 # 2; 1])
               [(LStr "z", Fin 1); (LStr "x", Fin 2); (LStr "y", Fin 1)]
               "r" false)
    = Ok out /\
    Xr.index_of "r" ["t"; "r"]%string = Some axis /\
    Nd.shape (Xr.values out)
    = firstn axis [2; 3]%nat ++ length [1 # 2; 1]
      :: skipn (S axis) [2; 3]%nat /\
    forall idx, Nd.in_range (Nd.shape (Xr.values out)) idx ->
      exists ys,
        outcome (weighted_quantile_1d
                   (map Fin (qslice [2; 3]%nat [1; 2; 3; 10; 20; 30] axis
                                    (Nd.drop_axis axis idx)))
                   (map Fin [1 # 2; 1]) (Some (map Fin [2; 1; 1]))
                   false false)
        = Ok (map Fin ys) /\
        Nd.get (Xr.values out) idx = Fin (nth (nth axis idx 0%nat) ys 0).
Proof.
  apply (@labelled_call_returns ["t"; "r"]%string
           [("r"%string, [LStr "x"; LStr "y"; LStr "z"])]
           [2; 3]%nat [1; 2; 3; 10; 20; 30] [1 # 2; 1]
           [(LStr "z", Fin 1); (LStr "x", Fin 2); (LStr "y", Fin 1)]
           "r"%string [LStr "x"; LStr "y"; LStr "z"] [2; 1; 1]).
  - repeat constructor; simpl; intuition discriminate.
  - simpl. intuition discriminate.
  - reflexivity.
  - reflexivity.
  - reflexivity.
  - repeat constructor.
  - simpl. auto.
  - reflexivity.
  - reflexivity.
  - repeat constructor.
  - repeat constructor.
  - split; [repeat constructor; discriminate | discriminate].
  - repeat constructor; discriminate.
  - repeat constructor; discriminate.
Defined.

End LabelledReturns.
